(** * ccls message handler: dispatcher, reply channel and semantic highlight

    A shallow embedding of [src/message_handler.cc] and [src/position.hh],
    followed by the properties that the design document states about them.

    Conventions.  C++ integers are [Z] (indices of vectors and loop counters
    that provably stay small are [nat]); [std::string] and [std::string_view]
    are [string]; the raw buffer is a list of bytes; [std::vector] is [list];
    a pointer into the table of highlight symbols is the index of the symbol
    in that table; a raised C++ exception is a value of [Exn]. *)

From Stdlib Require Import ZArith List String Ascii Bool Lia Strings.Byte.
From Stdlib Require Import Sorting.Sorted Sorting.Permutation.
From stdpp Require Import base option list sorting strings gmap.

Local Open Scope Z_scope.

(** ** position.hh *)

(** [struct Pos]: [line] is [uint16_t] in the default build, [column] is
    [int16_t] and [-1] marks an invalid position. *)
Record Pos := mkPos { Pos_line : Z; Pos_column : Z }.

Definition Pos_valid (p : Pos) : bool := 0 <=? Pos_column p.

Definition Pos_eqb (a o : Pos) : bool :=
  (Pos_line a =? Pos_line o) && (Pos_column a =? Pos_column o).

Definition Pos_ltb (a o : Pos) : bool :=
  if negb (Pos_line a =? Pos_line o) then Pos_line a <? Pos_line o
  else Pos_column a <? Pos_column o.

Definition Pos_leb (a o : Pos) : bool := negb (Pos_ltb o a).

Record Range := mkRange { Range_start : Pos; Range_end : Pos }.

Definition Range_valid (r : Range) : bool := Pos_valid (Range_start r).

Definition Range_eqb (a o : Range) : bool :=
  Pos_eqb (Range_start a) (Range_start o) && Pos_eqb (Range_end a) (Range_end o).

Definition Range_ltb (a o : Range) : bool :=
  if negb (Pos_eqb (Range_start a) (Range_start o))
  then Pos_ltb (Range_start a) (Range_start o)
  else Pos_ltb (Range_end a) (Range_end o).

(** Conversion of a mathematical value to [int16_t] and to [size_t]. *)
Definition to_int16 (z : Z) : Z := (z + 32768) mod 65536 - 32768.
Definition to_size_t (z : Z) : Z := z mod 2 ^ 64.

(** ** Protocol positions

    Modelled from the spec: [Position] and [lsRange] are declared in lsp.hh,
    which is not part of the sources at hand.  A position is a line and a
    character, ordered by line and then by character, as the design document
    says of positions; [==] is equality of both fields. *)
Record Position := mkPosition { line : Z; character : Z }.

Definition Position_eqb (a o : Position) : bool :=
  (line a =? line o) && (character a =? character o).

Definition Position_ltb (a o : Position) : bool :=
  if negb (line a =? line o) then line a <? line o
  else character a <? character o.

Record lsRange := mklsRange { start : Position; end_ : Position }.

(** Modelled from the spec: [SymbolKind] is an [enum class] over [uint8_t]
    declared in lsp.hh; a kind is its underlying value.  [Macro] is the
    designated kind that the comparison of events places after every other:
    it has the largest value of the underlying type. *)
Definition SymbolKind := Z.
Definition SymbolKind_wf (k : SymbolKind) : Prop := 0 <= k <= 255.
Definition Macro : SymbolKind := 255.
Definition Unknown : SymbolKind := 0.

(** ** Highlight symbols and sweep events (message_handler.cc, 53-97) *)

Record CclsSemanticHighlightSymbol := mkSymbol {
  id : Z;
  parentKind : SymbolKind;
  kind : SymbolKind;
  storage : Z;
  ranges : list (Z * Z);
  lsRanges : list lsRange
}.

(** The values of [grouped_symbols], in the order in which the map is
    iterated.  An event refers to its symbol by position in this table. *)
Abbreviation SymbolTable := (list CclsSemanticHighlightSymbol).

Record ScanLineEvent := mkEvent {
  pos : Position;
  end_pos : Position;
  ev_id : Z;
  symbol : nat
}.

#[global] Instance Position_eq_dec : EqDecision Position.
Proof. solve_decision. Defined.
#[global] Instance lsRange_eq_dec : EqDecision lsRange.
Proof. solve_decision. Defined.
#[global] Instance ScanLineEvent_eq_dec : EqDecision ScanLineEvent.
Proof. solve_decision. Defined.

(** [symbol->kind] and [symbol->id]; the default is never used for the
    events that [emitSemanticHighlight] builds (lemma [events_from_wf]). *)
Definition symbol_kind (tbl : SymbolTable) (e : ScanLineEvent) : SymbolKind :=
  from_option kind 0 (tbl !! symbol e).
Definition symbol_id (tbl : SymbolTable) (e : ScanLineEvent) : Z :=
  from_option id 0 (tbl !! symbol e).

(** [ScanLineEvent::operator<]. *)
Definition ScanLineEvent_lt (tbl : SymbolTable) (a o : ScanLineEvent) : bool :=
  if negb (Position_eqb (pos a) (pos o)) then Position_ltb (pos a) (pos o)
  else if negb (Position_eqb (end_pos o) (end_pos a))
       then Position_ltb (end_pos o) (end_pos a)
  else if negb (symbol_kind tbl a =? symbol_kind tbl o)
       then symbol_kind tbl a <? symbol_kind tbl o
  else symbol_id tbl a <? symbol_id tbl o.

(** ** The scan line of emitSemanticHighlight (message_handler.cc, 383-420) *)

(** Lines 386-399.  Each collected range contributes an insertion event at
    its start and a deletion event at its end; [n] is the running interval
    id and [~n] marks the deletion. *)
Definition push_range_events (k : nat) (acc : Z * list ScanLineEvent)
    (loc : lsRange) : Z * list ScanLineEvent :=
  (acc.1 + 1,
   acc.2 ++ [mkEvent (start loc) (end_ loc) acc.1 k;
             mkEvent (end_ loc) (end_ loc) (Z.lnot acc.1) k]).

Definition push_symbol_events (acc : Z * list ScanLineEvent)
    (entry : nat * CclsSemanticHighlightSymbol) : Z * list ScanLineEvent :=
  foldl (push_range_events entry.1) acc (lsRanges entry.2).

Definition build_events (tbl : SymbolTable) : Z * list ScanLineEvent :=
  foldl push_symbol_events (0, []) (imap pair tbl).

(** [symbol.lsRanges.clear()]. *)
Definition clear_lsRanges (s : CclsSemanticHighlightSymbol) :=
  mkSymbol (id s) (parentKind s) (kind s) (storage s) (ranges s) [].

(** [symbol->lsRanges.push_back(r)]. *)
Definition add_lsRange (r : lsRange) (s : CclsSemanticHighlightSymbol) :=
  mkSymbol (id s) (parentKind s) (kind s) (storage s) (ranges s)
           (lsRanges s ++ [r]).

(** [std::sort] with [operator<] returns some arrangement of its input in
    which no element is smaller than an earlier one; which one is not fixed
    when elements compare equivalent.  [sorted_by] states that, and
    [std_sort] is one such arrangement, by merging. *)
Definition not_after {A} (lt : A -> A -> bool) (a b : A) : Prop := lt b a = false.

#[global] Instance not_after_dec {A} (lt : A -> A -> bool) (a b : A)
  : Decision (not_after lt a b) := bool_eq_dec (lt b a) false.

Definition sorted_by {A} (lt : A -> A -> bool) (l : list A) : Prop :=
  StronglySorted (not_after lt) l.

Definition std_sort {A} (lt : A -> A -> bool) (l : list A) : list A :=
  merge_sort (not_after lt) l.

(** Indexing a vector with a C++ [int]; [None] is an access out of bounds. *)
Definition vec_at {A} (v : list A) (i : Z) : option A :=
  if i <? 0 then None else v !! Z.to_nat i.

(** The loop variables of lines 402-420.  The stack of open intervals lives
    in the first [top] cells of [events] itself. *)
Record ScanState := mkScan {
  events : list ScanLineEvent;
  deleted : list bool;
  top : nat;
  symbols : SymbolTable
}.

(** [while (top && deleted[events[top - 1].id]) top--;] *)
Fixpoint pop_deleted (evs : list ScanLineEvent) (del : list bool) (top : nat)
    : option nat :=
  match top with
  | O => Some O
  | S t =>
      e ← evs !! t;
      d ← vec_at del (ev_id e);
      if d : bool then pop_deleted evs del t else Some top
  end.

Definition push_lsRange (tbl : SymbolTable) (k : nat) (r : lsRange)
    : option SymbolTable :=
  s ← tbl !! k; Some (<[k := add_lsRange r s]> tbl).

(** One iteration of the [for] loop at index [i]. *)
Definition scan_step (s : ScanState) (i : nat) : option ScanState :=
  top1 ← pop_deleted (events s) (deleted s) (top s);
  cur ← events s !! i;
  symbols1 ← match top1 with
             | O => Some (symbols s)
             | S t =>
                 prev ← match i with O => None | S j => events s !! j end;
                 if Position_eqb (pos prev) (pos cur) then Some (symbols s)
                 else e ← events s !! t;
                      push_lsRange (symbols s) (symbol e)
                                   (mklsRange (pos prev) (pos cur))
             end;
  if 0 <=? ev_id cur then
    if decide (top1 < length (events s))%nat
    then Some (mkScan (<[top1 := cur]> (events s)) (deleted s) (S top1) symbols1)
    else None
  else
    _ ← vec_at (deleted s) (Z.lnot (ev_id cur));
    Some (mkScan (events s)
                 (<[Z.to_nat (Z.lnot (ev_id cur)) := true]> (deleted s))
                 top1 symbols1).

Definition scan_loop (s : ScanState) (idx : list nat) : option ScanState :=
  foldl (fun acc i => acc ≫= fun s => scan_step s i) (Some s) idx.

(** Lines 402-420 on the sorted events [evs], [n] being the number of
    intervals. *)
Definition scan_line (tbl : SymbolTable) (evs : list ScanLineEvent) (n : Z)
    : option SymbolTable :=
  symbols <$> scan_loop (mkScan evs (replicate (Z.to_nat n) false) O tbl)
                        (seq 0 (length evs)).

(** Lines 383-420: the table of grouped symbols with every [lsRanges]
    replaced by the resolved, non-overlapping ranges. *)
Definition resolve_overlaps (tbl : SymbolTable) : option SymbolTable :=
  let tbl0 := clear_lsRanges <$> tbl in
  scan_line tbl0 (std_sort (ScanLineEvent_lt tbl0) (build_events tbl).2)
            (build_events tbl).1.


(** ** Notions used to state the properties of the scan line *)

Definition Position_lt (a b : Position) : Prop := Position_ltb a b = true.
Definition Position_le (a b : Position) : Prop := Position_ltb b a = false.

(** The half-open range [r] contains the position [x]. *)
Definition in_lsRange (x : Position) (r : lsRange) : Prop :=
  Position_le (start r) x /\ Position_lt x (end_ r).

Definition disjoint_ranges (a b : lsRange) : Prop :=
  forall x, ~ (in_lsRange x a /\ in_lsRange x b).

(** [a] ends where [b] starts, or earlier. *)
Definition left_of (a b : lsRange) : Prop := Position_le (end_ a) (start b).

(** Every range of the table together with the index of its symbol. *)
Definition tagged_ranges (tbl : SymbolTable) : list (nat * lsRange) :=
  concat (imap (fun k s => pair k <$> lsRanges s) tbl).

(** The insertion event of the range [a.2] of symbol [a.1]; the comparison
    of events does not look at the interval id. *)
Definition open_event (a : nat * lsRange) : ScanLineEvent :=
  mkEvent (start a.2) (end_ a.2) 0 a.1.

(** The range [a] is opened before the range [b] in the order of the sweep. *)
Definition opens_before (tbl : SymbolTable) (a b : nat * lsRange) : bool :=
  ScanLineEvent_lt tbl (open_event a) (open_event b).

(** The table agrees with [tbl] on everything but [lsRanges]. *)
Definition same_symbols (tbl out : SymbolTable) : Prop :=
  clear_lsRanges <$> out = clear_lsRanges <$> tbl.

(** *** What the loop computes, stated on the sorted events alone *)

Definition is_openb (e : ScanLineEvent) : bool := 0 <=? ev_id e.

(** The interval opened by [e] has its deletion event in [l]. *)
Definition closedb (l : list ScanLineEvent) (e : ScanLineEvent) : bool :=
  existsb (fun c => ev_id c =? Z.lnot (ev_id e)) l.

(** The interval opened last in [l] among those not yet closed in [l]. *)
Definition active (l : list ScanLineEvent) : option ScanLineEvent :=
  find (fun e => negb (closedb l e)) (reverse (filter is_openb l)).

Definition emission (l : list ScanLineEvent) (prev cur : ScanLineEvent)
    : list (nat * lsRange) :=
  if Position_eqb (pos prev) (pos cur) then []
  else match active l with
       | Some e => [(symbol e, mklsRange (pos prev) (pos cur))]
       | None => []
       end.

(** The ranges attributed while the first [i] events are consumed. *)
Fixpoint spec_log (evs : list ScanLineEvent) (i : nat) : list (nat * lsRange) :=
  match i with
  | O => []
  | S j =>
      spec_log evs j ++
      match j with
      | O => []
      | S j' =>
          match evs !! j', evs !! j with
          | Some prev, Some cur => emission (take j evs) prev cur
          | _, _ => []
          end
      end
  end.

Definition apply_log (tbl : SymbolTable) (log : list (nat * lsRange))
    : SymbolTable :=
  foldl (fun t a => alter (add_lsRange a.2) a.1 t) tbl log.

(** The stack kept in the first cells of [events], top first, against the
    insertion events consumed so far, latest first: an event missing from
    the stack has been deleted. *)
Inductive stack_rel (del : ScanLineEvent -> bool)
    : list ScanLineEvent -> list ScanLineEvent -> Prop :=
| stack_nil : stack_rel del [] []
| stack_keep e st op :
    stack_rel del st op -> stack_rel del (e :: st) (e :: op)
| stack_skip e st op :
    stack_rel del st op -> del e = true -> stack_rel del st (e :: op).

(** *** The order that the design document prescribes for events

    Position ascending, then the other endpoint descending, then symbol
    kind ascending, then interval id ascending. *)
Definition spec_event_lt (tbl : SymbolTable) (a o : ScanLineEvent) : bool :=
  if negb (Position_eqb (pos a) (pos o)) then Position_ltb (pos a) (pos o)
  else if negb (Position_eqb (end_pos o) (end_pos a))
       then Position_ltb (end_pos o) (end_pos a)
  else if negb (symbol_kind tbl a =? symbol_kind tbl o)
       then symbol_kind tbl a <? symbol_kind tbl o
  else ev_id a <? ev_id o.

(** Lexicographic order on keys, and the key by which [operator<] orders
    events: the positions are compared field by field, the end position in
    descending order. *)
Fixpoint lex_lt (k1 k2 : list Z) : Prop :=
  match k1, k2 with
  | x :: k1', y :: k2' => x < y \/ (x = y /\ lex_lt k1' k2')
  | _, _ => False
  end.

Definition sort_key (tbl : SymbolTable) (e : ScanLineEvent) : list Z :=
  [line (pos e); character (pos e);
   - line (end_pos e); - character (end_pos e);
   symbol_kind tbl e; symbol_id tbl e].

(** The events of a list of tagged ranges, numbered from [n]. *)
Definition close_event (n : Z) (a : nat * lsRange) : ScanLineEvent :=
  mkEvent (end_ a.2) (end_ a.2) (Z.lnot n) a.1.

Fixpoint events_from (n : Z) (ivs : list (nat * lsRange)) : list ScanLineEvent :=
  match ivs with
  | [] => []
  | a :: ivs' =>
      mkEvent (start a.2) (end_ a.2) n a.1 :: close_event n a ::
      events_from (n + 1) ivs'
  end.

(** What the sweep needs to know about its events: every event points into
    the table and carries the id of one of the [n] intervals or its
    complement; deletion events sit at the end of their interval; and the
    insertion events are those of the ranges [ivs]. *)
Record events_wf (len : nat) (n : Z) (ivs : list (nat * lsRange))
    (evs : list ScanLineEvent) : Prop := {
  wf_symbol : forall e, e ∈ evs -> (symbol e < len)%nat;
  wf_id : forall e, e ∈ evs ->
      0 <= ev_id e < n \/ 0 <= Z.lnot (ev_id e) < n;
  wf_close_pos : forall e c, e ∈ evs -> c ∈ evs -> 0 <= ev_id e ->
      ev_id c = Z.lnot (ev_id e) -> pos c = end_pos e;
  wf_close_ex : forall e, e ∈ evs -> 0 <= ev_id e ->
      exists c, c ∈ evs /\ ev_id c = Z.lnot (ev_id e);
  wf_open_iv : forall e, e ∈ evs -> 0 <= ev_id e ->
      (symbol e, mklsRange (pos e) (end_pos e)) ∈ ivs;
  wf_iv_open : forall a, a ∈ ivs ->
      exists e, e ∈ evs /\ 0 <= ev_id e /\ symbol e = a.1 /\
                pos e = start a.2 /\ end_pos e = end_ a.2
}.

(** The state of the loop before the event of index [i] is consumed: the
    cells from [i - 1] on still hold the sorted events, [deleted] records
    the deletion events consumed, the first [top] cells are the stack, and
    the table holds the ranges of [spec_log]. *)
Record scan_inv (tbl0 : SymbolTable) (n : Z) (evs : list ScanLineEvent)
    (i : nat) (s : ScanState) : Prop := {
  inv_len : length (events s) = length evs;
  inv_tail : forall j, (pred i <= j)%nat -> events s !! j = evs !! j;
  inv_del_len : length (deleted s) = Z.to_nat n;
  inv_del : forall e, e ∈ evs -> 0 <= ev_id e ->
      vec_at (deleted s) (ev_id e) = Some (closedb (take i evs) e);
  inv_top : (top s <= i)%nat;
  inv_stack :
    stack_rel (closedb (take i evs))
              (reverse (take (top s) (events s)))
              (reverse (filter is_openb (take i evs)));
  inv_symbols : symbols s = apply_log tbl0 (spec_log evs i)
}.

(** The ranges that a list of attributions gives to the symbol [k]. *)
Definition log_ranges (k : nat) (log : list (nat * lsRange)) : list lsRange :=
  (filter (fun a => a.1 = k) log).*2.

Definition with_lsRanges (rs : list lsRange) (s : CclsSemanticHighlightSymbol) :=
  mkSymbol (id s) (parentKind s) (kind s) (storage s) (ranges s)
           (lsRanges s ++ rs).

(** The scenario of the design document: [A] (a type) spans columns 0 to
    10, [B] (a variable) 0 to 4 and [C] (a function) 6 to 8, all on line 0.
    The kinds are those of the protocol for a class, a variable and a
    function. *)
Definition col_range (a b : Z) : lsRange :=
  mklsRange (mkPosition 0 a) (mkPosition 0 b).
Definition symbolA := mkSymbol 0 0 5 0 [] [col_range 0 10].
Definition symbolB := mkSymbol 1 0 13 0 [] [col_range 0 4].
Definition symbolC := mkSymbol 2 0 12 0 [] [col_range 6 8].

(** Two symbols of the same kind with one range each, at the same place;
    the map yields the symbol with the larger id first, so that its range
    gets the smaller interval id. *)
Definition twin_first := mkSymbol 7 0 13 0 [] [col_range 2 5].
Definition twin_second := mkSymbol 3 0 13 0 [] [col_range 2 5].
Definition twins : SymbolTable := [twin_first; twin_second].

(** ** The dispatcher and the reply channel (message_handler.cc, 100-271) *)

(** Modelled from the spec: the error codes, the request id, the kinds of
    message shown to the user and the outbound channel are declared in
    lsp.hh and pipeline.hh.  A request id is valid when the message carries
    one; [pipeline::reply], [pipeline::replyError] and [pipeline::notify]
    hand one message each to the transport, here the list [sent]. *)
Inductive ErrorCode := InvalidRequest | InvalidParams | MethodNotFound | InternalError.

Record RequestId := mkRequestId { RequestId_valid : bool; RequestId_value : string }.

Inductive MessageType := MessageType_Error | MessageType_Warning
                       | MessageType_Info | MessageType_Log.

Record ShowMessageParam := mkShowMessage {
  show_type : MessageType;
  show_message : string
}.

(** What a C++ call can raise: [std::invalid_argument] (raised by the
    reflection layer when a parameter does not decode; [what()] names the
    expected type), [NotIndexed] with the path of the file, and anything
    else. *)
Inductive Exn :=
| invalid_argument (what : string)
| NotIndexed (path : string)
| other_exception (what : string).

(** The literal method name of the show-message notification. *)
Definition window_showMessage : string := "window/showMessage".

(** [s] contains [t]. *)
Definition contains (s t : string) : Prop :=
  exists pre post, s = pre +:+ t +:+ post.

Section dispatcher.
(** [Json] is a decoded JSON value, [Res] the payload of a successful
    reply, [State] whatever the handlers read and write besides the
    outbound channel. *)
Context {Json Res State : Type}.

Inductive OutMessage :=
| Reply (id : RequestId) (result : Res)
| ReplyError (id : RequestId) (code : ErrorCode) (message : string)
| Notify (method : string) (param : ShowMessageParam).

Record World := mkWorld { sent : list OutMessage; state : State }.

(** [JsonReader]: the value being decoded and the path reached in it. *)
Record JsonReader := mkReader { reader_value : option Json; getPath : string }.

Record InMessage := mkInMessage {
  msg_id : RequestId;
  method : string;
  params : option Json      (* the member "params" of the document *)
}.

Record ReplyOnce := mkReplyOnce { reply_id : RequestId }.

Definition pipeline_send (m : OutMessage) (w : World) : World :=
  mkWorld (sent w ++ [m]) (state w).

(** Modelled from the spec: [ReplyOnce] is declared in
    message_handler.hh; [error(code, message)] produces the structured
    error reply to the request of the channel. *)
Definition ReplyOnce_error (r : ReplyOnce) (code : ErrorCode)
    (message : string) (w : World) : World :=
  pipeline_send (ReplyError (reply_id r) code message) w.

(** [ReplyOnce::notOpened]. *)
Definition notOpened (r : ReplyOnce) (path : string) (w : World) : World :=
  ReplyOnce_error r InvalidRequest (path +:+ " is not opened") w.

(** A bound handler: it may decode from the reader, change the world and
    either return or raise. *)
#[local] Abbreviation RequestHandler :=
  (JsonReader -> ReplyOnce -> World -> World * JsonReader * option Exn).
#[local] Abbreviation NotificationHandler :=
  (JsonReader -> World -> World * JsonReader * option Exn).

(** [MessageHandler::run].  The result is the world left behind and the
    exception that leaves [run], if any. *)
Definition run (method2request : gmap string RequestHandler)
    (method2notification : gmap string NotificationHandler)
    (msg : InMessage) (w : World) : World * option Exn :=
  let reader := mkReader (params msg) "" in
  if RequestId_valid (msg_id msg) then
    let reply := mkReplyOnce (msg_id msg) in
    match method2request !! method msg with
    | Some handler =>
        match handler reader reply w with
        | (w1, _, None) => (w1, None)
        | (w1, reader1, Some (invalid_argument what)) =>
            (ReplyOnce_error reply InvalidParams
               ("invalid params of " +:+ method msg +:+ ": expected " +:+
                what +:+ " for " +:+ getPath reader1) w1, None)
        | (w1, _, Some (NotIndexed path)) => (w1, Some (NotIndexed path))
        | (w1, _, Some (other_exception _)) =>
            (ReplyOnce_error reply InternalError
               ("failed to process " +:+ method msg) w1, None)
        end
    | None =>
        (ReplyOnce_error reply MethodNotFound
           ("unknown request " +:+ method msg) w, None)
    end
  else
    match method2notification !! method msg with
    | Some handler =>
        match handler reader w with
        | (w1, _, None) => (w1, None)
        | (w1, _, Some _) =>
            (pipeline_send
               (Notify window_showMessage
                  (mkShowMessage MessageType_Error
                     ("failed to process " +:+ method msg))) w1, None)
        end
    | None => (w, None)
    end.

(** The replies to the request [id] among the messages sent. *)
Definition is_reply_to (id : RequestId) (m : OutMessage) : bool :=
  match m with
  | Reply id' _ | ReplyError id' _ _ =>
      bool_decide (RequestId_value id' = RequestId_value id)
  | Notify _ _ => false
  end.

Definition replies_to (id : RequestId) (l : list OutMessage) : nat :=
  length (List.filter (is_reply_to id) l).

(** *** findFile and findOrFail

    The index and the table of opened files are read only.  [QueryFile]
    and [WorkingFile] stay abstract; [has_def] is [file.def] being set;
    a file id found in [name2file_id] indexes [files]. *)
Context {QueryFile WorkingFile : Type}.
Context (has_def : QueryFile -> bool).
Context (lowerPathIfInsensitive : string -> string).

Record DB := mkDB { name2file_id : gmap string Z; files : Z -> QueryFile }.

Inductive Outcome (A : Type) :=
| Returned (a : A)
| Thrown (e : Exn).

(** [MessageHandler::findFile]; the second component is [*out_file_id]. *)
Definition findFile (db : DB) (path : string) : option QueryFile * Z :=
  match name2file_id db !! lowerPathIfInsensitive path with
  | Some file_id =>
      let file := files db file_id in
      if has_def file then (Some file, file_id) else (None, -1)
  | None => (None, -1)
  end.

(** [MessageHandler::findOrFail]; [None] in the result is the pair of
    null pointers. *)
Definition findOrFail (db : DB) (wfiles : gmap string WorkingFile)
    (overdue : bool) (path : string) (reply : ReplyOnce) (w : World)
    : World * Outcome (option (QueryFile * WorkingFile)) :=
  match wfiles !! path with
  | None => (notOpened reply path w, Returned _ None)
  | Some wf =>
      match (findFile db path).1 with
      | None =>
          if negb overdue then (w, Thrown _ (NotIndexed path))
          else (ReplyOnce_error reply InvalidRequest "not indexed" w,
                Returned _ None)
      | Some file => (w, Returned _ (Some (file, wf)))
      end
  end.
End dispatcher.

Abbreviation RequestHandler Json Res State :=
  (@JsonReader Json -> ReplyOnce -> @World Res State ->
   @World Res State * @JsonReader Json * option Exn).
Abbreviation NotificationHandler Json Res State :=
  (@JsonReader Json -> @World Res State ->
   @World Res State * @JsonReader Json * option Exn).

(** ** ReplyOnce::replyLocationLink (message_handler.cc, 104-117) *)

(** Modelled from the spec: the configuration is declared in config.hh;
    [xref.maxNum] is the maximum number of results of a cross reference
    reply, [client.linkSupport] the capability that the client declared. *)
Record XrefConfig := mkXrefConfig { maxNum : nat; linkSupport : bool }.

Section replyLocationLink.
(** [LocationLink] and [Location] are declared in lsp.hh.  The code uses
    the [operator<] and [operator==] of links and the conversion of a
    link to a location. *)
Context {LocationLink Location State : Type}.
Context (link_lt link_eqb : LocationLink -> LocationLink -> bool).
Context (to_Location : LocationLink -> Location).

(** What is replied: the links themselves or plain locations. *)
Inductive LinkReply :=
| RichLinks (l : list LocationLink)
| PlainLocations (l : list Location).

(** [std::unique] followed by [erase]: of every run of consecutive
    elements that are [==], only the first is kept. *)
Fixpoint unique_after (last : LocationLink) (l : list LocationLink)
    : list LocationLink :=
  match l with
  | [] => []
  | b :: l' =>
      if link_eqb last b then unique_after last l'
      else b :: unique_after b l'
  end.

Definition std_unique (l : list LocationLink) : list LocationLink :=
  match l with
  | [] => []
  | a :: l' => a :: unique_after a l'
  end.

(** [if (result.size() > maxNum) result.resize(maxNum)]. *)
Definition truncate (cfg : XrefConfig) (l : list LocationLink) :=
  if decide (maxNum cfg < length l)%nat then take (maxNum cfg) l else l.

(** Lines 106-116 on the sorted candidates. *)
Definition link_reply (cfg : XrefConfig) (sorted : list LocationLink)
    : LinkReply :=
  let result := truncate cfg (std_unique sorted) in
  if linkSupport cfg then RichLinks result
  else PlainLocations (to_Location <$> result).

(** Modelled from the spec: [ReplyOnce::operator()] is declared in
    message_handler.hh; it produces the successful reply to the request
    of the channel. *)
Definition ReplyOnce_reply {Res} (r : ReplyOnce) (result : Res)
    (w : @World Res State) : @World Res State :=
  pipeline_send (Reply (reply_id r) result) w.

Definition replyLocationLink (cfg : XrefConfig) (r : ReplyOnce)
    (result : list LocationLink) (w : @World LinkReply State)
    : @World LinkReply State :=
  ReplyOnce_reply r (link_reply cfg (std_sort link_lt result)) w.

(** The candidates [a] and [b] are duplicates of each other for [<]. *)
Definition link_equiv (a b : LocationLink) : Prop :=
  link_lt a b = false /\ link_lt b a = false.
End replyLocationLink.

(** Modelled from the spec: a link carries the target document, the range
    of the target, the span selected in the target and the span selected
    at the origin; a location carries the document and a range.  Links are
    ordered by document, then by the three spans; two links are [==] when
    neither is before the other; the downgrade keeps the document and the
    selected span. *)
Record SampleLink := mkLink {
  targetUri : string;
  targetRange : lsRange;
  targetSelectionRange : lsRange;
  originSelectionRange : lsRange
}.

Record SampleLocation := mkLocation { uri : string; range : lsRange }.

Definition lsRange_key (r : lsRange) : list Z :=
  [line (start r); character (start r); line (end_ r); character (end_ r)].

Fixpoint lex_ltb (k1 k2 : list Z) : bool :=
  match k1, k2 with
  | x :: k1', y :: k2' => (x <? y) || ((x =? y) && lex_ltb k1' k2')
  | _, _ => false
  end.

Definition SampleLink_key (a : SampleLink) : list Z :=
  lsRange_key (targetSelectionRange a) ++ lsRange_key (targetRange a) ++
  lsRange_key (originSelectionRange a).

Definition SampleLink_lt (a b : SampleLink) : bool :=
  if negb (String.eqb (targetUri a) (targetUri b))
  then negb (String.leb (targetUri b) (targetUri a))
  else lex_ltb (SampleLink_key a) (SampleLink_key b).

Definition SampleLink_eqb (a b : SampleLink) : bool :=
  negb (SampleLink_lt a b) && negb (SampleLink_lt b a).

Definition SampleLink_to_Location (a : SampleLink) : SampleLocation :=
  mkLocation (targetUri a) (targetSelectionRange a).

(** Five candidates, the third a copy of the first. *)
Definition sample_link (doc : string) (l : Z) : SampleLink :=
  mkLink doc (col_range 0 80) (mklsRange (mkPosition l 4) (mkPosition l 9))
         (col_range 1 3).
Definition five_candidates : list SampleLink :=
  [sample_link "b.cc" 7; sample_link "a.cc" 30; sample_link "b.cc" 7;
   sample_link "a.cc" 2; sample_link "c.cc" 1].

(** ** emitSemanticHighlight: selection and grouping (lines 282-381) *)

(** Modelled from the spec: the kinds of indexed symbols, the occurrences
    of a file and the definitions of a symbol are declared in indexer.hh
    and query.hh.  An occurrence carries the key of its symbol and its
    range; a definition carries its kinds, its storage class, its name and
    whether it has a spelling location.  Of the index, the function reads
    the three tables from symbol to slot and from slot to entry. *)
Inductive Kind := Kind_Invalid | Kind_File | Kind_Type | Kind_Func | Kind_Var.

#[global] Instance Kind_eq_dec : EqDecision Kind.
Proof. solve_decision. Defined.

Record SymbolIdx := mkSymbolIdx { usr : Z; idx_kind : Kind }.

#[global] Instance SymbolIdx_eq_dec : EqDecision SymbolIdx.
Proof. solve_decision. Defined.

Record SymbolRef := mkSymbolRef {
  sym_range : Range;
  sym_usr : Z;
  sym_kind : Kind
}.

Definition SymbolRef_idx (sym : SymbolRef) : SymbolIdx :=
  mkSymbolIdx (sym_usr sym) (sym_kind sym).

Record FuncDef := mkFuncDef {
  func_name : string;          (* [def->name(false)], the short name *)
  func_kind : SymbolKind;
  func_storage : Z;
  func_parent_kind : SymbolKind
}.

Record TypeDef := mkTypeDef {
  type_kind : SymbolKind;
  type_detailed_name : string;
  type_spell : bool;
  type_parent_kind : SymbolKind
}.

Record VarDef := mkVarDef {
  var_kind : SymbolKind;
  var_storage : Z;
  var_detailed_name : string;
  var_spell : bool;
  var_parent_kind : SymbolKind
}.

Record SymbolIndex := mkSymbolIndex {
  func_usr : Z -> Z;
  funcs_anyDef : Z -> option FuncDef;   (* [db->funcs[idx].anyDef()] *)
  type_usr : Z -> Z;
  types_def : Z -> list TypeDef;        (* [db->types[idx].def] *)
  var_usr : Z -> Z;
  vars_def : Z -> list VarDef           (* [db->vars[idx].def] *)
}.

(** Modelled from the spec: the working file is declared in
    working_files.hh; the function reads its name, the raw text of the
    buffer and the table of lines that positions of the index refer to. *)
Record WorkingFile := mkWorkingFile {
  filename : string;
  buffer_content : list byte;
  index_lines : list string
}.

Definition SC_None : Z := 0.

(** [std::string_view::substr(pos, n)]: raises [std::out_of_range] when
    [pos] is beyond the end, and stops at the end otherwise. *)
Definition out_of_range : Exn := other_exception "out_of_range".

Definition sv_substr (s : string) (pos n : Z) : Outcome string :=
  if Z.of_nat (String.length s) <? pos then Thrown _ out_of_range
  else Returned _ (substring (Z.to_nat pos) (Z.to_nat n) s).

(** [s.compare(pos, n, t) == 0]. *)
Definition sv_compare_eq (s : string) (pos n : Z) (t : string) : Outcome bool :=
  match sv_substr s pos n with
  | Thrown _ e => Thrown _ e
  | Returned _ u => Returned _ (String.eqb u t)
  end.

(** [name.substr(0, name.find('<'))]. *)
Definition concise_name (detailed_name : string) : string :=
  match index 0 "<" detailed_name with
  | Some k => substring 0 k detailed_name
  | None => detailed_name
  end.

(** What the [switch] decides for one occurrence: skip it ([continue]), or
    keep it with the adjusted occurrence and the attributes of the symbol. *)
Inductive Classified :=
| Skip
| Keep (sym : SymbolRef) (idx : Z) (parent_kind kind : SymbolKind) (storage : Z).

Definition set_range_end (sym : SymbolRef) (e : Pos) : SymbolRef :=
  mkSymbolRef (mkRange (Range_start (sym_range sym)) e) (sym_usr sym)
              (sym_kind sym).

(** [case Kind::Func], lines 302-335. *)
Definition classify_func (db : SymbolIndex) (wfile : WorkingFile)
    (sym : SymbolRef) : Outcome Classified :=
  let idx := func_usr db (sym_usr sym) in
  match funcs_anyDef db idx with
  | None => Returned _ Skip
  | Some def =>
      let short_name := func_name def in
      match sv_compare_eq short_name 0 8 "operator" with
      | Thrown _ e => Thrown _ e
      | Returned _ true => Returned _ Skip
      | Returned _ false =>
          let concise := concise_name short_name in
          let size := Z.of_nat (String.length concise) in
          let start_line := Pos_line (Range_start (sym_range sym)) in
          let start_col := Pos_column (Range_start (sym_range sym)) in
          if Z.of_nat (length (index_lines wfile)) <=? start_line
          then Returned _ Skip
          else
            match index_lines wfile !! Z.to_nat start_line with
            | None => Thrown _ out_of_range
            | Some line =>
                if to_size_t (start_col + size) <=? Z.of_nat (String.length line)
                then
                  match sv_compare_eq line (to_size_t start_col) size concise with
                  | Thrown _ e => Thrown _ e
                  | Returned _ false => Returned _ Skip
                  | Returned _ true =>
                      Returned _
                        (Keep (set_range_end sym
                                 (mkPos start_line
                                        (to_int16 (to_size_t (start_col + size)))))
                              idx (func_parent_kind def) (func_kind def)
                              (func_storage def))
                  end
                else Returned _ Skip
            end
      end
  end.

(** The loops over the definitions of a type and of a variable: the kind
    (and the storage) of each definition visited overwrite the previous
    ones, and the first definition with a spelling gives the parent kind
    and ends the loop. *)
Fixpoint scan_type_defs (defs : list TypeDef) (acc : SymbolKind * SymbolKind)
    : SymbolKind * SymbolKind :=
  match defs with
  | [] => acc
  | def :: defs' =>
      if type_spell def then (type_parent_kind def, type_kind def)
      else scan_type_defs defs' (acc.1, type_kind def)
  end.

Fixpoint scan_var_defs (defs : list VarDef) (acc : SymbolKind * SymbolKind * Z)
    : SymbolKind * SymbolKind * Z :=
  match defs with
  | [] => acc
  | def :: defs' =>
      if var_spell def
      then (var_parent_kind def, var_kind def, var_storage def)
      else scan_var_defs defs' (acc.1.1, var_kind def, var_storage def)
  end.

Definition classify (db : SymbolIndex) (wfile : WorkingFile) (sym : SymbolRef)
    : Outcome Classified :=
  match sym_kind sym with
  | Kind_Func => classify_func db wfile sym
  | Kind_Type =>
      let idx := type_usr db (sym_usr sym) in
      let r := scan_type_defs (types_def db idx) (Unknown, Unknown) in
      Returned _ (Keep sym idx r.1 r.2 SC_None)
  | Kind_Var =>
      let idx := var_usr db (sym_usr sym) in
      let r := scan_var_defs (vars_def db idx) (Unknown, Unknown, SC_None) in
      Returned _ (Keep sym idx r.1.1 r.1.2 r.2)
  | _ => Returned _ Skip
  end.

(** [grouped_symbols]: the entries in the order of their insertion. *)
Abbreviation Grouped := (list (SymbolIdx * CclsSemanticHighlightSymbol)).

(** Lines 367-380: the range joins the entry of its symbol, or starts one. *)
Fixpoint add_grouped (grouped : Grouped) (key : SymbolIdx) (loc : lsRange)
    (fresh : CclsSemanticHighlightSymbol) : Grouped :=
  match grouped with
  | [] => [(key, fresh)]
  | (k, s) :: rest =>
      if decide (k = key) then (k, add_lsRange loc s) :: rest
      else (k, s) :: add_grouped rest key loc fresh
  end.

Section grouping.
(** [getLsRange] maps a range of the index into the buffer, or fails. *)
Context (getLsRange : WorkingFile -> Range -> option lsRange).
Context (db : SymbolIndex) (wfile : WorkingFile).

(** One iteration of the loop of line 292. *)
Definition group_occurrence (grouped : Grouped) (occ : SymbolRef * Z)
    : Outcome Grouped :=
  if occ.2 <=? 0 then Returned _ grouped
  else
    match classify db wfile occ.1 with
    | Thrown _ e => Thrown _ e
    | Returned _ Skip => Returned _ grouped
    | Returned _ (Keep sym idx parent_kind kind storage) =>
        match getLsRange wfile (sym_range sym) with
        | None => Returned _ grouped
        | Some loc =>
            Returned _
              (add_grouped grouped (SymbolRef_idx sym) loc
                 (mkSymbol idx parent_kind kind storage [] [loc]))
        end
    end.

Fixpoint group_symbols (grouped : Grouped) (occs : list (SymbolRef * Z))
    : Outcome Grouped :=
  match occs with
  | [] => Returned _ grouped
  | occ :: occs' =>
      match group_occurrence grouped occ with
      | Thrown _ e => Thrown _ e
      | Returned _ grouped' => group_symbols grouped' occs'
      end
  end.
End grouping.

(** ** emitSemanticHighlight: offsets (lines 422-470) *)

Definition byte_val (b : byte) : Z := Z.of_N (Byte.to_N b).
Definition is_newline (b : byte) : bool := byte_val b =? 10.
(** [uint8_t(b) < 128 || 192 <= uint8_t(b)]: the byte starts a code point. *)
Definition starts_code_point (b : byte) : bool :=
  (byte_val b <? 128) || (192 <=? byte_val b).
(** [0b10xxxxxx]: the byte continues a code point. *)
Definition is_continuation (b : byte) : bool :=
  (128 <=? byte_val b) && (byte_val b <? 192).

(** The variables [l], [c], [i], [p] captured by [mov]: line, column, byte
    cursor and running count. *)
Record Cursor := mkCursor { cur_l : Z; cur_c : Z; cur_i : Z; cur_p : Z }.

(** [for (; l < line && i < buf.size(); i++)] on the bytes from [i] on. *)
Fixpoint skip_lines (line : Z) (rest : list byte) (s : Cursor)
    : Cursor * list byte :=
  match rest with
  | [] => (s, [])
  | b :: rest' =>
      if cur_l s <? line then
        skip_lines line rest'
          (mkCursor (if is_newline b then cur_l s + 1 else cur_l s) (cur_c s)
                    (cur_i s + 1)
                    (if starts_code_point b then cur_p s + 1 else cur_p s))
      else (s, rest)
  end.

(** [while (i < buf.size() && uint8_t(buf[i]) >= 128 && uint8_t(buf[i]) < 192) i++;] *)
Fixpoint skip_continuation (rest : list byte) (i : Z) : Z * list byte :=
  match rest with
  | [] => (i, [])
  | b :: rest' =>
      if is_continuation b then skip_continuation rest' (i + 1) else (i, rest)
  end.

(** [for (; c < col && i < buf.size() && buf[i] != '\n'; c++)]; every
    iteration consumes a byte, so that [fuel] as large as the number of
    bytes left is never exhausted. *)
Fixpoint skip_columns (fuel : nat) (col : Z) (rest : list byte) (s : Cursor)
    : Cursor * list byte :=
  match fuel with
  | O => (s, rest)
  | S fuel' =>
      match rest with
      | [] => (s, [])
      | b :: rest' =>
          if (cur_c s <? col) && negb (is_newline b) then
            let '(i', rest'') :=
              if 128 <=? byte_val b then skip_continuation rest' (cur_i s + 1)
              else (cur_i s + 1, rest') in
            skip_columns fuel' col rest''
              (mkCursor (cur_l s) (cur_c s + 1) i' (cur_p s + 1))
          else (s, rest)
      end
  end.

(** The lambda [mov]; the result [true] says that the position was not
    reached. *)
Definition mov (buf : list byte) (line col : Z) (s : Cursor) : Cursor * bool :=
  let s0 := if cur_l s <? line
            then mkCursor (cur_l s) 0 (cur_i s) (cur_p s) else s in
  let '(s1, rest1) := skip_lines line (drop (Z.to_nat (cur_i s0)) buf) s0 in
  if cur_l s1 <? line then (s1, true)
  else
    let '(s2, _) := skip_columns (length rest1) col rest1 s1 in
    (s2, cur_c s2 <? col).

(** [symbol->ranges.emplace_back(beg, p)]. *)
Definition add_range (r : Z * Z) (s : CclsSemanticHighlightSymbol) :=
  mkSymbol (id s) (parentKind s) (kind s) (storage s) (ranges s ++ [r])
           (lsRanges s).

(** Lines 455-463 for one entry of [scratch]. *)
Definition project_entry (buf : list byte)
    (acc : Cursor * SymbolTable) (entry : lsRange * nat)
    : Cursor * SymbolTable :=
  let '(s, tbl) := acc in
  let '(s1, failed1) := mov buf (line (start entry.1)) (character (start entry.1)) s in
  if failed1 then (s1, tbl)
  else
    let beg := cur_p s1 in
    let '(s2, failed2) := mov buf (line (end_ entry.1)) (character (end_ entry.1)) s1 in
    if failed2 then (s2, tbl)
    else (s2, alter (add_range (beg, cur_p s2)) entry.2 tbl).

(** Lines 426-431: all resolved ranges with their symbol. *)
Definition scratch_of (tbl : SymbolTable) : list (lsRange * nat) :=
  concat (imap (fun k s => (fun r => (r, k)) <$> lsRanges s) tbl).

(** The order of line 433. *)
Definition scratch_lt (l r : lsRange * nat) : bool :=
  Position_ltb (start l.1) (start r.1).

(** Lines 455-463 on the sorted [scratch]. *)
Definition project_sorted (buf : list byte) (tbl : SymbolTable)
    (scratch : list (lsRange * nat)) : SymbolTable :=
  (foldl (project_entry buf) (mkCursor 0 0 0 0, clear_lsRanges <$> tbl)
         scratch).2.

(** Lines 425-464. *)
Definition project_offsets (buf : list byte) (tbl : SymbolTable) : SymbolTable :=
  project_sorted buf tbl (std_sort scratch_lt (scratch_of tbl)).

(** The notification. *)
Record CclsSemanticHighlight := mkHighlight {
  hl_uri : string;
  hl_symbols : list CclsSemanticHighlightSymbol
}.

(** Modelled from the spec: the configuration is declared in config.hh;
    [highlight.largeFileSize] is the cutoff on the size of the buffer and
    [highlight.lsRanges] selects ranges by line and column. *)
Record HighlightConfig := mkHighlightConfig {
  largeFileSize : Z;
  highlight_lsRanges : bool
}.

Definition has_ranges (s : CclsSemanticHighlightSymbol) : bool :=
  negb (bool_decide (ranges s = [])) || negb (bool_decide (lsRanges s = [])).

Section emit.
Context (getLsRange : WorkingFile -> Range -> option lsRange).
Context (matches : string -> bool).         (* the allow/deny matcher *)
Context (fromPath : string -> string).      (* [DocumentUri::fromPath] *)
Context (cfg : HighlightConfig).

(** [emitSemanticHighlight]: the notification published, if any.
    [path] is [file.def->path], [occs] is [file.symbol2refcnt]. *)
Definition emitSemanticHighlight (db : SymbolIndex) (wfile : WorkingFile)
    (path : string) (occs : list (SymbolRef * Z))
    : Outcome (option CclsSemanticHighlight) :=
  if (largeFileSize cfg <? Z.of_nat (length (buffer_content wfile)))
     || negb (matches path)
  then Returned _ None
  else
    match group_symbols getLsRange db wfile [] occs with
    | Thrown _ e => Thrown _ e
    | Returned _ grouped =>
        match resolve_overlaps grouped.*2 with
        | None => Thrown _ out_of_range
        | Some resolved =>
            let symbols :=
              if highlight_lsRanges cfg then resolved
              else project_offsets (buffer_content wfile) resolved in
            Returned _
              (Some (mkHighlight (fromPath (filename wfile))
                                 (List.filter has_ranges symbols)))
        end
    end.
End emit.

(** A position as the index stores it: the line fits [uint16_t], the
    column [int16_t]. *)
Definition Pos_wf (p : Pos) : Prop :=
  0 <= Pos_line p <= 65535 /\ -32768 <= Pos_column p <= 32767.

(** A string that a C++ program can hold. *)
Definition fits_size_t (s : string) : Prop :=
  Z.of_nat (String.length s) < 2 ^ 63.

(** The text of line [ln] of the table of lines, from column [col] on,
    starts with [name]. *)
Definition text_at (lines : list string) (ln col : Z) (name : string) : Prop :=
  exists text pre post,
    0 <= ln /\ lines !! Z.to_nat ln = Some text /\
    text = pre +:+ name +:+ post /\ Z.of_nat (String.length pre) = col.

(** A line of 32765 blanks followed by a call of [foo], and the occurrence
    of [foo] in it. *)
Fixpoint blanks (n : nat) : string :=
  match n with O => "" | S n' => String " " (blanks n') end.
Definition long_line : string := blanks (Z.to_nat 32765) +:+ "foo();".
Definition long_file : WorkingFile := mkWorkingFile "long.cc" [] [long_line].
Definition foo_def : FuncDef := mkFuncDef "foo" 12 0 3.
Definition foo_index : SymbolIndex :=
  mkSymbolIndex (fun _ => 0) (fun _ => Some foo_def)
                (fun _ => 0) (fun _ => []) (fun _ => 0) (fun _ => []).
Definition foo_occurrence : SymbolRef :=
  mkSymbolRef (mkRange (mkPos 0 32765) (mkPos 0 32767)) 1 Kind_Func.

(** The attributes of a highlight symbol apart from its ranges. *)
Definition symbol_attrs (s : CclsSemanticHighlightSymbol)
    : Z * SymbolKind * SymbolKind * Z :=
  (id s, parentKind s, kind s, storage s).

(** The range [loc] of the symbol [key] comes from an occurrence of [occs]
    with a positive reference count that the [switch] keeps. *)
Definition from_occurrence (getLsRange : WorkingFile -> Range -> option lsRange)
    (db : SymbolIndex) (wfile : WorkingFile) (occs : list (SymbolRef * Z))
    (key : SymbolIdx) (loc : lsRange) : Prop :=
  exists sym refcnt sym' idx pk k st,
    (sym, refcnt) ∈ occs /\ 0 < refcnt /\ SymbolRef_idx sym = key /\
    classify db wfile sym = Returned _ (Keep sym' idx pk k st) /\
    getLsRange wfile (sym_range sym') = Some loc.

(** The function behind the symbol [key] has a definition whose short name
    does not begin with "operator". *)
Definition not_an_operator (db : SymbolIndex) (key : SymbolIdx) : Prop :=
  idx_kind key = Kind_Func ->
  exists def, funcs_anyDef db (func_usr db (usr key)) = Some def /\
              String.prefix "operator" (func_name def) = false.

(** The scenario of the design document: a file whose only occurrence is
    that of a function named [operator==] with three references, where the
    text reads "operator==". *)
Definition eq_def : FuncDef := mkFuncDef "operator==" 12 0 5.
Definition eq_index : SymbolIndex :=
  mkSymbolIndex (fun _ => 0) (fun _ => Some eq_def)
                (fun _ => 0) (fun _ => []) (fun _ => 0) (fun _ => []).
Definition eq_file : WorkingFile :=
  mkWorkingFile "eq.cc" [] ["bool operator==(const T &o) const;"].
Definition eq_occurrence : SymbolRef * Z :=
  (mkSymbolRef (mkRange (mkPos 0 5) (mkPos 0 15)) 9 Kind_Func, 3).

(** A buffer in step with the index: ranges map to themselves. *)
Definition same_range (_ : WorkingFile) (r : Range) : option lsRange :=
  Some (mklsRange
          (mkPosition (Pos_line (Range_start r)) (Pos_column (Range_start r)))
          (mkPosition (Pos_line (Range_end r)) (Pos_column (Range_end r)))).

Definition default_highlight : HighlightConfig :=
  mkHighlightConfig (2 * 1024 * 1024) true.

(** *** What the scan counts *)

(** Newlines and code points (bytes that start one) in a prefix of the
    buffer, and code points since the last newline of the prefix. *)
Definition nl_count (pre : list byte) : Z :=
  foldl (fun n b => if is_newline b then n + 1 else n) 0 pre.
Definition cp_count (pre : list byte) : Z :=
  foldl (fun n b => if starts_code_point b then n + 1 else n) 0 pre.
Definition col_count (pre : list byte) : Z :=
  foldl (fun n b => if is_newline b then 0
                    else if starts_code_point b then n + 1 else n) 0 pre.

(** No byte that continues a code point stands where the bytes [rest]
    begin. *)
Definition boundary (rest : list byte) : Prop :=
  match rest with
  | [] => True
  | b :: _ => is_continuation b = false
  end.

(** The byte offset [i] of the buffer is where a code point begins (or the
    buffer ends), at line [pos.line] and column [pos.character], columns
    counted in code points. *)
Definition offset_at (buf : list byte) (i : Z) (pos : Position) : Prop :=
  0 <= i <= Z.of_nat (length buf) /\
  boundary (drop (Z.to_nat i) buf) /\
  nl_count (take (Z.to_nat i) buf) = line pos /\
  col_count (take (Z.to_nat i) buf) = character pos.

(** Every byte that continues a code point follows a byte of a multi-byte
    code point, as in well-formed UTF-8; [high] says whether the byte
    before the list is one. *)
Fixpoint no_stray (high : bool) (l : list byte) : Prop :=
  match l with
  | [] => True
  | b :: l' =>
      (is_continuation b = true -> high = true) /\
      no_stray (128 <=? byte_val b) l'
  end.

(** The cursor stands after the prefix [pre] of the buffer. *)
Definition tracks (pre : list byte) (s : Cursor) : Prop :=
  cur_i s = Z.of_nat (length pre) /\ cur_l s = nl_count pre /\
  cur_p s = cp_count pre.

(** Modelled on the words of the design document: the byte offset of a
    position is the byte cursor of the scan, in which a code point advances
    the column by one and the byte cursor by its encoded width. *)
Definition spec_byte_offset (buf : list byte) (pos : Position) : option Z :=
  let '(s, failed) := mov buf (line pos) (character pos) (mkCursor 0 0 0 0) in
  if failed then None else Some (cur_i s).

(** The buffer "é x": the two bytes of U+00E9, a blank and an x; and the
    symbol whose one resolved range is the x. *)
Definition accent_buffer : list byte := [xc3; xa9; x20; x78].
Definition accent_symbol : CclsSemanticHighlightSymbol :=
  mkSymbol 4 0 13 0 [] [col_range 2 3].

(** The ranges of [scratch] follow one another from [last] on: each starts
    where the one before ends, or later, and ends where it starts, or
    later; and no column is negative. *)
Fixpoint chained (last : Position) (scratch : list (lsRange * nat)) : Prop :=
  match scratch with
  | [] => True
  | e :: scratch' =>
      Position_le last (start e.1) /\ Position_le (start e.1) (end_ e.1) /\
      0 <= character (start e.1) /\ 0 <= character (end_ e.1) /\
      chained (end_ e.1) scratch'
  end.

(** What the conversion of a range may yield: the numbers of code points
    before the offsets of its start and of its end, or nothing when one of
    the two positions is nowhere in the buffer. *)
Definition converts (buf : list byte) (r : lsRange) (o : option (Z * Z)) : Prop :=
  match o with
  | Some (b, e) =>
      exists i1 i2,
        offset_at buf i1 (start r) /\ offset_at buf i2 (end_ r) /\
        i1 <= i2 /\
        b = cp_count (take (Z.to_nat i1) buf) /\
        e = cp_count (take (Z.to_nat i2) buf)
  | None =>
      (forall i, ~ offset_at buf i (start r)) \/
      (forall i, ~ offset_at buf i (end_ r))
  end.

(** The table once the pairs [results] of the entries are attached. *)
Definition attach (tbl : SymbolTable)
    (results : list ((lsRange * nat) * option (Z * Z))) : SymbolTable :=
  foldl (fun t x => match x.2 with
                    | Some offsets => alter (add_range offsets) x.1.2 t
                    | None => t
                    end) tbl results.

(** The state of the scan after the prefix [pre], [rest] being what is
    left, with [target] the position asked for last: the cursor has not
    passed it, and the column is that of the prefix unless the buffer ran
    out before the line of the target. *)
Definition scan_inv_at (buf : list byte) (target : Position) (s : Cursor)
    (pre rest : list byte) : Prop :=
  buf = pre ++ rest /\ tracks pre s /\ no_stray false rest /\
  Position_le (mkPosition (cur_l s) (cur_c s)) target /\
  (cur_c s = col_count pre \/ (rest = [] /\ cur_l s < line target)).

(** A short file with a call of [foo], and a request and a notification
    that nothing is registered for. *)
Definition short_file : WorkingFile := mkWorkingFile "f.cc" [] ["int foo();"].
Definition short_occurrence : SymbolRef :=
  mkSymbolRef (mkRange (mkPos 0 4) (mkPos 0 9)) 1 Kind_Func.
Definition sample_request : @InMessage unit :=
  mkInMessage (mkRequestId true "7") "textDocument/unknown" None.
Definition sample_notification : @InMessage unit :=
  mkInMessage (mkRequestId false "") "$ccls/unknown" None.
Definition empty_world : @World unit unit := mkWorld [] tt.


(** What holds of the ranges of the grouped symbols. *)
Definition grouped_ok (getLsRange : WorkingFile -> Range -> option lsRange)
    (db : SymbolIndex) (wfile : WorkingFile)
    (occs : list (SymbolRef * Z)) (grouped : Grouped) : Prop :=
  forall key s, (key, s) ∈ grouped ->
    lsRanges s <> [] /\ not_an_operator db key /\
    forall loc, loc ∈ lsRanges s ->
      from_occurrence getLsRange db wfile occs key loc.

(** A list of links that increases strictly for the order [lt]. *)
Abbreviation increasing lt := (StronglySorted (fun a b => lt a b = true)).

(** One of the two ranges lies to the left of the other. *)
Definition apart (a b : lsRange) : Prop := left_of a b \/ left_of b a.

(** No position of the range has a negative line or column. *)
Definition nonneg_range (r : lsRange) : Prop :=
  0 <= line (start r) /\ 0 <= character (start r) /\
  0 <= line (end_ r) /\ 0 <= character (end_ r).

(** What the scan line leaves in the table: ranges that are not empty, with
    no negative line or column, any two of which are apart. *)
Definition resolved (tbl : SymbolTable) : Prop :=
  Forall (fun r => Position_lt (start r) (end_ r) /\ nonneg_range r)
         (tbl ≫= lsRanges) /\
  ForallOrdPairs apart (tbl ≫= lsRanges).

(** ** Binding handlers to methods (message_handler.cc, 119-195) *)

Section bind.
Context {Json Res State : Type}.

(** The two tables of a [MessageHandler]. *)
Record MessageHandler := mkMessageHandler {
  handler_requests : gmap string (RequestHandler Json Res State);
  handler_notifications : gmap string (NotificationHandler Json Res State)
}.

(** [reflect(reader, param)] decodes the parameters of a message from the
    reader into [param]; it moves the reader and may raise.  [init] is
    [Param{}]. *)
Record Reflect (Param : Type) := mkReflect {
  init : Param;
  reflect : @JsonReader Json -> Param -> @JsonReader Json * Outcome Param
}.
Arguments init {Param}.
Arguments reflect {Param}.

(** The member functions that can be bound, by their signature. *)
Inductive Member :=
| NotificationOfReader
    (handler : @JsonReader Json -> @World Res State ->
               @World Res State * @JsonReader Json * option Exn)
| NotificationOfParam {Param : Type} (decode : Reflect Param)
    (handler : Param -> @World Res State -> @World Res State * option Exn)
| RequestOfReader
    (handler : @JsonReader Json -> ReplyOnce -> @World Res State ->
               @World Res State * @JsonReader Json * option Exn)
| RequestOfParam {Param : Type} (decode : Reflect Param)
    (handler : Param -> ReplyOnce -> @World Res State ->
               @World Res State * option Exn).

(** The closure of lines 128-132: decode, then call. *)
Definition notification_closure {Param} (decode : Reflect Param)
    (handler : Param -> @World Res State -> @World Res State * option Exn)
    : NotificationHandler Json Res State :=
  fun reader w =>
    match reflect decode reader (init decode) with
    | (reader1, Thrown _ e) => (w, reader1, Some e)
    | (reader1, Returned _ param) =>
        let '(w1, e) := handler param w in (w1, reader1, e)
    end.

(** The closure of lines 148-153. *)
Definition request_closure {Param} (decode : Reflect Param)
    (handler : Param -> ReplyOnce -> @World Res State ->
               @World Res State * option Exn)
    : RequestHandler Json Res State :=
  fun reader reply w =>
    match reflect decode reader (init decode) with
    | (reader1, Thrown _ e) => (w, reader1, Some e)
    | (reader1, Returned _ param) =>
        let '(w1, e) := handler param reply w in (w1, reader1, e)
    end.

(** The four overloads of [MessageHandler::bind]; the signature of the
    member selects the overload. *)
Definition bind (method : string) (m : Member) (h : MessageHandler)
    : MessageHandler :=
  match m with
  | NotificationOfReader handler =>
      mkMessageHandler (handler_requests h)
                       (<[method := handler]> (handler_notifications h))
  | NotificationOfParam decode handler =>
      mkMessageHandler (handler_requests h)
                       (<[method := notification_closure decode handler]>
                          (handler_notifications h))
  | RequestOfReader handler =>
      mkMessageHandler (<[method := handler]> (handler_requests h))
                       (handler_notifications h)
  | RequestOfParam decode handler =>
      mkMessageHandler (<[method := request_closure decode handler]>
                          (handler_requests h))
                       (handler_notifications h)
  end.

(** What [bind] stores for a member: the member itself, or the closure that
    decodes its parameter first. *)
Definition request_of (m : Member) : option (RequestHandler Json Res State) :=
  match m with
  | RequestOfReader handler => Some handler
  | RequestOfParam decode handler => Some (request_closure decode handler)
  | _ => None
  end.

Definition notification_of (m : Member)
    : option (NotificationHandler Json Res State) :=
  match m with
  | NotificationOfReader handler => Some handler
  | NotificationOfParam decode handler =>
      Some (notification_closure decode handler)
  | _ => None
  end.

(** [MessageHandler::run] on the tables of the handler. *)
Definition MessageHandler_run (h : MessageHandler) (msg : @InMessage Json)
    (w : @World Res State) : @World Res State * option Exn :=
  run (handler_requests h) (handler_notifications h) msg w.

(** The methods that the constructor binds, in its order (lines 157-195). *)
Definition bound_methods : list string :=
  ["$ccls/call"; "$ccls/fileInfo"; "$ccls/info"; "$ccls/inheritance";
   "$ccls/member"; "$ccls/navigate"; "$ccls/reload"; "$ccls/vars"; "exit";
   "initialize"; "initialized"; "shutdown"; "textDocument/codeAction";
   "textDocument/codeLens"; "textDocument/completion";
   "textDocument/declaration"; "textDocument/definition";
   "textDocument/didChange"; "textDocument/didClose";
   "textDocument/didOpen"; "textDocument/didSave";
   "textDocument/documentHighlight"; "textDocument/documentLink";
   "textDocument/documentSymbol"; "textDocument/foldingRange";
   "textDocument/formatting"; "textDocument/hover";
   "textDocument/implementation"; "textDocument/onTypeFormatting";
   "textDocument/rangeFormatting"; "textDocument/references";
   "textDocument/rename"; "textDocument/signatureHelp";
   "textDocument/typeDefinition"; "workspace/didChangeConfiguration";
   "workspace/didChangeWatchedFiles";
   "workspace/didChangeWorkspaceFolders"; "workspace/executeCommand";
   "workspace/symbol"].

(** [MessageHandler::MessageHandler()].  The member functions are declared
    in message_handler.hh; [member method] is the one that the constructor
    binds to [method]. *)
Definition MessageHandler_new (member : string -> Member) : MessageHandler :=
  foldl (fun h method => bind method (member method) h)
        (mkMessageHandler ∅ ∅) bound_methods.
End bind.

Arguments init {Json Param}.
Arguments reflect {Json Param}.

(** ** emitSkippedRanges (message_handler.cc, 273-280) *)

Record CclsSetSkippedRanges := mkSkippedRanges {
  skipped_uri : string;
  skippedRanges : list lsRange
}.

Section skipped.
Context (getLsRange : WorkingFile -> Range -> option lsRange).
Context (fromPath : string -> string).

(** One iteration of the loop of line 276. *)
Definition push_skipped (wfile : WorkingFile) (acc : list lsRange)
    (skipped : Range) : list lsRange :=
  match getLsRange wfile skipped with
  | Some ls_skipped => acc ++ [ls_skipped]
  | None => acc
  end.

(** [emitSkippedRanges]: the notification published; [skipped_ranges] is
    [file.def->skipped_ranges]. *)
Definition emitSkippedRanges (wfile : WorkingFile)
    (skipped_ranges : list Range) : CclsSetSkippedRanges :=
  mkSkippedRanges (fromPath (filename wfile))
                  (foldl (push_skipped wfile) [] skipped_ranges).
End skipped.

(** ** Notions used to state the properties of the grouping *)

(** [grouped_symbols.find(key)]. *)
Fixpoint find_grouped (grouped : Grouped) (key : SymbolIdx)
    : option CclsSemanticHighlightSymbol :=
  match grouped with
  | [] => None
  | (k, s) :: rest => if decide (k = key) then Some s else find_grouped rest key
  end.

(** What one occurrence brings to the grouped symbols: the key of its
    symbol, the attributes computed for the symbol and the range in the
    buffer; nothing when the occurrence is filtered out or its range does
    not map. *)
Definition contribution (getLsRange : WorkingFile -> Range -> option lsRange)
    (db : SymbolIndex) (wfile : WorkingFile) (occ : SymbolRef * Z)
    : option (SymbolIdx * (Z * SymbolKind * SymbolKind * Z) * lsRange) :=
  if occ.2 <=? 0 then None
  else
    match classify db wfile occ.1 with
    | Returned _ (Keep sym idx parent_kind kind storage) =>
        match getLsRange wfile (sym_range sym) with
        | Some loc => Some (SymbolRef_idx sym, (idx, parent_kind, kind, storage), loc)
        | None => None
        end
    | _ => None
    end.

(** The contributions of the occurrences to the symbol [key], in order. *)
Definition contributions (getLsRange : WorkingFile -> Range -> option lsRange)
    (db : SymbolIndex) (wfile : WorkingFile) (occs : list (SymbolRef * Z))
    (key : SymbolIdx)
    : list (SymbolIdx * (Z * SymbolKind * SymbolKind * Z) * lsRange) :=
  filter (fun c => c.1.1 = key) (omap (contribution getLsRange db wfile) occs).

(** The text has no '<'. *)
Definition no_angle (s : string) : Prop := index 0 "<" s = None.

(** ** Notions used to state further properties of the scan line *)

(** A table as the scan line leaves it: no range is empty, any two ranges
    are apart, and the ranges of each symbol are listed from left to
    right. *)
Definition settled (tbl : SymbolTable) : Prop :=
  Forall (fun r => Position_lt (start r) (end_ r)) (tbl ≫= lsRanges) /\
  ForallOrdPairs apart (tbl ≫= lsRanges) /\
  Forall (fun s => StronglySorted left_of (lsRanges s)) tbl.

(** ** Sample inputs *)

(** A decoder that fails at the line of a position, expecting an integer;
    members that do nothing. *)
Definition expects_integer : @Reflect unit unit :=
  mkReflect unit tt
    (fun reader _ =>
       (mkReader (reader_value reader) "/position/line",
        Thrown _ (invalid_argument "integer"))).
Definition idle_request (_ : unit) (_ : ReplyOnce) (w : @World unit unit)
    : @World unit unit * option Exn := (w, None).
Definition idle_notification (_ : unit) (w : @World unit unit)
    : @World unit unit * option Exn := (w, None).

(** Two occurrences of [foo] at one place of [short_file]. *)
Definition two_occurrences : list (SymbolRef * Z) :=
  [(short_occurrence, 2); (short_occurrence, 1)].

(** * Properties *)

(** ** Positions *)

Lemma Position_eqb_eq a b : Position_eqb a b = true <-> a = b.
Proof.
  destruct a as [la ca], b as [lb cb]; unfold Position_eqb; simpl.
  rewrite andb_true_iff, !Z.eqb_eq. split.
  - intros [-> ->]; reflexivity.
  - intros [= -> ->]; auto.
Qed.

Lemma Position_eqb_neq a b : Position_eqb a b = false <-> a <> b.
Proof.
  rewrite <- Position_eqb_eq. destruct (Position_eqb a b); split; congruence.
Qed.

Lemma Position_ltb_lt a b :
  Position_ltb a b = true <->
  line a < line b \/ (line a = line b /\ character a < character b).
Proof.
  unfold Position_ltb. destruct (Z.eqb_spec (line a) (line b)); simpl.
  - rewrite Z.ltb_lt. lia.
  - rewrite Z.ltb_lt. lia.
Qed.

Lemma Position_ltb_ge a b :
  Position_ltb a b = false <->
  line b < line a \/ (line a = line b /\ character b <= character a).
Proof.
  unfold Position_ltb. destruct (Z.eqb_spec (line a) (line b)); simpl.
  - rewrite Z.ltb_ge. lia.
  - rewrite Z.ltb_ge. lia.
Qed.

Lemma Position_ext a b : line a = line b -> character a = character b -> a = b.
Proof. destruct a, b; simpl; congruence. Qed.

(** Turns goals about the order of positions into linear arithmetic. *)
Ltac pos_arith :=
  unfold left_of in *; unfold Position_le, Position_lt in *;
  repeat match goal with
    | H : Position_eqb _ _ = true |- _ => apply Position_eqb_eq in H
    | H : Position_eqb _ _ = false |- _ => apply Position_eqb_neq in H
    | H : Position_ltb _ _ = true |- _ => apply Position_ltb_lt in H
    | H : Position_ltb _ _ = false |- _ => apply Position_ltb_ge in H
    | H : @eq Position ?a ?b |- _ =>
        first [subst a | subst b
              | assert (line a = line b /\ character a = character b)
                  by (rewrite H; auto); clear H]
    | H : ?a <> ?b :> Position |- _ =>
        assert (line a <> line b \/ character a <> character b)
          by (destruct (Z.eq_dec (line a) (line b));
              destruct (Z.eq_dec (character a) (character b));
              auto; exfalso; apply H; apply Position_ext; assumption);
        clear H
    end;
  try match goal with
    | |- Position_ltb _ _ = true => apply Position_ltb_lt
    | |- Position_ltb _ _ = false => apply Position_ltb_ge
    | |- Position_eqb _ _ = true => apply Position_eqb_eq, Position_ext
    | |- @eq Position _ _ => apply Position_ext
    end;
  simpl in *; try lia.

Lemma Position_le_refl a : Position_le a a.
Proof. pos_arith. Qed.

Lemma Position_le_trans a b c :
  Position_le a b -> Position_le b c -> Position_le a c.
Proof. intros; pos_arith. Qed.

Lemma Position_lt_le_trans a b c :
  Position_lt a b -> Position_le b c -> Position_lt a c.
Proof. intros; pos_arith. Qed.

Lemma Position_le_lt_trans a b c :
  Position_le a b -> Position_lt b c -> Position_lt a c.
Proof. intros; pos_arith. Qed.

Lemma Position_le_neq_lt a b : Position_le a b -> a <> b -> Position_lt a b.
Proof. intros; pos_arith. Qed.

Lemma Position_lt_not_le a b : Position_lt a b -> Position_le b a -> False.
Proof. intros; pos_arith. Qed.

Lemma Position_le_or_lt a b : Position_le a b \/ Position_lt b a.
Proof. unfold Position_le, Position_lt. destruct (Position_ltb b a); auto. Qed.

Lemma left_of_disjoint a b : left_of a b -> disjoint_ranges a b.
Proof. intros H x [[_ H1] [H2 _]]. pos_arith. Qed.

Lemma disjoint_ranges_sym a b : disjoint_ranges a b -> disjoint_ranges b a.
Proof. intros H x [H1 H2]. apply (H x); auto. Qed.

(** ** The order of events *)

Lemma ScanLineEvent_lt_key tbl a o :
  ScanLineEvent_lt tbl a o = true <-> lex_lt (sort_key tbl a) (sort_key tbl o).
Proof.
  unfold ScanLineEvent_lt, sort_key; simpl.
  destruct (Position_eqb (pos a) (pos o)) eqn:Hp; simpl.
  2:{ rewrite Position_ltb_lt. pos_arith. }
  destruct (Position_eqb (end_pos o) (end_pos a)) eqn:He; simpl.
  2:{ rewrite Position_ltb_lt. pos_arith. }
  destruct (Z.eqb_spec (symbol_kind tbl a) (symbol_kind tbl o)); simpl;
    rewrite Z.ltb_lt; pos_arith.
Qed.

Lemma ScanLineEvent_lt_key_false tbl a o :
  ScanLineEvent_lt tbl a o = false <->
  ~ lex_lt (sort_key tbl a) (sort_key tbl o).
Proof.
  rewrite <- ScanLineEvent_lt_key. destruct (ScanLineEvent_lt tbl a o);
    split; congruence.
Qed.

Lemma ScanLineEvent_lt_irrefl tbl a : ScanLineEvent_lt tbl a a = false.
Proof. apply ScanLineEvent_lt_key_false. unfold sort_key; simpl. lia. Qed.

Lemma ScanLineEvent_lt_asym tbl a b :
  ScanLineEvent_lt tbl a b = true -> ScanLineEvent_lt tbl b a = false.
Proof.
  rewrite ScanLineEvent_lt_key, ScanLineEvent_lt_key_false.
  unfold sort_key; simpl. lia.
Qed.

Lemma ScanLineEvent_lt_trans tbl a b c :
  ScanLineEvent_lt tbl a b = true -> ScanLineEvent_lt tbl b c = true ->
  ScanLineEvent_lt tbl a c = true.
Proof.
  rewrite !ScanLineEvent_lt_key. unfold sort_key; simpl. lia.
Qed.

#[global] Instance not_after_event_total tbl :
  Total (not_after (ScanLineEvent_lt tbl)).
Proof.
  intros a b. unfold not_after.
  destruct (ScanLineEvent_lt tbl b a) eqn:H; auto.
  right. by apply ScanLineEvent_lt_asym.
Qed.

#[global] Instance not_after_event_trans tbl :
  Transitive (not_after (ScanLineEvent_lt tbl)).
Proof.
  intros a b c. unfold not_after.
  rewrite !ScanLineEvent_lt_key_false. unfold sort_key; simpl. lia.
Qed.

Lemma not_after_pos tbl a b :
  not_after (ScanLineEvent_lt tbl) a b -> Position_le (pos a) (pos b).
Proof.
  unfold not_after. rewrite ScanLineEvent_lt_key_false.
  unfold sort_key; simpl. intros H. pos_arith.
Qed.

Lemma std_sort_sorted tbl l :
  sorted_by (ScanLineEvent_lt tbl) (std_sort (ScanLineEvent_lt tbl) l).
Proof. apply StronglySorted_merge_sort; apply _. Qed.

Lemma std_sort_perm {A} (lt : A -> A -> bool) l : std_sort lt l ≡ₚ l.
Proof. apply merge_sort_Permutation. Qed.

Lemma symbol_kind_clear tbl e :
  symbol_kind (clear_lsRanges <$> tbl) e = symbol_kind tbl e.
Proof.
  unfold symbol_kind. rewrite list_lookup_fmap.
  by destruct (tbl !! symbol e).
Qed.

Lemma symbol_id_clear tbl e :
  symbol_id (clear_lsRanges <$> tbl) e = symbol_id tbl e.
Proof.
  unfold symbol_id. rewrite list_lookup_fmap.
  by destruct (tbl !! symbol e).
Qed.

Lemma ScanLineEvent_lt_clear tbl a o :
  ScanLineEvent_lt (clear_lsRanges <$> tbl) a o = ScanLineEvent_lt tbl a o.
Proof.
  unfold ScanLineEvent_lt. by rewrite !symbol_kind_clear, !symbol_id_clear.
Qed.

(** ** The events built from the table *)

Lemma push_ranges_events k n evs locs :
  foldl (push_range_events k) (n, evs) locs =
  (n + Z.of_nat (length locs), evs ++ events_from n (pair k <$> locs)).
Proof.
  revert n evs. induction locs as [|loc locs IH]; intros n evs.
  - simpl. by rewrite Z.add_0_r, app_nil_r.
  - cbn [foldl]. unfold push_range_events at 2. cbn [fst snd]. rewrite IH.
    rewrite length_cons, fmap_cons. cbn [events_from].
    f_equal; [lia|]. by rewrite <- app_assoc.
Qed.

Lemma events_from_app n l1 l2 :
  events_from n (l1 ++ l2) =
  events_from n l1 ++ events_from (n + Z.of_nat (length l1)) l2.
Proof.
  revert n. induction l1 as [|a l1 IH]; intros n.
  - simpl. by rewrite Z.add_0_r.
  - cbn [events_from app]. rewrite IH, length_cons. do 4 f_equal. lia.
Qed.

Lemma push_symbols_events (g : nat -> nat) n evs tbl :
  foldl push_symbol_events (n, evs) (imap (fun k s => (g k, s)) tbl) =
  let ivs := concat (imap (fun k s => pair (g k) <$> lsRanges s) tbl) in
  (n + Z.of_nat (length ivs), evs ++ events_from n ivs).
Proof.
  revert g n evs. induction tbl as [|s tbl IH]; intros g n evs.
  - simpl. by rewrite Z.add_0_r, app_nil_r.
  - cbn [imap foldl concat]. unfold push_symbol_events at 2. cbn [fst snd].
    rewrite push_ranges_events. rewrite (IH (g ∘ S)). cbn zeta.
    rewrite length_app, length_fmap, events_from_app, length_fmap.
    cbv [compose]. f_equal; [lia|]. by rewrite <- app_assoc.
Qed.

Lemma build_events_eq tbl :
  build_events tbl =
  (Z.of_nat (length (tagged_ranges tbl)), events_from 0 (tagged_ranges tbl)).
Proof.
  unfold build_events. apply (push_symbols_events (fun k => k) 0 [] tbl).
Qed.

Lemma tagged_ranges_lookup tbl k r :
  (k, r) ∈ tagged_ranges tbl <->
  exists s, tbl !! k = Some s /\ r ∈ lsRanges s.
Proof.
  unfold tagged_ranges. rewrite list_elem_of_In, in_concat. split.
  - intros (l & Hl%list_elem_of_In & Hin%list_elem_of_In).
    apply elem_of_lookup_imap in Hl as (i & s & -> & Hs).
    apply list_elem_of_fmap in Hin as (r' & [= -> ->] & Hr). eauto.
  - intros (s & Hs & Hr). exists (pair k <$> lsRanges s).
    rewrite <- !list_elem_of_In. split.
    + apply elem_of_lookup_imap. eauto.
    + apply list_elem_of_fmap. eauto.
Qed.

Lemma events_from_elem n ivs e :
  e ∈ events_from n ivs <->
  exists j a, ivs !! j = Some a /\
    (e = mkEvent (start a.2) (end_ a.2) (n + Z.of_nat j) a.1 \/
     e = close_event (n + Z.of_nat j) a).
Proof.
  revert n. induction ivs as [|a ivs IH]; intros n; simpl.
  - split; [by intros ?%elem_of_nil | by intros (j & a & ? & _)].
  - rewrite !elem_of_cons, IH. split.
    + intros [->|[->|(j & b & Hj & He)]].
      * exists O, a. rewrite Z.add_0_r. auto.
      * exists O, a. rewrite Z.add_0_r. auto.
      * exists (S j), b. split; [done|].
        replace (n + Z.of_nat (S j)) with (n + 1 + Z.of_nat j) by lia. done.
    + intros ([|j] & b & Hj & He).
      * simpl in Hj. injection Hj as <-. rewrite Z.add_0_r in He.
        destruct He; auto.
      * right; right. exists j, b. split; [done|].
        replace (n + 1 + Z.of_nat j) with (n + Z.of_nat (S j)) by lia. done.
Qed.

Lemma events_from_wf tbl :
  events_wf (length tbl) (Z.of_nat (length (tagged_ranges tbl)))
            (tagged_ranges tbl) (events_from 0 (tagged_ranges tbl)).
Proof.
  set (ivs := tagged_ranges tbl).
  assert (Hlt : forall j a, ivs !! j = Some a ->
            (0 <= Z.of_nat j < Z.of_nat (length ivs))).
  { intros j a Hj. apply lookup_lt_Some in Hj. lia. }
  split.
  - intros e (j & [k r] & Hj & He)%events_from_elem.
    assert ((k, r) ∈ ivs) as (s & Hs & _)%tagged_ranges_lookup
      by (eapply list_elem_of_lookup_2; eauto).
    apply lookup_lt_Some in Hs. destruct He as [-> | ->]; simpl; lia.
  - intros e (j & a & Hj & He)%events_from_elem. specialize (Hlt _ _ Hj).
    destruct He as [-> | ->]; cbn [ev_id close_event];
      [left|right]; unfold Z.lnot; lia.
  - intros e c (j & a & Hj & He)%events_from_elem
      (j' & a' & Hj' & Hc)%events_from_elem Hopen Hid.
    specialize (Hlt _ _ Hj) as Hl1. specialize (Hlt _ _ Hj') as Hl2.
    destruct He as [-> | ->]; cbn [ev_id close_event pos end_pos] in *.
    2:{ unfold Z.lnot in *. lia. }
    destruct Hc as [-> | ->]; cbn [ev_id close_event pos end_pos] in *.
    { unfold Z.lnot in *. lia. }
    assert (j' = j) as -> by (unfold Z.lnot in *; lia).
    congruence.
  - intros e (j & a & Hj & He)%events_from_elem Hopen.
    specialize (Hlt _ _ Hj) as Hl1.
    destruct He as [-> | ->]; cbn [ev_id close_event] in *.
    2:{ unfold Z.lnot in *. lia. }
    exists (close_event (0 + Z.of_nat j) a). split; [|done].
    apply events_from_elem. eauto.
  - intros e (j & a & Hj & He)%events_from_elem Hopen.
    specialize (Hlt _ _ Hj) as Hl1.
    destruct He as [-> | ->]; cbn [ev_id close_event] in *.
    2:{ unfold Z.lnot in *. lia. }
    destruct a as [k [s t]]; simpl. eapply list_elem_of_lookup_2; eauto.
  - intros a (j & Hj)%list_elem_of_lookup_1.
    exists (mkEvent (start a.2) (end_ a.2) (0 + Z.of_nat j) a.1).
    split; [apply events_from_elem; eauto|]. simpl. repeat split; lia.
Qed.

Lemma events_wf_perm len n ivs evs evs' :
  evs ≡ₚ evs' -> events_wf len n ivs evs -> events_wf len n ivs evs'.
Proof.
  intros Hp [H1 H2 H3 H4 H5 H6].
  assert (Hin : forall e, e ∈ evs' <-> e ∈ evs) by (intros e; by rewrite Hp).
  split.
  - intros e ?%Hin; auto.
  - intros e ?%Hin; auto.
  - intros e c ?%Hin ?%Hin; auto.
  - intros e He%Hin Ho. destruct (H4 e He Ho) as (c & Hc & ?).
    exists c. by rewrite Hin.
  - intros e ?%Hin; auto.
  - intros a Ha. destruct (H6 a Ha) as (e & He & ?). exists e. by rewrite Hin.
Qed.

(** ** The stack of open intervals *)

Lemma stack_rel_pop del e st op :
  stack_rel del (e :: st) op -> del e = true -> stack_rel del st op.
Proof.
  intros H Hd. remember (e :: st) as st' eqn:E.
  induction H as [|e' st' op' H IH|e' st' op' H IH Hd']; [done| |].
  - injection E as -> ->. by apply stack_skip.
  - apply stack_skip; auto.
Qed.

Lemma stack_rel_mono (del del' : ScanLineEvent -> bool) st op :
  (forall e, e ∈ op -> del e = true -> del' e = true) ->
  stack_rel del st op -> stack_rel del' st op.
Proof.
  intros Hm H. induction H as [|e st op H IH|e st op H IH Hd].
  - constructor.
  - apply stack_keep, IH. intros; apply Hm; [by right|done].
  - apply stack_skip.
    + apply IH. intros; apply Hm; [by right|done].
    + apply Hm; [by left|done].
Qed.

Lemma stack_rel_elem del st op e :
  stack_rel del st op -> e ∈ st -> e ∈ op.
Proof.
  intros H. induction H as [|e' st op H IH|e' st op H IH Hd]; intros Hin.
  - done.
  - apply elem_of_cons in Hin as [->|Hin]; [by left|right; auto].
  - right; auto.
Qed.

Lemma stack_rel_find_cons del e st op :
  stack_rel del (e :: st) op -> del e = false ->
  find (fun e => negb (del e)) op = Some e.
Proof.
  intros H Hd. remember (e :: st) as st' eqn:E.
  induction H as [|e' st' op' H IH|e' st' op' H IH Hd']; [done| |].
  - injection E as -> ->. simpl. by rewrite Hd.
  - simpl. rewrite Hd'. simpl. auto.
Qed.

Lemma stack_rel_find_nil del op :
  stack_rel del [] op -> find (fun e => negb (del e)) op = None.
Proof.
  intros H. remember [] as st eqn:E.
  induction H as [|e' st' op' H IH|e' st' op' H IH Hd']; [done|done|].
  simpl. rewrite Hd'. simpl. auto.
Qed.

Lemma pop_deleted_spec (delp : ScanLineEvent -> bool) ev del op top :
  (top <= length ev)%nat ->
  (forall e, e ∈ op -> vec_at del (ev_id e) = Some (delp e)) ->
  stack_rel delp (reverse (take top ev)) op ->
  exists top1,
    pop_deleted ev del top = Some top1 /\ (top1 <= top)%nat /\
    stack_rel delp (reverse (take top1 ev)) op /\
    match top1 with
    | O => True
    | S t => exists e, ev !! t = Some e /\ delp e = false
    end.
Proof.
  intros Hlen Hdel. induction top as [|t IH]; intros Hst.
  - exists O. simpl. auto.
  - destruct (lookup_lt_is_Some_2 ev t) as [e He]; [lia|].
    rewrite (take_S_r _ _ _ He), reverse_app in Hst. simpl in Hst.
    assert (e ∈ op) as Hin by (eapply stack_rel_elem; [done|by left]).
    simpl. rewrite He. simpl. rewrite (Hdel _ Hin). simpl.
    destruct (delp e) eqn:Hd.
    + destruct IH as (top1 & -> & Hle & Hst1 & Htop); [lia| |].
      { by eapply stack_rel_pop. }
      exists top1. repeat split; auto.
    + exists (S t). repeat split; auto.
      * rewrite (take_S_r _ _ _ He), reverse_app. done.
      * eauto.
Qed.

(** ** The table of symbols under a list of attributions *)

Lemma push_lsRange_alter tbl k r :
  (k < length tbl)%nat ->
  push_lsRange tbl k r = Some (alter (add_lsRange r) k tbl).
Proof.
  intros Hk. unfold push_lsRange.
  destruct (lookup_lt_is_Some_2 tbl k Hk) as [s Hs]. rewrite Hs. simpl.
  f_equal. apply list_eq. intros j. destruct (decide (j = k)) as [->|Hne].
  - rewrite list_lookup_insert_eq, list_lookup_alter_eq, Hs by done. done.
  - by rewrite list_lookup_insert_ne, list_lookup_alter_ne.
Qed.

Lemma apply_log_snoc tbl log a :
  apply_log tbl (log ++ [a]) = alter (add_lsRange a.2) a.1 (apply_log tbl log).
Proof. unfold apply_log. by rewrite foldl_app. Qed.

Lemma apply_log_app tbl l1 l2 :
  apply_log tbl (l1 ++ l2) = apply_log (apply_log tbl l1) l2.
Proof. unfold apply_log. by rewrite foldl_app. Qed.

Lemma apply_log_length tbl log : length (apply_log tbl log) = length tbl.
Proof.
  induction log as [|a log IH] using rev_ind; [done|].
  by rewrite apply_log_snoc, length_alter.
Qed.

(** ** The loop against its specification *)

Lemma closedb_snoc l c e :
  closedb (l ++ [c]) e = closedb l e || (ev_id c =? Z.lnot (ev_id e)).
Proof. unfold closedb. rewrite existsb_app. simpl. by rewrite orb_false_r. Qed.

Lemma filter_open_snoc l c :
  filter is_openb (l ++ [c]) =
  filter is_openb l ++ (if is_openb c then [c] else []).
Proof.
  rewrite filter_app. f_equal. rewrite filter_cons, filter_nil.
  destruct (is_openb c); by case_decide.
Qed.

Lemma open_elem_of_take i evs e :
  e ∈ reverse (filter is_openb (take i evs)) -> e ∈ evs /\ 0 <= ev_id e.
Proof.
  rewrite elem_of_reverse, list_elem_of_filter. intros [Ho Hin]. split.
  - by apply (subseteq_take i evs).
  - unfold is_openb in Ho. apply Is_true_true in Ho. lia.
Qed.

Lemma scan_step_inv tbl0 n ivs evs i s cur :
  events_wf (length tbl0) n ivs evs ->
  scan_inv tbl0 n evs i s ->
  evs !! i = Some cur ->
  exists s', scan_step s i = Some s' /\ scan_inv tbl0 n evs (S i) s'.
Proof.
  intros Hwf [Hlen Htail Hdlen Hdel Htop Hstack Hsym] Hcur.
  assert (Hi : (i < length evs)%nat) by (by eapply lookup_lt_Some).
  assert (Hcur_in : cur ∈ evs) by (by eapply list_elem_of_lookup_2).
  assert (Htake : take (S i) evs = take i evs ++ [cur]) by (by apply take_S_r).
  destruct (pop_deleted_spec (closedb (take i evs)) (events s) (deleted s)
              (reverse (filter is_openb (take i evs))) (top s))
    as (top1 & Hpop & Hle & Hst1 & Htop1); [lia| |done|].
  { intros e [He Ho]%open_elem_of_take. auto. }
  unfold scan_step. rewrite Hpop. simpl.
  rewrite (Htail i) by lia. rewrite Hcur. simpl.
  (* the attribution of this step *)
  assert (exists symbols1,
    match top1 with
    | O => Some (symbols s)
    | S t =>
        prev ← match i with O => None | S j => events s !! j end;
        if Position_eqb (pos prev) (pos cur) then Some (symbols s)
        else e ← events s !! t;
             push_lsRange (symbols s) (symbol e) (mklsRange (pos prev) (pos cur))
    end = Some symbols1 /\
    symbols1 = apply_log tbl0 (spec_log evs (S i))) as (symbols1 & -> & Hsym1).
  { cbn [spec_log]. rewrite Hcur. destruct top1 as [|t].
    - exists (symbols s). split; [done|]. rewrite Hsym.
      simpl in Hst1. apply stack_rel_find_nil in Hst1.
      destruct i as [|j']; [by rewrite app_nil_r|].
      destruct (evs !! j'); [|by rewrite app_nil_r].
      unfold emission, active. rewrite Hst1.
      destruct (Position_eqb _ _); by rewrite app_nil_r.
    - destruct Htop1 as (e & He & Hnd).
      destruct i as [|j']; [lia|].
      destruct (lookup_lt_is_Some_2 evs j') as [prev Hprev]; [lia|].
      rewrite (Htail j') by (simpl; lia). rewrite Hprev. simpl.
      rewrite (take_S_r _ _ _ He), reverse_snoc in Hst1.
      pose proof (stack_rel_find_cons _ _ _ _ Hst1 Hnd) as Hact.
      unfold emission, active. rewrite Hact.
      destruct (Position_eqb (pos prev) (pos cur)).
      + exists (symbols s). by rewrite app_nil_r.
      + rewrite He. simpl.
        assert (e ∈ evs) as Hein.
        { eapply stack_rel_elem in Hst1; [|by left].
          by apply open_elem_of_take in Hst1 as [? _]. }
        rewrite push_lsRange_alter.
        2:{ rewrite Hsym, apply_log_length. by eapply wf_symbol. }
        eexists. split; [done|]. by rewrite apply_log_snoc, Hsym. }
  simpl.
  destruct (Z.leb_spec 0 (ev_id cur)) as [Hopen|Hclose].
  - (* insertion event: pushed on the stack *)
    case_decide; [|lia]. eexists. split; [done|].
    assert (Hcl : forall e, 0 <= ev_id e ->
              closedb (take (S i) evs) e = closedb (take i evs) e).
    { intros e He. rewrite Htake, closedb_snoc.
      replace (ev_id cur =? Z.lnot (ev_id e)) with false.
      - by rewrite orb_false_r.
      - symmetry. apply Z.eqb_neq. unfold Z.lnot. lia. }
    split; simpl.
    + by rewrite length_insert.
    + intros j Hj. destruct (decide (j = top1)) as [->|Hne].
      * assert (top1 = i) as -> by lia.
        rewrite list_lookup_insert_eq by lia. done.
      * rewrite list_lookup_insert_ne by done. apply Htail. lia.
    + done.
    + intros e He Ho. rewrite Hcl by done. auto.
    + lia.
    + rewrite (take_S_r (<[top1:=cur]> (events s)) top1 cur)
        by (apply list_lookup_insert_eq; lia).
      rewrite take_insert_ge by lia.
      rewrite Htake, filter_open_snoc.
      replace (is_openb cur) with true
        by (symmetry; unfold is_openb; by apply Z.leb_le).
      rewrite !reverse_snoc. apply stack_keep.
      eapply stack_rel_mono; [|exact Hst1].
      intros e [He Ho]%open_elem_of_take. rewrite <- Htake. by rewrite Hcl.
    + done.
  - (* deletion event: recorded in [deleted] *)
    destruct (wf_id _ _ _ _ Hwf cur Hcur_in) as [?|Hid]; [lia|].
    set (m := Z.lnot (ev_id cur)) in *.
    assert (Hm : (Z.to_nat m < length (deleted s))%nat) by lia.
    unfold vec_at at 1. destruct (Z.ltb_spec m 0); [lia|].
    destruct (lookup_lt_is_Some_2 _ _ Hm) as [d ->]. simpl.
    eexists. split; [done|]. split; simpl.
    + done.
    + intros j Hj. apply Htail. lia.
    + by rewrite length_insert.
    + intros e He Ho. rewrite Htake, closedb_snoc.
      specialize (Hdel e He Ho). unfold vec_at in *.
      destruct (Z.ltb_spec (ev_id e) 0); [lia|].
      destruct (decide (ev_id e = m)) as [Heq|Hne].
      * rewrite Heq, list_lookup_insert_eq by done.
        replace (ev_id cur =? Z.lnot m) with true; [by rewrite orb_true_r|].
        symmetry. apply Z.eqb_eq. unfold m. by rewrite Z.lnot_involutive.
      * rewrite list_lookup_insert_ne by lia. rewrite Hdel.
        replace (ev_id cur =? Z.lnot (ev_id e)) with false;
          [by rewrite orb_false_r|].
        symmetry. apply Z.eqb_neq. intros Heq. apply Hne. unfold m.
        by rewrite Heq, Z.lnot_involutive.
    + lia.
    + rewrite Htake, filter_open_snoc.
      replace (is_openb cur) with false
        by (symmetry; unfold is_openb; by apply Z.leb_gt).
      rewrite app_nil_r. eapply stack_rel_mono; [|exact Hst1].
      intros e _ Hc. rewrite closedb_snoc, Hc. done.
    + done.
Qed.

Lemma scan_loop_inv tbl0 n ivs evs i :
  events_wf (length tbl0) n ivs evs ->
  (i <= length evs)%nat ->
  exists s,
    scan_loop (mkScan evs (replicate (Z.to_nat n) false) O tbl0) (seq 0 i)
      = Some s /\
    scan_inv tbl0 n evs i s.
Proof.
  intros Hwf. induction i as [|i IH]; intros Hi.
  - eexists. split; [done|]. split; simpl; try done.
    + by rewrite length_replicate.
    + intros e He Ho. unfold vec_at.
      destruct (Z.ltb_spec (ev_id e) 0); [lia|].
      destruct (wf_id _ _ _ _ Hwf e He) as [?|?]; [|unfold Z.lnot in *; lia].
      rewrite lookup_replicate_2 by lia. done.
    + constructor.
  - destruct IH as (s & Hs & Hinv); [lia|].
    destruct (lookup_lt_is_Some_2 evs i) as [cur Hcur]; [lia|].
    destruct (scan_step_inv _ _ _ _ _ _ _ Hwf Hinv Hcur) as (s' & Hstep & Hinv').
    exists s'. split; [|done].
    unfold scan_loop in *. rewrite seq_S, foldl_app, Hs. simpl. done.
Qed.

Lemma scan_line_spec tbl0 n ivs evs :
  events_wf (length tbl0) n ivs evs ->
  scan_line tbl0 evs n = Some (apply_log tbl0 (spec_log evs (length evs))).
Proof.
  intros Hwf. unfold scan_line.
  destruct (scan_loop_inv tbl0 n ivs evs (length evs) Hwf) as (s & -> & Hinv);
    [done|].
  simpl. f_equal. apply Hinv.
Qed.

(** ** Sorted events *)

Lemma StronglySorted_lookup {A} (R : relation A) l i j a b :
  StronglySorted R l -> (i < j)%nat ->
  l !! i = Some a -> l !! j = Some b -> R a b.
Proof.
  intros Hs. revert i j. induction Hs as [|x l Hs IH Hx]; intros i j Hij Hi Hj.
  - done.
  - destruct j as [|j]; [lia|]. simpl in Hj. destruct i as [|i]; simpl in Hi.
    + injection Hi as ->. rewrite Forall_forall in Hx. apply Hx.
      by eapply list_elem_of_lookup_2.
    + apply (IH i j); [lia|done|done].
Qed.

Lemma StronglySorted_take {A} (R : relation A) l n :
  StronglySorted R l -> StronglySorted R (take n l).
Proof.
  intros Hs. rewrite <- (take_drop n l) in Hs.
  by apply StronglySorted_app_1_l in Hs.
Qed.

Lemma StronglySorted_filter {A} (R : relation A) (P : A -> Prop)
    `{forall x, Decision (P x)} l :
  StronglySorted R l -> StronglySorted R (filter P l).
Proof.
  induction 1 as [|x l Hs IH Hx]; [constructor|].
  rewrite filter_cons. case_decide; [|done].
  constructor; [done|]. rewrite Forall_forall in *.
  intros y [_ Hy]%list_elem_of_filter. auto.
Qed.

Lemma StronglySorted_elem {A} (R : relation A) l a b :
  StronglySorted R l -> a ∈ l -> b ∈ l -> a = b \/ R a b \/ R b a.
Proof.
  induction 1 as [|x l Hs IH Hx]; [by intros ?%elem_of_nil|].
  rewrite Forall_forall in Hx.
  intros [->|Ha]%elem_of_cons [->|Hb]%elem_of_cons; auto.
Qed.

Section sweep.
Context (tbl : SymbolTable) (n : Z) (ivs : list (nat * lsRange)).
Context (evs : list ScanLineEvent).
Context (Hwf : events_wf (length tbl) n ivs evs).
Context (Hsorted : sorted_by (ScanLineEvent_lt tbl) evs).

Lemma sorted_pos i j a b :
  (i <= j)%nat -> evs !! i = Some a -> evs !! j = Some b ->
  Position_le (pos a) (pos b).
Proof.
  intros Hij Hi Hj. destruct (decide (i = j)) as [->|Hne].
  - assert (a = b) as -> by congruence. apply Position_le_refl.
  - eapply not_after_pos, (StronglySorted_lookup _ evs i j); eauto. lia.
Qed.

(** The events around a step at which a range is attributed. *)
Context (j : nat) (prev cur : ScanLineEvent).
Context (Hprev : evs !! j = Some prev) (Hcur : evs !! S j = Some cur).

Lemma before_step e : e ∈ take (S j) evs -> Position_le (pos e) (pos prev).
Proof.
  intros (i & Hi & Hlt)%elem_of_take. eapply (sorted_pos i j); eauto. lia.
Qed.

Lemma after_step e :
  e ∈ evs -> e ∉ take (S j) evs -> Position_le (pos cur) (pos e).
Proof.
  intros (i & Hi)%list_elem_of_lookup_1 Hnot.
  destruct (decide (i < S j)%nat) as [Hlt|Hge].
  - exfalso. apply Hnot, elem_of_take. eauto.
  - eapply (sorted_pos (S j) i); eauto. lia.
Qed.

Context (x : Position).
Context (Hx1 : Position_le (pos prev) x) (Hx2 : Position_lt x (pos cur)).

Lemma closedb_true l e :
  closedb l e = true -> exists c, c ∈ l /\ ev_id c = Z.lnot (ev_id e).
Proof.
  unfold closedb. rewrite existsb_exists.
  intros (c & Hc%list_elem_of_In & Heq%Z.eqb_eq). eauto.
Qed.

Lemma closedb_false l e c :
  closedb l e = false -> ev_id c = Z.lnot (ev_id e) -> c ∉ l.
Proof.
  intros Hf Hid Hin. assert (closedb l e = true); [|congruence].
  unfold closedb. rewrite existsb_exists. exists c.
  rewrite <- list_elem_of_In, Z.eqb_eq. done.
Qed.

(** An interval that contains [x] has been opened and is not closed. *)
Lemma containing_open e :
  e ∈ evs -> 0 <= ev_id e ->
  Position_le (pos e) x -> Position_lt x (end_pos e) ->
  e ∈ take (S j) evs /\ closedb (take (S j) evs) e = false.
Proof.
  intros He Ho H1 H2. split.
  - destruct (decide (e ∈ take (S j) evs)) as [|Hnot]; [done|].
    pose proof (after_step e He Hnot). pos_arith.
  - destruct (closedb (take (S j) evs) e) eqn:Hc; [|done].
    apply closedb_true in Hc as (c & Hc & Hid).
    pose proof (before_step c Hc) as Hb.
    rewrite (wf_close_pos _ _ _ _ Hwf e c) in Hb; auto.
    + pos_arith.
    + by apply (subseteq_take (S j) evs).
Qed.

(** An interval that is opened and not closed contains [x]. *)
Lemma open_containing e :
  e ∈ take (S j) evs -> 0 <= ev_id e ->
  closedb (take (S j) evs) e = false ->
  Position_le (pos e) x /\ Position_lt x (end_pos e).
Proof.
  intros He Ho Hc.
  assert (e ∈ evs) as Hin by (by apply (subseteq_take (S j) evs)).
  split.
  - pose proof (before_step e He). pos_arith.
  - destruct (wf_close_ex _ _ _ _ Hwf e Hin Ho) as (c & Hcin & Hid).
    pose proof (closedb_false _ _ _ Hc Hid) as Hnot.
    pose proof (after_step c Hcin Hnot) as Ha.
    rewrite (wf_close_pos _ _ _ _ Hwf e c) in Ha; auto. pos_arith.
Qed.
End sweep.

Lemma spec_log_elem evs i a :
  a ∈ spec_log evs i <->
  exists j prev cur e,
    (S (S j) <= i)%nat /\ evs !! j = Some prev /\ evs !! S j = Some cur /\
    pos prev <> pos cur /\ active (take (S j) evs) = Some e /\
    a = (symbol e, mklsRange (pos prev) (pos cur)).
Proof.
  induction i as [|i IH]; simpl.
  - split; [by intros ?%elem_of_nil|]. intros (j & ? & ? & ? & ? & _). lia.
  - rewrite elem_of_app, IH. split.
    + intros [(j & prev & cur & e & Hj & H)|Hin].
      * exists j, prev, cur, e. split; [lia|done].
      * destruct i as [|j]; [by apply elem_of_nil in Hin|].
        destruct (evs !! j) as [prev|] eqn:Hprev; [|by apply elem_of_nil in Hin].
        destruct (evs !! S j) as [cur|] eqn:Hcur; [|by apply elem_of_nil in Hin].
        unfold emission in Hin.
        destruct (Position_eqb (pos prev) (pos cur)) eqn:Hne;
          [by apply elem_of_nil in Hin|].
        apply Position_eqb_neq in Hne.
        destruct (active (take (S j) evs)) as [e|] eqn:Hact;
          [|by apply elem_of_nil in Hin].
        apply list_elem_of_singleton in Hin.
        exists j, prev, cur, e. split; [lia|done].
    + intros (j & prev & cur & e & Hj & Hprev & Hcur & Hne & Hact & ->).
      destruct (decide (S (S j) <= i)%nat) as [Hle|Hgt].
      * left. exists j, prev, cur, e. done.
      * right. assert (i = S j) as -> by lia.
        rewrite Hprev, Hcur. unfold emission.
        apply Position_eqb_neq in Hne. rewrite Hne, Hact.
        by apply list_elem_of_singleton.
Qed.

Lemma find_first {A} (f : A -> bool) l e e' :
  find f l = Some e -> e' ∈ l -> f e' = true ->
  exists l1 l2, l = l1 ++ e :: l2 /\ e' ∈ e :: l2.
Proof.
  induction l as [|a l IH]; simpl; [done|]. intros Hf Hin He'.
  destruct (f a) eqn:Ha.
  - injection Hf as ->. exists [], l. done.
  - apply elem_of_cons in Hin as [->|Hin]; [congruence|].
    destruct (IH Hf Hin He') as (l1 & l2 & -> & Hl2).
    exists (a :: l1), l2. done.
Qed.

Section attribution.
Context (tbl : SymbolTable) (n : Z) (ivs : list (nat * lsRange)).
Context (evs : list ScanLineEvent).
Context (Hwf : events_wf (length tbl) n ivs evs).
Context (Hsorted : sorted_by (ScanLineEvent_lt tbl) evs).

Lemma spec_log_nonempty i a :
  a ∈ spec_log evs i -> Position_lt (start a.2) (end_ a.2).
Proof.
  intros (j & prev & cur & e & _ & Hprev & Hcur & Hne & _ & ->)%spec_log_elem.
  simpl. apply Position_le_neq_lt; [|done].
  eapply (sorted_pos tbl evs Hsorted j (S j)); eauto.
Qed.

Lemma spec_log_symbol i a : a ∈ spec_log evs i -> (a.1 < length tbl)%nat.
Proof.
  intros (j & prev & cur & e & _ & _ & _ & _ & Hact & ->)%spec_log_elem.
  simpl. eapply wf_symbol; [done|].
  unfold active in Hact. apply find_some in Hact as [Hin%list_elem_of_In _].
  by apply open_elem_of_take in Hin as [? _].
Qed.

Lemma spec_log_sorted i :
  StronglySorted (fun a b => left_of a.2 b.2) (spec_log evs i).
Proof.
  induction i as [|i IH]; [constructor|]. simpl.
  apply StronglySorted_app_2; [|done|].
  - intros a b (j1 & p1 & c1 & e1 & Hj1 & _ & Hc1 & _ & _ & ->)%spec_log_elem Hb.
    destruct i as [|j]; [lia|].
    destruct (evs !! j) as [prev|] eqn:Hprev; [|by apply elem_of_nil in Hb].
    destruct (evs !! S j) as [cur|]; [|by apply elem_of_nil in Hb].
    unfold emission in Hb. destruct (Position_eqb _ _);
      [by apply elem_of_nil in Hb|].
    destruct (active _); [|by apply elem_of_nil in Hb].
    apply list_elem_of_singleton in Hb as ->. unfold left_of; simpl.
    eapply (sorted_pos tbl evs Hsorted (S j1) j); eauto. lia.
  - destruct i as [|j]; [constructor|].
    destruct (evs !! j); [|constructor].
    destruct (evs !! S j); [|constructor].
    unfold emission. destruct (Position_eqb _ _); [constructor|].
    destruct (active _); repeat constructor.
Qed.

(** A point of an attributed range lies in the interval of the symbol it
    is attributed to, and no interval that contains the point comes
    later in the order of the sweep. *)
Lemma spec_log_lifo i a x :
  a ∈ spec_log evs i -> in_lsRange x a.2 ->
  exists e,
    e ∈ evs /\ 0 <= ev_id e /\ symbol e = a.1 /\
    Position_le (pos e) x /\ Position_lt x (end_pos e) /\
    forall e', e' ∈ evs -> 0 <= ev_id e' ->
      Position_le (pos e') x -> Position_lt x (end_pos e') ->
      ScanLineEvent_lt tbl e e' = false.
Proof.
  intros (j & prev & cur & e & _ & Hprev & Hcur & Hne & Hact & ->)%spec_log_elem.
  intros [Hx1 Hx2]; simpl in Hx1, Hx2.
  pose proof Hact as Hfind. unfold active in Hfind.
  apply find_some in Hfind as [Hin%list_elem_of_In Hnc].
  apply negb_true_iff in Hnc.
  pose proof (open_elem_of_take _ _ _ Hin) as [Hein Ho].
  apply elem_of_reverse, list_elem_of_filter in Hin as [_ Hin].
  destruct (open_containing tbl n ivs evs Hwf Hsorted j prev cur Hprev Hcur
              x Hx1 Hx2 e Hin Ho Hnc) as [He1 He2].
  exists e. repeat split; auto.
  intros e' He' Ho' H1 H2.
  destruct (containing_open tbl n ivs evs Hwf Hsorted j prev cur Hprev Hcur
              x Hx1 Hx2 e' He' Ho' H1 H2) as [Hin' Hnc'].
  unfold active in Hact.
  destruct (find_first _ _ e e' Hact) as (l1 & l2 & Hl & Hl2).
  { apply elem_of_reverse, list_elem_of_filter. split; [|done].
    unfold is_openb. apply Is_true_true. by apply Z.leb_le. }
  { by rewrite Hnc'. }
  apply elem_of_cons in Hl2 as [->|Hl2];
    [apply ScanLineEvent_lt_irrefl|].
  assert (StronglySorted (not_after (ScanLineEvent_lt tbl))
            (reverse l2 ++ e :: reverse l1)) as Hs.
  { replace (reverse l2 ++ e :: reverse l1) with (reverse (l1 ++ e :: l2))
      by (by rewrite reverse_app, reverse_cons, <- app_assoc).
    rewrite <- Hl, reverse_involutive.
    by apply StronglySorted_filter, StronglySorted_take. }
  eapply (StronglySorted_app_1_elem_of _ _ _ e' e) in Hs; [done| |by left].
  by apply elem_of_reverse.
Qed.

(** Two neighbouring events that lie on either side of [x]. *)
Lemma sorted_straddle (l : list ScanLineEvent) x a c :
  StronglySorted (fun a b => Position_le (pos a) (pos b)) l ->
  a ∈ l -> c ∈ l -> Position_le (pos a) x -> Position_lt x (pos c) ->
  exists j prev cur,
    l !! j = Some prev /\ l !! S j = Some cur /\
    Position_le (pos prev) x /\ Position_lt x (pos cur).
Proof.
  intros Hs. revert a.
  induction Hs as [|h l Hs IH Hh]; intros a Ha Hc Hax Hxc;
    [by apply elem_of_nil in Ha|].
  rewrite Forall_forall in Hh.
  assert (Position_le (pos h) x) as Hhx.
  { apply elem_of_cons in Ha as [->|Ha]; [done|].
    specialize (Hh a Ha). pos_arith. }
  assert (c ∈ l) as Hcl.
  { apply elem_of_cons in Hc as [->|Hc]; [|done]. pos_arith. }
  destruct l as [|b l]; [by apply elem_of_nil in Hcl|].
  destruct (Position_le_or_lt (pos b) x) as [Hbx|Hxb].
  - destruct (IH b) as (j & prev & cur & ? & ? & ? & ?); [by left|done..|].
    exists (S j), prev, cur. done.
  - exists O, h, b. done.
Qed.

Lemma sorted_by_pos :
  StronglySorted (fun a b => Position_le (pos a) (pos b)) evs.
Proof.
  clear Hwf. unfold sorted_by in Hsorted.
  induction Hsorted as [|h l Hs IH Hh]; constructor; auto.
  eapply Forall_impl; [exact Hh|]. intros b. apply not_after_pos.
Qed.

(** Every point of an interval is attributed. *)
Lemma spec_log_cover x e :
  e ∈ evs -> 0 <= ev_id e ->
  Position_le (pos e) x -> Position_lt x (end_pos e) ->
  exists a, a ∈ spec_log evs (length evs) /\ in_lsRange x a.2.
Proof.
  intros He Ho H1 H2.
  destruct (wf_close_ex _ _ _ _ Hwf e He Ho) as (c & Hc & Hid).
  pose proof (wf_close_pos _ _ _ _ Hwf e c He Hc Ho Hid) as Hpc.
  destruct (sorted_straddle evs x e c sorted_by_pos He Hc H1)
    as (j & prev & cur & Hprev & Hcur & Hx1 & Hx2); [by rewrite Hpc|].
  destruct (containing_open tbl n ivs evs Hwf Hsorted j prev cur Hprev Hcur
              x Hx1 Hx2 e He Ho H1 H2) as [Hin Hnc].
  destruct (active (take (S j) evs)) as [e0|] eqn:Hact.
  - exists (symbol e0, mklsRange (pos prev) (pos cur)). split; [|done].
    apply spec_log_elem. exists j, prev, cur, e0.
    repeat split; auto.
    + apply lookup_lt_Some in Hcur. lia.
    + intros Heq. rewrite Heq in Hx1. pos_arith.
  - exfalso. unfold active in Hact.
    eapply find_none in Hact.
    + rewrite Hnc in Hact. done.
    + apply list_elem_of_In, elem_of_reverse, list_elem_of_filter.
      split; [|done]. unfold is_openb. apply Is_true_true. by apply Z.leb_le.
Qed.
End attribution.

(** ** The resolved table *)

Lemma log_ranges_snoc k log a :
  log_ranges k (log ++ [a]) =
  log_ranges k log ++ (if decide (a.1 = k) then [a.2] else []).
Proof.
  unfold log_ranges. rewrite filter_app, fmap_app. f_equal.
  rewrite filter_cons, filter_nil. by case_decide.
Qed.

Lemma log_ranges_elem k log r : r ∈ log_ranges k log <-> (k, r) ∈ log.
Proof.
  unfold log_ranges. rewrite list_elem_of_fmap. split.
  - intros ([k' r'] & -> & [Hk Hin]%list_elem_of_filter). simpl in *.
    by subst.
  - intros Hin. exists (k, r). split; [done|].
    by apply list_elem_of_filter.
Qed.

Lemma apply_log_lookup tbl log k :
  apply_log tbl log !! k = with_lsRanges (log_ranges k log) <$> tbl !! k.
Proof.
  induction log as [|a log IH] using rev_ind.
  - simpl. destruct (tbl !! k) as [s|]; [|done]. simpl. f_equal.
    destruct s; unfold with_lsRanges; simpl. by rewrite app_nil_r.
  - rewrite apply_log_snoc, log_ranges_snoc.
    destruct (decide (a.1 = k)) as [<-|Hne].
    + rewrite list_lookup_alter_eq, IH.
      destruct (tbl !! a.1) as [s|]; [|done]. simpl. f_equal.
      unfold add_lsRange, with_lsRanges; simpl. by rewrite app_assoc.
    + rewrite list_lookup_alter_ne by done. by rewrite IH, app_nil_r.
Qed.

Lemma tagged_apply_log tbl log k r :
  (k, r) ∈ tagged_ranges (apply_log (clear_lsRanges <$> tbl) log) <->
  (k < length tbl)%nat /\ (k, r) ∈ log.
Proof.
  rewrite tagged_ranges_lookup. setoid_rewrite apply_log_lookup.
  setoid_rewrite list_lookup_fmap. split.
  - intros (s & Hs & Hr). destruct (tbl !! k) as [s0|] eqn:Hk; [|done].
    simpl in Hs. injection Hs as <-. simpl in Hr.
    apply log_ranges_elem in Hr. split; [by eapply lookup_lt_Some|done].
  - intros [Hk Hin]. destruct (lookup_lt_is_Some_2 tbl k Hk) as [s0 ->].
    eexists. split; [done|]. simpl. by apply log_ranges_elem.
Qed.

Lemma same_symbols_apply_log tbl log :
  same_symbols tbl (apply_log (clear_lsRanges <$> tbl) log).
Proof.
  unfold same_symbols. apply list_eq. intros k.
  rewrite !list_lookup_fmap, apply_log_lookup, list_lookup_fmap.
  by destruct (tbl !! k).
Qed.

Lemma StronglySorted_ForallOrdPairs {A} (R : relation A) l :
  StronglySorted R l -> ForallOrdPairs R l.
Proof. induction 1; constructor; auto. Qed.

Lemma ForallOrdPairs_impl {A} (R1 R2 : relation A) l :
  (forall a b, R1 a b -> R2 a b) -> ForallOrdPairs R1 l -> ForallOrdPairs R2 l.
Proof.
  intros HR. induction 1 as [|a l Ha Hl IH]; constructor; auto.
  eapply Forall_impl; [exact Ha|]. auto.
Qed.

Lemma lsRanges_apply_log_sorted tbl log s :
  StronglySorted (fun a b => left_of a.2 b.2) log ->
  s ∈ apply_log (clear_lsRanges <$> tbl) log ->
  StronglySorted left_of (lsRanges s).
Proof.
  intros Hs (k & Hk)%list_elem_of_lookup_1.
  rewrite apply_log_lookup, list_lookup_fmap in Hk.
  destruct (tbl !! k) as [s0|]; [|done]. simpl in Hk. injection Hk as <-.
  simpl. unfold log_ranges.
  eapply (StronglySorted_fmap snd); [|by apply StronglySorted_filter].
  auto.
Qed.

(** * Resolution of overlapping ranges *)

(** The table that [resolve_overlaps] returns for the scenario. *)
Example resolve_overlaps_scenario :
  resolve_overlaps [symbolA; symbolB; symbolC] =
  Some [mkSymbol 0 0 5 0 [] [col_range 4 6; col_range 8 10];
        mkSymbol 1 0 13 0 [] [col_range 0 4];
        mkSymbol 2 0 12 0 [] [col_range 6 8]].
Proof. reflexivity. Qed.

(** C1.  Whatever sorted arrangement [std::sort] leaves the events in, the
    sweep of lines 402-420 returns normally, changes nothing but the range
    lists of the symbols, and the resolved ranges are such that: none is
    empty; a point lies in a resolved range exactly when it lies in a
    collected range, so that every resolved range is inside the union of
    the collected ones and the two unions are equal; the ranges of one
    symbol are listed from left to right and are mutually disjoint; ranges
    of different symbols are disjoint, so that a covered point is
    attributed to one symbol only; and that symbol owns a collected range
    that contains the point and that no other collected range containing
    the point follows in the order of the sweep (the interval opened last
    and still open).  For the symbols A = [0,10), B = [0,4), C = [6,8) the
    result is A: [4,6) and [8,10), B: [0,4), C: [6,8). *)
Theorem scan_line_partition (tbl : SymbolTable) (evs : list ScanLineEvent) :
  evs ≡ₚ (build_events tbl).2 ->
  sorted_by (ScanLineEvent_lt (clear_lsRanges <$> tbl)) evs ->
  (exists out,
    scan_line (clear_lsRanges <$> tbl) evs (build_events tbl).1 = Some out /\
    same_symbols tbl out /\
    (forall a, a ∈ tagged_ranges out -> Position_lt (start a.2) (end_ a.2)) /\
    (forall x, (exists a, a ∈ tagged_ranges out /\ in_lsRange x a.2) <->
               (exists b, b ∈ tagged_ranges tbl /\ in_lsRange x b.2)) /\
    (forall s, s ∈ out ->
       StronglySorted left_of (lsRanges s) /\
       ForallOrdPairs disjoint_ranges (lsRanges s)) /\
    (forall a1 a2, a1 ∈ tagged_ranges out -> a2 ∈ tagged_ranges out ->
       a1.1 <> a2.1 -> disjoint_ranges a1.2 a2.2) /\
    (forall a x, a ∈ tagged_ranges out -> in_lsRange x a.2 ->
       exists r0, (a.1, r0) ∈ tagged_ranges tbl /\ in_lsRange x r0 /\
         forall b, b ∈ tagged_ranges tbl -> in_lsRange x b.2 ->
           opens_before tbl (a.1, r0) b = false)) /\
  resolve_overlaps [symbolA; symbolB; symbolC] =
    Some [with_lsRanges [col_range 4 6; col_range 8 10] (clear_lsRanges symbolA);
          with_lsRanges [col_range 0 4] (clear_lsRanges symbolB);
          with_lsRanges [col_range 6 8] (clear_lsRanges symbolC)].
Proof.
  intros Hperm Hsorted. split; [|reflexivity].
  set (tbl0 := clear_lsRanges <$> tbl) in *.
  set (ivs := tagged_ranges tbl).
  set (n := Z.of_nat (length ivs)).
  assert (Hwf : events_wf (length tbl0) n ivs evs).
  { unfold tbl0. rewrite length_fmap.
    eapply events_wf_perm; [|apply events_from_wf].
    rewrite Hperm, build_events_eq. done. }
  set (log := spec_log evs (length evs)).
  assert (Hlog : forall a, a ∈ tagged_ranges (apply_log tbl0 log) <-> a ∈ log).
  { intros [k r]. unfold tbl0. rewrite tagged_apply_log. split; [tauto|].
    intros Hin. split; [|done].
    pose proof (spec_log_symbol _ _ _ _ Hwf _ _ Hin) as Hk.
    unfold tbl0 in Hk. by rewrite length_fmap in Hk. }
  assert (Hslog : StronglySorted (fun a b => left_of a.2 b.2) log)
    by (eapply spec_log_sorted; eauto).
  exists (apply_log tbl0 log). split; [|split; [|split; [|split; [|split; [|split]]]]].
  - rewrite build_events_eq. simpl. by eapply scan_line_spec.
  - apply same_symbols_apply_log.
  - intros a Ha%Hlog. eapply spec_log_nonempty; eauto.
  - intros x. split.
    + intros (a & Ha%Hlog & Hx).
      destruct (spec_log_lifo _ _ _ _ Hwf Hsorted _ _ _ Ha Hx)
        as (e & He & Ho & _ & H1 & H2 & _).
      eexists. split; [by eapply wf_open_iv|]. done.
    + intros (b & Hb & [H1 H2]).
      destruct (wf_iv_open _ _ _ _ Hwf b Hb) as (e & He & Ho & _ & Hp & Hq).
      rewrite <- Hp in H1. rewrite <- Hq in H2.
      destruct (spec_log_cover _ _ _ _ Hwf Hsorted x e He Ho H1 H2)
        as (a & Ha & Hx).
      exists a. by rewrite Hlog.
  - intros s Hs.
    pose proof (lsRanges_apply_log_sorted _ _ _ Hslog Hs) as H. split; [done|].
    eapply ForallOrdPairs_impl; [|by apply StronglySorted_ForallOrdPairs].
    apply left_of_disjoint.
  - intros a1 a2 H1%Hlog H2%Hlog Hne.
    destruct (StronglySorted_elem _ _ _ _ Hslog H1 H2) as [->|[H|H]]; [done| |].
    + by apply left_of_disjoint.
    + by apply disjoint_ranges_sym, left_of_disjoint.
  - intros a x Ha%Hlog Hx.
    destruct (spec_log_lifo _ _ _ _ Hwf Hsorted _ _ _ Ha Hx)
      as (e & He & Ho & Hsym & H1 & H2 & Hmax).
    exists (mklsRange (pos e) (end_pos e)). rewrite <- Hsym.
    split; [by eapply wf_open_iv|]. split; [done|].
    intros b Hb [Hb1 Hb2].
    destruct (wf_iv_open _ _ _ _ Hwf b Hb) as (e' & He' & Ho' & Hs' & Hp & Hq).
    rewrite <- Hp in Hb1. rewrite <- Hq in Hb2.
    specialize (Hmax e' He' Ho' Hb1 Hb2).
    unfold tbl0 in Hmax. rewrite ScanLineEvent_lt_clear in Hmax.
    rewrite <- Hmax. unfold opens_before, ScanLineEvent_lt, open_event,
      symbol_kind, symbol_id; simpl. by rewrite Hp, Hq, Hs'.
Qed.

(** * The order of the sweep events *)

(** C2, as the design document words it, fails on the last key.  The two
    insertion events of [twins] agree on position, end, and kind; the code
    puts the event of interval 1 first, because its symbol has the smaller
    id, where the order by interval id puts the event of interval 0 first;
    and the sorted events start with interval 1. *)
Lemma event_order_ignores_interval_id :
  let e0 := mkEvent (mkPosition 0 2) (mkPosition 0 5) 0 0 in
  let e1 := mkEvent (mkPosition 0 2) (mkPosition 0 5) 1 1 in
  e0 ∈ (build_events twins).2 /\ e1 ∈ (build_events twins).2 /\
  ScanLineEvent_lt twins e1 e0 = true /\
  spec_event_lt twins e1 e0 = false /\
  spec_event_lt twins e0 e1 = true /\
  ScanLineEvent_lt twins e0 e1 = false /\
  take 2 (std_sort (ScanLineEvent_lt twins) (build_events twins).2) = [e1; e0] /\
  ~ (forall tbl a o, ScanLineEvent_lt tbl a o = spec_event_lt tbl a o).
Proof.
  cbv zeta. repeat split; try reflexivity.
  - vm_compute. by left.
  - vm_compute. right; right; by left.
  - intros H.
    specialize (H twins (mkEvent (mkPosition 0 2) (mkPosition 0 5) 1 1)
                  (mkEvent (mkPosition 0 2) (mkPosition 0 5) 0 0)).
    vm_compute in H. discriminate.
Qed.

(** C2, amended.  [operator<] orders events by position ascending; among
    equal positions by the other endpoint descending, so that of two
    insertion events at one place the one whose range ends later comes
    first; then by the kind of the symbol ascending, which puts [Macro]
    after every other kind; and finally by the id of the owning symbol
    ascending.  The interval id of the event takes no part.  The events
    that [emitSemanticHighlight] sorts come out in that order. *)
Theorem ScanLineEvent_lt_order (tbl : SymbolTable) (a o : ScanLineEvent) :
  (ScanLineEvent_lt tbl a o = true <->
   lex_lt (sort_key tbl a) (sort_key tbl o)) /\
  (Position_lt (pos a) (pos o) -> ScanLineEvent_lt tbl a o = true) /\
  (pos a = pos o -> Position_lt (end_pos o) (end_pos a) ->
   ScanLineEvent_lt tbl a o = true) /\
  (pos a = pos o -> end_pos a = end_pos o ->
   symbol_kind tbl a < symbol_kind tbl o -> ScanLineEvent_lt tbl a o = true) /\
  (pos a = pos o -> end_pos a = end_pos o ->
   SymbolKind_wf (symbol_kind tbl a) -> symbol_kind tbl a <> Macro ->
   symbol_kind tbl o = Macro -> ScanLineEvent_lt tbl a o = true) /\
  (pos a = pos o -> end_pos a = end_pos o ->
   symbol_kind tbl a = symbol_kind tbl o ->
   ScanLineEvent_lt tbl a o = (symbol_id tbl a <? symbol_id tbl o)) /\
  (forall i1 i2,
   ScanLineEvent_lt tbl (mkEvent (pos a) (end_pos a) i1 (symbol a))
                        (mkEvent (pos o) (end_pos o) i2 (symbol o)) =
   ScanLineEvent_lt tbl a o) /\
  (forall i j x y,
   let evs := std_sort (ScanLineEvent_lt (clear_lsRanges <$> tbl))
                       (build_events tbl).2 in
   (i < j)%nat -> evs !! i = Some x -> evs !! j = Some y ->
   ~ lex_lt (sort_key tbl y) (sort_key tbl x)).
Proof.
  pose proof (ScanLineEvent_lt_key tbl a o) as Hkey.
  split; [done|]. split; [|split; [|split; [|split; [|split; [|split]]]]].
  - intros H. apply Hkey. unfold sort_key; simpl. pos_arith.
  - intros Hp H. apply Hkey. unfold sort_key; simpl. rewrite Hp. pos_arith.
  - intros Hp He H. apply Hkey. unfold sort_key; simpl. rewrite Hp, He. lia.
  - intros Hp He Hwf Hne Hm. apply Hkey. unfold sort_key; simpl.
    rewrite Hp, He. unfold SymbolKind_wf, Macro in *. lia.
  - intros Hp He Hk. unfold ScanLineEvent_lt.
    rewrite Hp, He, Hk, Z.eqb_refl.
    replace (Position_eqb (pos o) (pos o)) with true
      by (symmetry; by apply Position_eqb_eq).
    replace (Position_eqb (end_pos o) (end_pos o)) with true
      by (symmetry; by apply Position_eqb_eq).
    done.
  - done.
  - intros i j x y evs Hij Hx Hy.
    apply ScanLineEvent_lt_key_false.
    rewrite <- ScanLineEvent_lt_clear.
    apply (StronglySorted_lookup
             (not_after (ScanLineEvent_lt (clear_lsRanges <$> tbl)))
             evs i j x y); auto.
    apply std_sort_sorted.
Qed.

(** * The dispatcher *)

Lemma contains_middle pre t post : contains (pre +:+ t +:+ post) t.
Proof. by exists pre, post. Qed.


Lemma string_app_nil_r (a : string) : a +:+ "" = a.
Proof.
  induction a as [|x a IH]; [done|].
  change (String x (a +:+ "") = String x a). by rewrite IH.
Qed.


Section dispatcher_properties.
Context {Json Res State : Type}.
Context (method2request : gmap string (RequestHandler Json Res State)).
Context (method2notification :
           gmap string (NotificationHandler Json Res State)).


Lemma replies_to_snoc_notify id (l : list (@OutMessage Res)) m p :
  replies_to id (l ++ [Notify m p]) = replies_to id l.
Proof.
  unfold replies_to. rewrite List.filter_app, length_app. simpl. lia.
Qed.


(** The dispatcher lets [NotIndexed] through.  When the handler of a request raises
    [NotIndexed], [run] raises it in turn and leaves the world as the
    handler left it: it sends nothing. *)
Lemma run_rethrows_NotIndexed (msg : InMessage) (w w1 : World)
    handler reader1 path :
  RequestId_valid (msg_id msg) = true ->
  method2request !! method msg = Some handler ->
  handler (mkReader (params msg) "") (mkReplyOnce (msg_id msg)) w
    = (w1, reader1, Some (NotIndexed path)) ->
  run method2request method2notification msg w = (w1, Some (NotIndexed path)).
Proof.
  intros Hv Hh Hc. unfold run.
  by rewrite Hv, Hh, Hc.
Qed.

(** C5.  A message without a valid id is a notification.  When its
    method is not in the notification table, [run] returns normally and
    leaves the world untouched: nothing is sent.  When the handler raises
    anything, [NotIndexed] included, [run] still returns normally and
    sends, after whatever the handler had sent, one show-message
    notification of severity [Error] whose text names the method; it
    adds no reply. *)
Theorem run_notification_failure (msg : InMessage) (w : World) :
  RequestId_valid (msg_id msg) = false ->
  let reader := mkReader (params msg) "" in
  let result := run method2request method2notification msg w in
  (method2notification !! method msg = None -> result = (w, None)) /\
  (forall handler w1 reader1 e,
     method2notification !! method msg = Some handler ->
     handler reader w = (w1, reader1, Some e) ->
     let text := "failed to process " +:+ method msg in
     result = (mkWorld (sent w1 ++ [Notify window_showMessage
                          (mkShowMessage MessageType_Error text)])
                       (state w1), None) /\
     contains text (method msg) /\
     forall id, replies_to id (sent result.1) = replies_to id (sent w1)).
Proof.
  intros Hvalid. cbv zeta. unfold run. rewrite Hvalid. split.
  - by intros ->.
  - intros handler w1 reader1 e Hh Hcall. rewrite Hh, Hcall.
    split; [done|]. split.
    + exists "failed to process ", "". by rewrite string_app_nil_r.
    + intros id. simpl. apply replies_to_snoc_notify.
Qed.
End dispatcher_properties.

Section findOrFail_properties.
Context {Json Res State QueryFile WorkingFile : Type}.
Context (has_def : QueryFile -> bool).
Context (lowerPathIfInsensitive : string -> string).

(** C3.  When the handler of a request raises [NotIndexed], [run] raises
    it in turn and sends nothing of its own.  [findOrFail] raises only
    [NotIndexed], only for an opened file without index entry, and only
    while [overdue] is false, leaving the world untouched; for the same
    file once [overdue] is true it returns the null pair after an
    [InvalidRequest] reply with the message "not indexed". *)
Theorem NotIndexed_contract :
  (forall (method2request : gmap string (RequestHandler Json Res State))
          (method2notification : gmap string (NotificationHandler Json Res State))
          (msg : InMessage) (w w1 : World) handler reader1 path,
     RequestId_valid (msg_id msg) = true ->
     method2request !! method msg = Some handler ->
     handler (mkReader (params msg) "") (mkReplyOnce (msg_id msg)) w
       = (w1, reader1, Some (NotIndexed path)) ->
     run method2request method2notification msg w
       = (w1, Some (NotIndexed path))) /\
  (forall (db : @DB QueryFile) (wfiles : gmap string WorkingFile)
          (overdue : bool) (path : string) (reply : ReplyOnce)
          (w : @World Res State),
     let r := findOrFail has_def lowerPathIfInsensitive db wfiles overdue
                         path reply w in
     (forall w' e, r = (w', Thrown _ e) ->
        overdue = false /\ e = NotIndexed path /\ w' = w /\
        is_Some (wfiles !! path) /\
        (findFile has_def lowerPathIfInsensitive db path).1 = None) /\
     (forall wf, wfiles !! path = Some wf ->
        (findFile has_def lowerPathIfInsensitive db path).1 = None ->
        (overdue = false -> r = (w, Thrown _ (NotIndexed path))) /\
        (overdue = true ->
         r = (mkWorld (sent w ++ [ReplyError (reply_id reply) InvalidRequest
                                    "not indexed"]) (state w),
              Returned _ None)))).
Proof.
  split.
  - intros. by apply run_rethrows_NotIndexed with handler reader1.
  - intros db wfiles overdue path reply w. cbv zeta. unfold findOrFail.
    split.
    + intros w' e. destruct (wfiles !! path) as [wf|]; [|done].
      destruct ((findFile has_def lowerPathIfInsensitive db path).1);
        [done|].
      destruct overdue; simpl; [done|]. intros [= <- <-]. eauto.
    + intros wf -> ->. split; intros ->; done.
Qed.
End findOrFail_properties.

(** * replyLocationLink *)

Section replyLocationLink_properties.
Context {LocationLink Location State : Type}.
Context (link_lt link_eqb : LocationLink -> LocationLink -> bool).
Context (to_Location : LocationLink -> Location).
Context (lt_irrefl : forall a, link_lt a a = false).
Context (lt_trans : forall a b c,
            link_lt a b = true -> link_lt b c = true -> link_lt a c = true).
Context (lt_negtrans : forall a b c,
            link_lt a b = false -> link_lt b c = false -> link_lt a c = false).
Context (eqb_equiv : forall a b,
            link_eqb a b = true <-> link_equiv link_lt a b).

Lemma lt_equiv_r a b c :
  link_lt a b = true -> link_lt c b = false -> link_lt a c = true.
Proof.
  intros Hab Hcb. destruct (link_lt a c) eqn:Hac; [done|].
  rewrite (lt_negtrans a c b Hac Hcb) in Hab. done.
Qed.

Lemma unique_after_spec last l :
  Forall (not_after link_lt last) l -> sorted_by link_lt l ->
  let u := unique_after link_eqb last l in
  Forall (fun b => link_lt last b = true) u /\ increasing link_lt u /\
  (forall a, a ∈ u -> a ∈ l) /\
  (forall c, c ∈ l -> link_equiv link_lt c last \/
                      exists a, a ∈ u /\ link_equiv link_lt c a).
Proof.
  cbv zeta. revert last. induction l as [|b l IH]; intros last Hlast Hs.
  - simpl. split; [constructor|]. split; [constructor|].
    split; by intros ? ?%elem_of_nil.
  - apply Forall_cons in Hlast as [Hb Hl].
    apply StronglySorted_cons in Hs as [Hbl Hs]. simpl.
    destruct (link_eqb last b) eqn:Heq.
    + apply eqb_equiv in Heq as [Heq1 Heq2].
      destruct (IH last Hl Hs) as (H1 & H2 & H3 & H4).
      split; [done|]. split; [done|]. split.
      * intros a Ha. right. auto.
      * intros c [->|Hc]%elem_of_cons; [by left|auto].
    + assert (link_lt last b = true) as Hlt.
      { destruct (link_lt last b) eqn:E; [done|].
        assert (link_eqb last b = true) by (by apply eqb_equiv).
        congruence. }
      destruct (IH b Hbl Hs) as (H1 & H2 & H3 & H4).
      split; [|split; [|split]].
      * constructor; [done|]. eapply Forall_impl; [exact H1|].
        intros c Hc. by eapply lt_trans.
      * by constructor.
      * intros a [->|Ha]%elem_of_cons; [by left|right; auto].
      * intros c [->|Hc]%elem_of_cons.
        -- right. exists b. split; [by left|]. by split.
        -- right. destruct (H4 c Hc) as [Hcb|(a & Ha & Hca)].
           ++ exists b. split; [by left|done].
           ++ exists a. split; [by right|done].
Qed.

Lemma std_unique_spec l :
  sorted_by link_lt l ->
  increasing link_lt (std_unique link_eqb l) /\
  (forall a, a ∈ std_unique link_eqb l -> a ∈ l) /\
  (forall c, c ∈ l -> exists a, a ∈ std_unique link_eqb l /\
                                link_equiv link_lt c a).
Proof.
  destruct l as [|h l]; intros Hs.
  - simpl. split; [constructor|]. split; by intros ? ?%elem_of_nil.
  - apply StronglySorted_cons in Hs as [Hh Hs]. simpl.
    destruct (unique_after_spec h l Hh Hs) as (H1 & H2 & H3 & H4).
    split; [by constructor|]. split.
    + intros a [->|Ha]%elem_of_cons; [by left|right; auto].
    + intros c [->|Hc]%elem_of_cons.
      * exists h. split; [by left|]. by split.
      * destruct (H4 c Hc) as [Hch|(a & Ha & Hca)].
        -- exists h. split; [by left|done].
        -- exists a. split; [by right|done].
Qed.

Lemma truncate_take cfg (l : list LocationLink) :
  truncate cfg l = take (maxNum cfg) l.
Proof. unfold truncate. case_decide; [done|]. by rewrite take_ge by lia. Qed.

Lemma increasing_NoDup (l : list LocationLink) : increasing link_lt l -> NoDup l.
Proof.
  induction 1 as [|a l Hs IH Ha]; constructor; [|done].
  intros Hin. rewrite Forall_forall in Ha. specialize (Ha a Hin).
  by rewrite lt_irrefl in Ha.
Qed.

Lemma lt_asym a b : link_lt a b = true -> link_lt b a = false.
Proof.
  intros Hab. destruct (link_lt b a) eqn:Hba; [|done].
  by rewrite <- (lt_irrefl a), (lt_trans a b a).
Qed.

Lemma eqb_of_lt a b : link_lt a b = true -> link_eqb a b = false.
Proof.
  intros Hab. destruct (link_eqb a b) eqn:E; [|done].
  apply eqb_equiv in E as [E _]. congruence.
Qed.

Lemma eqb_refl a : link_eqb a a = true.
Proof. apply eqb_equiv. by split. Qed.

#[local] Instance not_after_link_total : Total (not_after link_lt).
Proof.
  intros a b. unfold not_after. destruct (link_lt b a) eqn:E; [|by left].
  right. by apply lt_asym.
Qed.

#[local] Instance not_after_link_trans : Transitive (not_after link_lt).
Proof. intros a b c Hab Hbc. unfold not_after in *. by eapply lt_negtrans. Qed.

(** The sorted arrangement of five candidates of which one is a copy. *)
Lemma sorted_five a b c d sorted :
  link_lt a b = true -> link_lt b c = true -> link_lt c d = true ->
  sorted ≡ₚ [a; b; a; c; d] -> sorted_by link_lt sorted ->
  sorted = [a; a; b; c; d].
Proof.
  intros Hab Hbc Hcd Hp Hs.
  pose proof (lt_trans _ _ _ Hab Hbc) as Hac.
  pose proof (lt_trans _ _ _ Hbc Hcd) as Hbd.
  pose proof (lt_trans _ _ _ Hab Hbd) as Had.
  assert (Hp' : sorted ≡ₚ [a; a; b; c; d]).
  { rewrite Hp. apply perm_skip, perm_swap. }
  apply (StronglySorted_unique_strong (not_after link_lt)); try done.
  - intros x1 x2 H1 H2. rewrite Hp' in H1. unfold not_after.
    repeat (apply elem_of_cons in H1 as [->|H1]);
      try (by apply elem_of_nil in H1);
      repeat (apply elem_of_cons in H2 as [->|H2]);
      try (by apply elem_of_nil in H2); try done; congruence.
  - unfold not_after.
    repeat (constructor; [repeat constructor; auto using lt_asym|]).
    constructor.
Qed.

(** C6.  Whatever sorted arrangement [std::sort] leaves the candidates
    in, the list [L] that remains after [std::unique] is strictly
    increasing for the order of links, so that it is sorted and holds no
    two links that are [==]; every link of [L] is a candidate and every
    candidate is [==] to a link of [L].  The reply carries the first
    [maxNum] links of [L] (all of them when there are fewer): as they are
    when the client declared link support, each converted to a location
    otherwise.  For five candidates one of which is a copy of another and
    a maximum of three, the reply has exactly three entries, the three
    smallest candidates. *)
Theorem replyLocationLink_spec (cfg : XrefConfig)
    (candidates sorted : list LocationLink) (r : ReplyOnce)
    (w : @World (@LinkReply LocationLink Location) State) :
  sorted ≡ₚ candidates -> sorted_by link_lt sorted ->
  let L := std_unique link_eqb sorted in
  let R := take (maxNum cfg) L in
  increasing link_lt L /\ NoDup L /\
  (forall a b, a ∈ L -> b ∈ L -> link_eqb a b = true -> a = b) /\
  (forall a, a ∈ L -> a ∈ candidates) /\
  (forall c, c ∈ candidates -> exists a, a ∈ L /\ link_eqb c a = true) /\
  length R = Nat.min (maxNum cfg) (length L) /\
  link_reply link_eqb to_Location cfg sorted =
    (if linkSupport cfg then RichLinks R
     else PlainLocations (to_Location <$> R)) /\
  (std_sort link_lt candidates ≡ₚ candidates /\
   sorted_by link_lt (std_sort link_lt candidates) /\
   replyLocationLink link_lt link_eqb to_Location cfg r candidates w =
     mkWorld (sent w ++
              [Reply (reply_id r)
                 (link_reply link_eqb to_Location cfg
                    (std_sort link_lt candidates))])
             (state w)) /\
  (forall a b c d,
     link_lt a b = true -> link_lt b c = true -> link_lt c d = true ->
     candidates ≡ₚ [a; b; a; c; d] -> maxNum cfg = 3%nat ->
     R = [a; b; c] /\ length R = 3%nat /\
     length (to_Location <$> R) = 3%nat).
Proof.
  intros Hp Hs L R.
  destruct (std_unique_spec sorted Hs) as (H1 & H2 & H3). fold L in H1, H2, H3.
  split; [done|]. split; [by apply increasing_NoDup|].
  split; [|split; [|split; [|split; [|split; [|split]]]]].
  - intros a b Ha Hb Heq.
    destruct (StronglySorted_elem _ _ _ _ H1 Ha Hb) as [->|[Hlt|Hlt]]; [done|..].
    + by rewrite (eqb_of_lt _ _ Hlt) in Heq.
    + apply eqb_equiv in Heq as [_ Heq]. congruence.
  - intros a Ha. rewrite <- Hp. auto.
  - intros c Hc. rewrite <- Hp in Hc. destruct (H3 c Hc) as (a & Ha & Hca).
    exists a. split; [done|]. by apply eqb_equiv.
  - subst R. by rewrite length_take.
  - unfold link_reply. by rewrite truncate_take.
  - split; [apply std_sort_perm|]. split; [|done].
    apply StronglySorted_merge_sort; apply _.
  - intros a b c d Hab Hbc Hcd Hc Hmax.
    assert (sorted = [a; a; b; c; d]) as Hsorted.
    { apply sorted_five; [done..| |done]. by rewrite Hp. }
    assert (R = [a; b; c]) as ->.
    { subst R L. rewrite Hsorted, Hmax. simpl.
      rewrite eqb_refl, (eqb_of_lt _ _ Hab), (eqb_of_lt _ _ Hbc),
        (eqb_of_lt _ _ Hcd). done. }
    done.
Qed.
End replyLocationLink_properties.

(** ** The sample links *)

Lemma lex_ltb_lt k1 k2 : lex_ltb k1 k2 = true <-> lex_lt k1 k2.
Proof.
  revert k2. induction k1 as [|x k1 IH]; intros [|y k2]; simpl; try easy.
  rewrite orb_true_iff, andb_true_iff, Z.ltb_lt, Z.eqb_eq, IH. done.
Qed.

Lemma SampleLink_lt_spec a b :
  SampleLink_lt a b = true <->
  ~ String.le (targetUri b) (targetUri a) \/
  (targetUri a = targetUri b /\ lex_lt (SampleLink_key a) (SampleLink_key b)).
Proof.
  unfold SampleLink_lt, String.le.
  destruct (String.eqb_spec (targetUri a) (targetUri b)) as [->|Hne];
    cbn [negb].
  - rewrite lex_ltb_lt. split; [by right|]. intros [H|[_ H]]; [|done].
    exfalso. apply H. apply (reflexivity (R := String.le)).
  - rewrite negb_true_iff. split.
    + intros H. left. rewrite H. intros [].
    + intros [H|[? _]]; [|done].
      destruct (String.leb (targetUri b) (targetUri a)); [|done].
      exfalso. by apply H.
Qed.

Lemma SampleLink_lt_false a b :
  SampleLink_lt a b = false <->
  String.le (targetUri b) (targetUri a) /\
  (targetUri a = targetUri b ->
   ~ lex_lt (SampleLink_key a) (SampleLink_key b)).
Proof.
  pose proof (SampleLink_lt_spec a b) as H.
  destruct (SampleLink_lt a b).
  - split; [done|]. intros [H1 H2]. exfalso. destruct H as [H _].
    destruct (H eq_refl) as [Hn|[He Hl]]; [by apply Hn|by apply H2].
  - split; [|done]. intros _. destruct H as [_ H]. split.
    + destruct (decide (String.le (targetUri b) (targetUri a))); [done|].
      by discriminate H; left.
    + intros He Hl. by discriminate H; right.
Qed.

Lemma SampleLink_lt_irrefl a : SampleLink_lt a a = false.
Proof.
  apply SampleLink_lt_false. split; [apply (reflexivity (R := String.le))|].
  intros _. unfold SampleLink_key, lsRange_key; simpl. lia.
Qed.

Lemma SampleLink_lt_trans a b c :
  SampleLink_lt a b = true -> SampleLink_lt b c = true ->
  SampleLink_lt a c = true.
Proof.
  rewrite !SampleLink_lt_spec.
  pose proof (total String.le (targetUri a) (targetUri b)) as T1.
  pose proof (total String.le (targetUri b) (targetUri c)) as T2.
  intros [H1|[E1 L1]] [H2|[E2 L2]].
  - left. intros H. apply H2.
    transitivity (targetUri a); [done|]. by destruct T1.
  - left. by rewrite <- E2.
  - left. by rewrite E1.
  - right. split; [congruence|].
    revert L1 L2. unfold SampleLink_key, lsRange_key; simpl. lia.
Qed.

Lemma SampleLink_lt_negtrans a b c :
  SampleLink_lt a b = false -> SampleLink_lt b c = false ->
  SampleLink_lt a c = false.
Proof.
  rewrite !SampleLink_lt_false. intros [H1 L1] [H2 L2]. split.
  - by transitivity (targetUri b).
  - intros E. rewrite <- E in H2.
    assert (targetUri a = targetUri b) as E1
      by (by apply (anti_symm String.le)).
    assert (targetUri b = targetUri c) as E2 by congruence.
    specialize (L1 E1). specialize (L2 E2). revert L1 L2.
    unfold SampleLink_key, lsRange_key; simpl. lia.
Qed.

Lemma SampleLink_eqb_equiv a b :
  SampleLink_eqb a b = true <-> link_equiv SampleLink_lt a b.
Proof.
  unfold SampleLink_eqb, link_equiv.
  rewrite andb_true_iff, !negb_true_iff. done.
Qed.

(** The scenario on the sample links: five candidates, the third a copy of
    the first, and at most three results. *)
Example replyLocationLink_five :
  link_reply SampleLink_eqb SampleLink_to_Location (mkXrefConfig 3 true)
             (std_sort SampleLink_lt five_candidates)
  = RichLinks [sample_link "a.cc" 2; sample_link "a.cc" 30;
               sample_link "b.cc" 7] /\
  link_reply SampleLink_eqb SampleLink_to_Location (mkXrefConfig 3 false)
             (std_sort SampleLink_lt five_candidates)
  = PlainLocations
      [mkLocation "a.cc" (mklsRange (mkPosition 2 4) (mkPosition 2 9));
       mkLocation "a.cc" (mklsRange (mkPosition 30 4) (mkPosition 30 9));
       mkLocation "b.cc" (mklsRange (mkPosition 7 4) (mkPosition 7 9))].
Proof. split; vm_compute; reflexivity. Qed.

(** * Selection of the occurrences to highlight *)

(** ** Strings *)

Lemma string_app_cons x (a b : string) : String x a +:+ b = String x (a +:+ b).
Proof. reflexivity. Qed.

Lemma string_app_nil_l (a : string) : "" +:+ a = a.
Proof. reflexivity. Qed.

Lemma string_length_app (a b : string) :
  String.length (a +:+ b) = (String.length a + String.length b)%nat.
Proof.
  induction a as [|x a IH]; [done|].
  rewrite string_app_cons. simpl. by rewrite IH.
Qed.

Lemma substring_0_0 s : substring 0 0 s = "".
Proof. by destruct s. Qed.

Lemma substring_middle pre t post :
  substring (String.length pre) (String.length t) (pre +:+ t +:+ post) = t.
Proof.
  induction pre as [|x pre IH].
  - rewrite string_app_nil_l. simpl String.length.
    induction t as [|y t IHt]; [apply substring_0_0|].
    rewrite string_app_cons. simpl. by rewrite IHt.
  - rewrite string_app_cons. simpl. exact IH.
Qed.

Lemma substring_split s n m :
  (n + m <= String.length s)%nat ->
  exists pre post,
    s = pre +:+ substring n m s +:+ post /\ String.length pre = n /\
    String.length (substring n m s) = m.
Proof.
  revert n m. induction s as [|x s IH]; intros n m Hlen; simpl in Hlen.
  - assert (n = O) as -> by lia. assert (m = O) as -> by lia.
    exists "", "". done.
  - destruct n as [|n].
    + destruct m as [|m].
      * exists "", (String x s). done.
      * destruct (IH O m) as (pre & post & Hs & Hpre & Hm); [lia|].
        destruct pre; [|done]. exists "", post.
        rewrite string_app_nil_l in *. simpl.
        rewrite string_app_cons, <- Hs, Hm. done.
    + destruct (IH n m) as (pre & post & Hs & Hpre & Hm); [lia|].
      exists (String x pre), post. simpl.
      rewrite string_app_cons, <- Hs, Hpre, Hm. done.
Qed.

(** The comparison of line 331 succeeds exactly when the text at the
    column is the name. *)
Lemma text_at_compare text col name :
  0 <= col <= 32767 -> fits_size_t name ->
  ((to_size_t (col + Z.of_nat (String.length name))
      <=? Z.of_nat (String.length text)) = true /\
   sv_compare_eq text (to_size_t col) (Z.of_nat (String.length name)) name
     = Returned _ true) <->
  exists pre post,
    text = pre +:+ name +:+ post /\ Z.of_nat (String.length pre) = col.
Proof.
  intros Hcol Hfit. unfold fits_size_t in Hfit.
  assert (Hs1 : to_size_t col = col).
  { unfold to_size_t. apply Z.mod_small. lia. }
  assert (Hs2 : to_size_t (col + Z.of_nat (String.length name))
                = col + Z.of_nat (String.length name)).
  { unfold to_size_t. apply Z.mod_small. lia. }
  rewrite Hs1, Hs2. unfold sv_compare_eq, sv_substr. rewrite Nat2Z.id. split.
  - intros [Hle Hcmp]. apply Z.leb_le in Hle.
    destruct (Z.ltb_spec (Z.of_nat (String.length text)) col); [done|].
    injection Hcmp as Heq. apply String.eqb_eq in Heq.
    destruct (substring_split text (Z.to_nat col) (String.length name))
      as (pre & post & Ht & Hpre & _); [lia|].
    exists pre, post. rewrite Heq in Ht. split; [done|lia].
  - intros (pre & post & -> & <-). rewrite !string_length_app. split.
    + apply Z.leb_le. lia.
    + destruct (Z.ltb_spec
                  (Z.of_nat (String.length pre +
                             (String.length name + String.length post)))
                  (Z.of_nat (String.length pre))); [lia|].
      rewrite Nat2Z.id, substring_middle, String.eqb_refl. done.
Qed.

Lemma operator_compare name :
  sv_compare_eq name 0 8 "operator" = Returned _ (String.prefix "operator" name).
Proof.
  unfold sv_compare_eq, sv_substr.
  destruct (Z.ltb_spec (Z.of_nat (String.length name)) 0); [lia|].
  f_equal. change (Z.to_nat 0) with O. change (Z.to_nat 8) with 8%nat.
  pose proof (String.prefix_correct "operator" name) as Hp.
  simpl String.length in Hp.
  destruct (String.prefix "operator" name).
  - apply String.eqb_eq. by apply Hp.
  - apply String.eqb_neq. intros Heq. apply Hp in Heq. done.
Qed.

(** C7.  The code misses what the claim says where the recomputed column
    leaves the range of the column type.  In [long_file] the name [foo]
    stands at column 32765 of line 0, so that the occurrence is to end at
    column 32768; the assignment of line 333 narrows that sum to the
    16-bit column and stores -32768.  The occurrence is kept with a range
    that ends before it starts, and with a buffer in step with the index
    the symbol is left without any range and is not published: the name
    that is there loses its highlight. *)
Theorem end_column_wraps :
  text_at (index_lines long_file) 0 32765 "foo" /\
  classify_func foo_index long_file foo_occurrence =
    Returned _ (Keep (set_range_end foo_occurrence (mkPos 0 (-32768)))
                     0 3 12 0) /\
  Pos_column (Range_start (sym_range foo_occurrence)) +
    Z.of_nat (String.length (concise_name (func_name foo_def))) = 32768 /\
  group_symbols same_range foo_index long_file [] [(foo_occurrence, 1)] =
    Returned _
      [(mkSymbolIdx 1 Kind_Func,
        mkSymbol 0 3 12 0 []
          [mklsRange (mkPosition 0 32765) (mkPosition 0 (-32768))])] /\
  emitSemanticHighlight same_range (fun _ => true) (fun p => p)
      default_highlight foo_index long_file "long.cc" [(foo_occurrence, 1)]
    = Returned _ (Some (mkHighlight "long.cc" [])) /\
  ~ (forall db wfile sym def sym' idx pk k st,
       funcs_anyDef db (func_usr db (sym_usr sym)) = Some def ->
       classify_func db wfile sym = Returned _ (Keep sym' idx pk k st) ->
       Pos_column (Range_end (sym_range sym')) =
       Pos_column (Range_start (sym_range sym)) +
       Z.of_nat (String.length (concise_name (func_name def)))).
Proof.
  assert (Hc : classify_func foo_index long_file foo_occurrence =
               Returned _ (Keep (set_range_end foo_occurrence (mkPos 0 (-32768)))
                                0 3 12 0)) by (vm_compute; reflexivity).
  split; [|split; [exact Hc|split; [reflexivity|split; [|split]]]].
  - exists long_line, (blanks (Z.to_nat 32765)), "();".
    split; [lia|]. split; [reflexivity|]. split; [reflexivity|].
    assert (forall n, String.length (blanks n) = n) as Hlen
      by (induction n; simpl; congruence).
    rewrite Hlen. lia.
  - vm_compute. reflexivity.
  - vm_compute. reflexivity.
  - intros H. specialize (H foo_index long_file foo_occurrence foo_def
                            _ _ _ _ _ eq_refl Hc).
    vm_compute in H. discriminate.
Qed.

Lemma classify_func_cases (db : SymbolIndex) (wfile : WorkingFile)
    (sym : SymbolRef) (def : FuncDef) :
  funcs_anyDef db (func_usr db (sym_usr sym)) = Some def ->
  let name := concise_name (func_name def) in
  let first := Range_start (sym_range sym) in
  let size := Z.of_nat (String.length name) in
  Pos_wf first -> Pos_valid first = true -> fits_size_t name ->
  (text_at (index_lines wfile) (Pos_line first) (Pos_column first) name /\
   String.prefix "operator" (func_name def) = false /\
   classify_func db wfile sym =
     Returned _
       (Keep (set_range_end sym
                (mkPos (Pos_line first) (to_int16 (Pos_column first + size))))
             (func_usr db (sym_usr sym))
             (func_parent_kind def) (func_kind def) (func_storage def))) \/
  ((~ text_at (index_lines wfile) (Pos_line first) (Pos_column first) name \/
    String.prefix "operator" (func_name def) = true \/
    Z.of_nat (length (index_lines wfile)) <= Pos_line first) /\
   classify_func db wfile sym = Returned _ Skip).
Proof.
  intros Hdef name first size [Hline Hcolr] Hvalid Hfit.
  unfold Pos_valid in Hvalid. apply Z.leb_le in Hvalid.
  assert (Hcol : 0 <= Pos_column first <= 32767) by lia.
  assert (Hsz : to_size_t (Pos_column first + size) = Pos_column first + size).
  { unfold to_size_t, fits_size_t in *. apply Z.mod_small. lia. }
  assert (Htext : forall text,
    index_lines wfile !! Z.to_nat (Pos_line first) = Some text ->
    ((to_size_t (Pos_column first + size)
        <=? Z.of_nat (String.length text)) = true /\
     sv_compare_eq text (to_size_t (Pos_column first)) size name
       = Returned _ true) <->
    text_at (index_lines wfile) (Pos_line first) (Pos_column first) name).
  { intros text Ht.
    etransitivity;
      [apply (text_at_compare text (Pos_column first) name Hcol Hfit)|].
    unfold text_at. split.
    - intros (pre & post & ? & ?). exists text, pre, post.
      repeat split; auto; lia.
    - intros (text' & pre & post & _ & Ht' & ? & ?).
      assert (text' = text) as -> by congruence. eauto. }
  assert (Hnone :
    index_lines wfile !! Z.to_nat (Pos_line first) = None ->
    ~ text_at (index_lines wfile) (Pos_line first) (Pos_column first) name).
  { intros Hn (text & ? & ? & _ & Ht & _). congruence. }
  unfold classify_func. rewrite Hdef, operator_compare. cbv zeta.
  fold name first size.
  destruct (String.prefix "operator" (func_name def)) eqn:Hop.
  { right. split; [right; by left|done]. }
  destruct (Z.leb_spec (Z.of_nat (length (index_lines wfile)))
              (Pos_line first)) as [Hge|Hlt].
  { right. split; [right; by right|done]. }
  destruct (index_lines wfile !! Z.to_nat (Pos_line first)) as [text|] eqn:Ht.
  2:{ apply lookup_ge_None in Ht. lia. }
  specialize (Htext text eq_refl).
  destruct (to_size_t (Pos_column first + size)
              <=? Z.of_nat (String.length text)) eqn:Hle.
  2:{ right. split; [left|done]. intros Hat. apply Htext in Hat as [? _].
      done. }
  destruct (sv_compare_eq text (to_size_t (Pos_column first)) size name)
    as [[|]|e] eqn:Hsv.
  - left. split; [by apply Htext|]. split; [done|]. by rewrite Hsz.
  - right. split; [left|done]. intros Hat. apply Htext in Hat as [_ ?].
    done.
  - exfalso. revert Hsv. unfold sv_compare_eq, sv_substr.
    apply Z.leb_le in Hle. rewrite Hsz in Hle.
    assert (to_size_t (Pos_column first) = Pos_column first) as ->.
    { unfold to_size_t. apply Z.mod_small. lia. }
    destruct (Z.ltb_spec (Z.of_nat (String.length text))
                (Pos_column first)); [lia|done].
Qed.

(** The name check of the function case.  For a function occurrence with
    a valid start whose symbol has a definition: it is kept only if the
    text of the line of its start, from the start column on, is the
    concise name (and the name does not begin with "operator"), and then
    it is kept; when kept, its end is moved to the line of the start and
    to the column that is the start column plus the length of the concise
    name narrowed to the 16-bit column type, which is that sum whenever
    the sum is a column that a position can hold; when the text is not the
    name, the occurrence is skipped and leaves the grouped symbols as they
    were. *)
Theorem function_name_check (db : SymbolIndex) (wfile : WorkingFile)
    (sym : SymbolRef) (def : FuncDef) :
  funcs_anyDef db (func_usr db (sym_usr sym)) = Some def ->
  let name := concise_name (func_name def) in
  let first := Range_start (sym_range sym) in
  let size := Z.of_nat (String.length name) in
  Pos_wf first -> Pos_valid first = true -> fits_size_t name ->
  (forall sym' idx pk k st,
     classify_func db wfile sym = Returned _ (Keep sym' idx pk k st) ->
     text_at (index_lines wfile) (Pos_line first) (Pos_column first) name /\
     String.prefix "operator" (func_name def) = false /\
     Range_start (sym_range sym') = first /\
     Range_end (sym_range sym') =
       mkPos (Pos_line first) (to_int16 (Pos_column first + size)) /\
     (Pos_column first + size <= 32767 ->
      Range_end (sym_range sym') =
        mkPos (Pos_line first) (Pos_column first + size))) /\
  (text_at (index_lines wfile) (Pos_line first) (Pos_column first) name ->
   String.prefix "operator" (func_name def) = false ->
   exists sym' idx pk k st,
     classify_func db wfile sym = Returned _ (Keep sym' idx pk k st)) /\
  (~ text_at (index_lines wfile) (Pos_line first) (Pos_column first) name ->
   classify_func db wfile sym = Returned _ Skip /\
   forall getLsRange grouped refcnt,
     sym_kind sym = Kind_Func ->
     group_occurrence getLsRange db wfile grouped (sym, refcnt)
       = Returned _ grouped).
Proof.
  intros Hdef name first size Hwf Hvalid Hfit.
  pose proof (classify_func_cases db wfile sym def Hdef Hwf Hvalid Hfit)
    as Hcases. fold name first size in Hcases.
  assert (Hcol : 0 <= Pos_column first).
  { unfold Pos_valid in Hvalid. by apply Z.leb_le in Hvalid. }
  split; [|split].
  - intros sym' idx pk k st Hk.
    destruct Hcases as [(Hat & Hop & Hc)|[_ Hc]]; [|congruence].
    rewrite Hc in Hk. injection Hk as <- <- <- <- <-.
    repeat split; auto. intros Hfits. simpl. f_equal.
    unfold to_int16. rewrite Z.mod_small by lia. lia.
  - intros Hat Hop. destruct Hcases as [(_ & _ & Hc)|[[Hn|[Hn|Hn]] _]];
      [eauto 10|done|congruence|].
    exfalso. destruct Hat as (text & ? & ? & ? & Ht & _).
    apply lookup_lt_Some in Ht. lia.
  - intros Hn. destruct Hcases as [(Hat & _)|[_ Hc]]; [done|].
    split; [done|]. intros getLsRange grouped refcnt Hkind.
    unfold group_occurrence, classify. simpl. rewrite Hkind, Hc.
    by destruct (refcnt <=? 0).
Qed.

(** ** Grouping *)

Lemma classify_keep db wfile sym sym' idx pk k st :
  classify db wfile sym = Returned _ (Keep sym' idx pk k st) ->
  SymbolRef_idx sym' = SymbolRef_idx sym /\
  not_an_operator db (SymbolRef_idx sym).
Proof.
  unfold classify, not_an_operator. destruct (sym_kind sym) eqn:Hk; try done.
  - intros [= <- _ _ _ _]. split; [done|]. simpl. by rewrite Hk.
  - unfold classify_func.
    destruct (funcs_anyDef db (func_usr db (sym_usr sym))) as [def|] eqn:Hdef;
      [|done].
    rewrite operator_compare.
    destruct (String.prefix "operator" (func_name def)) eqn:Hop; [done|].
    destruct (_ <=? _); [done|].
    destruct (index_lines wfile !! _); [|done].
    destruct (_ <=? _); [|done].
    destruct (sv_compare_eq _ _ _ _) as [[|]|]; try done.
    intros [= <- _ _ _ _]. split; [done|]. simpl. eauto.
  - intros [= <- _ _ _ _]. split; [done|]. simpl. by rewrite Hk.
Qed.

Lemma add_grouped_elem grouped key loc idx pk k st key' s' loc' :
  (key', s') ∈ add_grouped grouped key loc (mkSymbol idx pk k st [] [loc]) ->
  loc' ∈ lsRanges s' ->
  (exists s0, (key', s0) ∈ grouped /\ loc' ∈ lsRanges s0) \/
  (key' = key /\ loc' = loc).
Proof.
  induction grouped as [|[k0 s0] grouped IH]; simpl.
  - intros [= -> ->]%list_elem_of_singleton Hloc. simpl in Hloc.
    apply list_elem_of_singleton in Hloc. by right.
  - case_decide as Hk.
    + intros [Heq|Hin]%elem_of_cons Hloc.
      * injection Heq as ? ?. subst key' s' k0. simpl in Hloc.
        apply elem_of_app in Hloc as [Hloc|Hloc].
        -- left. exists s0. split; [by left|done].
        -- apply list_elem_of_singleton in Hloc. by right.
      * left. exists s'. split; [by right|done].
    + intros [Heq|Hin]%elem_of_cons Hloc.
      * injection Heq as ? ?. subst key' s'.
        left. exists s0. split; [by left|done].
      * destruct (IH Hin Hloc) as [(s1 & H1 & H2)|H1]; [|by right].
        left. exists s1. split; [by right|done].
Qed.

Lemma add_grouped_nonempty grouped key loc fresh :
  (forall e, e ∈ grouped -> lsRanges e.2 <> []) -> lsRanges fresh <> [] ->
  forall e, e ∈ add_grouped grouped key loc fresh -> lsRanges e.2 <> [].
Proof.
  intros Hg Hf. induction grouped as [|[k0 s0] grouped IH]; simpl.
  - intros e He%list_elem_of_singleton. by subst e.
  - case_decide.
    + intros e [->|He]%elem_of_cons.
      * simpl. by destruct (lsRanges s0).
      * apply Hg. by right.
    + intros e [->|He]%elem_of_cons.
      * apply (Hg (k0, s0)). by left.
      * apply IH; [|done]. intros e' He'. apply Hg. by right.
Qed.

Section grouping_properties.
Context (getLsRange : WorkingFile -> Range -> option lsRange).
Context (db : SymbolIndex) (wfile : WorkingFile).

Lemma group_occurrence_nonpositive grouped sym refcnt :
  refcnt <= 0 ->
  group_occurrence getLsRange db wfile grouped (sym, refcnt)
    = Returned _ grouped.
Proof.
  intros H. unfold group_occurrence. simpl.
  by destruct (Z.leb_spec refcnt 0); [|lia].
Qed.

Lemma group_symbols_positive grouped occs :
  group_symbols getLsRange db wfile grouped occs =
  group_symbols getLsRange db wfile grouped
                (filter (fun o => 0 < o.2) occs).
Proof.
  revert grouped. induction occs as [|[sym refcnt] occs IH]; intros grouped;
    [done|].
  rewrite filter_cons. simpl. case_decide as Hpos.
  - simpl. destruct (group_occurrence _ _ _ _ _); [|done]. apply IH.
  - rewrite group_occurrence_nonpositive by lia. apply IH.
Qed.

Lemma group_occurrence_ok occs grouped occ grouped' :
  occ ∈ occs -> grouped_ok getLsRange db wfile occs grouped ->
  group_occurrence getLsRange db wfile grouped occ = Returned _ grouped' ->
  grouped_ok getLsRange db wfile occs grouped'.
Proof.
  destruct occ as [sym refcnt]. intros Hin Hok. unfold group_occurrence.
  simpl. destruct (Z.leb_spec refcnt 0) as [|Hpos]; [by intros [= <-]|].
  destruct (classify db wfile sym) as [[|sym' idx pk k st]|] eqn:Hc;
    [by intros [= <-]| |done].
  destruct (getLsRange wfile (sym_range sym')) as [loc|] eqn:Hloc;
    [|by intros [= <-]].
  intros [= <-]. destruct (classify_keep _ _ _ _ _ _ _ _ Hc) as [Hkey Hop].
  intros key s Hs. split; [|split].
  - eapply (add_grouped_nonempty grouped _ _ _ _ _ (key, s) Hs).
    Unshelve.
    + intros [k0 s0] H0. by apply (Hok k0 s0).
    + done.
  - destruct (lsRanges s) as [|loc0 ?] eqn:Hl.
    { exfalso.
      eapply (add_grouped_nonempty grouped _ _ _ _ _ (key, s) Hs); eauto.
      Unshelve.
      - intros [k0 s0] H0. by apply (Hok k0 s0).
      - done. }
    destruct (add_grouped_elem _ _ _ _ _ _ _ _ _ loc0 Hs)
      as [(s0 & H0 & _)|[-> _]].
    + rewrite Hl. by left.
    + by apply (Hok key s0).
    + by rewrite Hkey.
  - intros loc' Hloc'.
    destruct (add_grouped_elem _ _ _ _ _ _ _ _ _ loc' Hs Hloc')
      as [(s0 & H0 & H1)|[-> ->]].
    + by apply (Hok key s0).
    + exists sym, refcnt, sym', idx, pk, k, st. by rewrite <- Hkey.
Qed.

Lemma group_symbols_ok all occs grouped grouped' :
  (forall occ, occ ∈ occs -> occ ∈ all) -> grouped_ok getLsRange db wfile all grouped ->
  group_symbols getLsRange db wfile grouped occs = Returned _ grouped' ->
  grouped_ok getLsRange db wfile all grouped'.
Proof.
  revert grouped. induction occs as [|occ occs IH]; intros grouped Hsub Hok.
  - by intros [= <-].
  - simpl.
    destruct (group_occurrence getLsRange db wfile grouped occ)
      as [grouped1|] eqn:Hg; [|done].
    apply IH.
    + intros o Ho. apply Hsub. by right.
    + eapply group_occurrence_ok; [|done|done]. apply Hsub. by left.
Qed.
End grouping_properties.

Lemma substring_length_le n m s :
  (String.length (substring n m s) <= String.length s)%nat.
Proof.
  revert n m. induction s as [|x s IH]; intros n m.
  - by destruct n, m.
  - destruct n as [|n]; simpl.
    + destruct m as [|m]; simpl; [lia|]. specialize (IH O m). lia.
    + specialize (IH n m). lia.
Qed.

Lemma concise_name_fits name : fits_size_t name -> fits_size_t (concise_name name).
Proof.
  unfold fits_size_t, concise_name. intros H.
  destruct (index 0 "<" name); [|done].
  pose proof (substring_length_le 0 n name). lia.
Qed.

Lemma classify_returns db wfile sym :
  (sym_kind sym = Kind_Func ->
   Pos_wf (Range_start (sym_range sym)) /\
   Pos_valid (Range_start (sym_range sym)) = true) ->
  (forall idx def, funcs_anyDef db idx = Some def ->
                   fits_size_t (func_name def)) ->
  exists c, classify db wfile sym = Returned _ c.
Proof.
  intros Hpos Hfit. unfold classify. destruct (sym_kind sym); eauto.
  destruct (Hpos eq_refl) as [Hwf Hvalid].
  destruct (funcs_anyDef db (func_usr db (sym_usr sym))) as [def|] eqn:Hdef.
  - destruct (classify_func_cases db wfile sym def Hdef Hwf Hvalid)
      as [(_ & _ & ->)|[_ ->]]; eauto.
    eapply concise_name_fits, Hfit; eauto.
  - unfold classify_func. rewrite Hdef. eauto.
Qed.

Lemma group_symbols_returns getLsRange db wfile grouped occs :
  (forall sym refcnt, (sym, refcnt) ∈ occs -> sym_kind sym = Kind_Func ->
     Pos_wf (Range_start (sym_range sym)) /\
     Pos_valid (Range_start (sym_range sym)) = true) ->
  (forall idx def, funcs_anyDef db idx = Some def ->
                   fits_size_t (func_name def)) ->
  exists grouped',
    group_symbols getLsRange db wfile grouped occs = Returned _ grouped'.
Proof.
  intros Hpos Hfit. revert grouped.
  induction occs as [|[sym refcnt] occs IH]; intros grouped; simpl; [eauto|].
  assert (exists g, group_occurrence getLsRange db wfile grouped (sym, refcnt)
                    = Returned _ g) as [g ->].
  { unfold group_occurrence. simpl. destruct (refcnt <=? 0); [eauto|].
    destruct (classify_returns db wfile sym) as [c ->]; [|done|].
    - intros Hk. apply (Hpos sym refcnt); [by left|done].
    - destruct c; [eauto|]. destruct (getLsRange _ _); eauto. }
  apply IH. intros s r Hin. apply (Hpos s r). by right.
Qed.

(** ** The symbols published *)

Lemma resolve_overlaps_returns tbl :
  exists out, resolve_overlaps tbl = Some out /\ same_symbols tbl out.
Proof.
  unfold resolve_overlaps. rewrite build_events_eq. simpl.
  eexists. split; [|apply same_symbols_apply_log].
  eapply scan_line_spec. rewrite length_fmap.
  eapply events_wf_perm; [|apply events_from_wf].
  symmetry. apply std_sort_perm.
Qed.

Lemma symbol_attrs_clear s : symbol_attrs (clear_lsRanges s) = symbol_attrs s.
Proof. done. Qed.

Lemma same_symbols_attrs tbl out :
  same_symbols tbl out -> symbol_attrs <$> out = symbol_attrs <$> tbl.
Proof.
  unfold same_symbols. intros H.
  apply (f_equal (fmap symbol_attrs)) in H.
  by rewrite <- !list_fmap_compose in H.
Qed.

Lemma attrs_alter (f : CclsSemanticHighlightSymbol -> CclsSemanticHighlightSymbol)
    k (t : SymbolTable) :
  (forall s, symbol_attrs (f s) = symbol_attrs s) ->
  symbol_attrs <$> alter f k t = symbol_attrs <$> t.
Proof.
  intros Hf. apply list_eq. intros j. rewrite !list_lookup_fmap.
  destruct (decide (j = k)) as [->|Hne].
  - rewrite list_lookup_alter_eq. destruct (t !! k); simpl; [|done].
    by rewrite Hf.
  - by rewrite list_lookup_alter_ne.
Qed.

Lemma project_entry_attrs buf acc entry :
  symbol_attrs <$> (project_entry buf acc entry).2 = symbol_attrs <$> acc.2.
Proof.
  destruct acc as [s tbl]. unfold project_entry.
  destruct (mov buf _ _ s) as [s1 [|]]; [done|].
  destruct (mov buf _ _ s1) as [s2 [|]]; [done|].
  simpl. by apply attrs_alter.
Qed.

Lemma project_fold_attrs buf acc scratch :
  symbol_attrs <$> (foldl (project_entry buf) acc scratch).2
  = symbol_attrs <$> acc.2.
Proof.
  revert acc. induction scratch as [|e scratch IH]; intros acc; [done|].
  simpl. by rewrite IH, project_entry_attrs.
Qed.

Lemma project_sorted_attrs buf tbl scratch :
  symbol_attrs <$> project_sorted buf tbl scratch = symbol_attrs <$> tbl.
Proof.
  unfold project_sorted. rewrite project_fold_attrs. simpl.
  by rewrite <- list_fmap_compose.
Qed.

Section emit_properties.
Context (getLsRange : WorkingFile -> Range -> option lsRange).
Context (matches : string -> bool) (fromPath : string -> string).
Context (cfg : HighlightConfig).
Context (db : SymbolIndex) (wfile : WorkingFile).

Lemma published_symbol path occs hl s :
  emitSemanticHighlight getLsRange matches fromPath cfg db wfile path occs
    = Returned _ (Some hl) ->
  s ∈ hl_symbols hl ->
  exists grouped key s0,
    group_symbols getLsRange db wfile [] occs = Returned _ grouped /\
    (key, s0) ∈ grouped /\ symbol_attrs s = symbol_attrs s0.
Proof.
  unfold emitSemanticHighlight. destruct (_ || _); [done|].
  destruct (group_symbols getLsRange db wfile [] occs) as [grouped|];
    [|done].
  destruct (resolve_overlaps_returns grouped.*2) as (out & -> & Hsame).
  intros [= <-]. simpl. intros Hs%list_elem_of_In.
  apply filter_In in Hs as [Hs%list_elem_of_In _].
  apply list_elem_of_lookup_1 in Hs as [k Hk].
  assert (symbol_attrs <$>
            (if highlight_lsRanges cfg then out
             else project_offsets (buffer_content wfile) out)
          = symbol_attrs <$> grouped.*2) as Hattrs.
  { destruct (highlight_lsRanges cfg).
    - by apply same_symbols_attrs.
    - unfold project_offsets. rewrite project_sorted_attrs.
      by apply same_symbols_attrs. }
  apply (f_equal (fun l => l !! k)) in Hattrs.
  rewrite !list_lookup_fmap, Hk in Hattrs. simpl in Hattrs.
  destruct (grouped !! k) as [[key s0]|] eqn:Hg; [|done].
  simpl in Hattrs.
  exists grouped, key, s0. split; [done|]. split; [|congruence].
  by eapply list_elem_of_lookup_2.
Qed.

(** C8.  An occurrence whose reference count is not positive leaves the
    grouped symbols as they are, so that grouping all occurrences is
    grouping those with a positive count, and every range of a grouped
    symbol comes from an occurrence with a positive count.  A function
    occurrence whose short name begins with "operator" leaves the grouped
    symbols as they are whatever its count; every grouped function symbol
    has a definition whose short name does not begin with "operator"; and
    every symbol published carries the attributes of such a grouped
    symbol.  A file whose only occurrence is that of [operator==], with
    three references, publishes no symbol. *)
Theorem highlight_filters (path : string) (occs : list (SymbolRef * Z)) :
  (forall grouped sym refcnt, refcnt <= 0 ->
     group_occurrence getLsRange db wfile grouped (sym, refcnt)
       = Returned _ grouped) /\
  group_symbols getLsRange db wfile [] occs =
    group_symbols getLsRange db wfile [] (filter (fun o => 0 < o.2) occs) /\
  (forall grouped sym refcnt def,
     sym_kind sym = Kind_Func ->
     funcs_anyDef db (func_usr db (sym_usr sym)) = Some def ->
     String.prefix "operator" (func_name def) = true ->
     group_occurrence getLsRange db wfile grouped (sym, refcnt)
       = Returned _ grouped) /\
  (forall grouped key s,
     group_symbols getLsRange db wfile [] occs = Returned _ grouped ->
     (key, s) ∈ grouped ->
     not_an_operator db key /\
     forall loc, loc ∈ lsRanges s ->
       from_occurrence getLsRange db wfile occs key loc) /\
  (forall hl s,
     emitSemanticHighlight getLsRange matches fromPath cfg db wfile path occs
       = Returned _ (Some hl) ->
     s ∈ hl_symbols hl ->
     exists grouped key s0,
       group_symbols getLsRange db wfile [] occs = Returned _ grouped /\
       (key, s0) ∈ grouped /\ symbol_attrs s = symbol_attrs s0 /\
       not_an_operator db key) /\
  emitSemanticHighlight same_range (fun _ => true) (fun p => p)
      default_highlight eq_index eq_file "eq.cc" [eq_occurrence]
    = Returned _ (Some (mkHighlight "eq.cc" [])).
Proof.
  assert (Hok : forall grouped,
    group_symbols getLsRange db wfile [] occs = Returned _ grouped ->
    grouped_ok getLsRange db wfile occs grouped).
  { intros grouped Hg.
    apply (group_symbols_ok getLsRange db wfile occs occs [] grouped);
      [done| |done].
    by intros key s ?%elem_of_nil. }
  split; [|split; [|split; [|split; [|split]]]].
  - apply group_occurrence_nonpositive.
  - apply group_symbols_positive.
  - intros grouped sym refcnt def Hk Hdef Hop.
    unfold group_occurrence, classify, classify_func. simpl.
    rewrite Hk, Hdef, operator_compare, Hop. by destruct (refcnt <=? 0).
  - intros grouped key s Hg Hin.
    destruct (Hok grouped Hg key s Hin) as (_ & ? & ?). done.
  - intros hl s Hemit Hs.
    destruct (published_symbol path occs hl s Hemit Hs)
      as (grouped & key & s0 & Hg & Hin & Hattrs).
    exists grouped, key, s0. repeat split; try done.
    by destruct (Hok grouped Hg key s0 Hin) as (_ & ? & _).
  - vm_compute. reflexivity.
Qed.

(** C10.  With occurrences and names as the index holds them (function
    occurrences start at a valid position, names have a length that a
    string can have): a function occurrence whose start line is at or
    beyond the table of lines is skipped; an occurrence whose range
    [getLsRange] cannot map into the buffer leaves the grouped symbols as
    they are; the grouping returns its table and
    [emitSemanticHighlight] returns, with or without a notification:
    nothing is raised, whatever the table of lines and [getLsRange]
    are. *)
Theorem out_of_sync_is_silent (path : string) (occs : list (SymbolRef * Z)) :
  (forall sym refcnt, (sym, refcnt) ∈ occs -> sym_kind sym = Kind_Func ->
     Pos_wf (Range_start (sym_range sym)) /\
     Pos_valid (Range_start (sym_range sym)) = true) ->
  (forall idx def, funcs_anyDef db idx = Some def ->
                   fits_size_t (func_name def)) ->
  (forall sym grouped refcnt,
     sym_kind sym = Kind_Func ->
     Z.of_nat (length (index_lines wfile))
       <= Pos_line (Range_start (sym_range sym)) ->
     classify db wfile sym = Returned _ Skip /\
     group_occurrence getLsRange db wfile grouped (sym, refcnt)
       = Returned _ grouped) /\
  (forall sym grouped refcnt sym' idx pk k st,
     classify db wfile sym = Returned _ (Keep sym' idx pk k st) ->
     getLsRange wfile (sym_range sym') = None ->
     group_occurrence getLsRange db wfile grouped (sym, refcnt)
       = Returned _ grouped) /\
  (exists grouped,
     group_symbols getLsRange db wfile [] occs = Returned _ grouped) /\
  (exists published,
     emitSemanticHighlight getLsRange matches fromPath cfg db wfile path occs
       = Returned _ published).
Proof.
  intros Hpos Hfit. split; [|split; [|split]].
  - intros sym grouped refcnt Hk Hline.
    assert (classify db wfile sym = Returned _ Skip) as Hc.
    { unfold classify, classify_func. rewrite Hk.
      destruct (funcs_anyDef db (func_usr db (sym_usr sym))); [|done].
      rewrite operator_compare. destruct (String.prefix _ _); [done|].
      by destruct (Z.leb_spec (Z.of_nat (length (index_lines wfile)))
                     (Pos_line (Range_start (sym_range sym)))); [|lia]. }
    split; [done|]. unfold group_occurrence. cbn [fst snd]. rewrite Hc.
    by destruct (refcnt <=? 0).
  - intros sym grouped refcnt sym' idx pk k st Hc Hnone.
    unfold group_occurrence. cbn [fst snd]. rewrite Hc, Hnone.
    by destruct (refcnt <=? 0).
  - by apply group_symbols_returns.
  - unfold emitSemanticHighlight. destruct (_ || _); [eauto|].
    destruct (group_symbols_returns getLsRange db wfile [] occs Hpos Hfit)
      as [grouped ->].
    destruct (resolve_overlaps_returns grouped.*2) as (out & -> & _).
    eauto.
Qed.
End emit_properties.

(** * Offsets *)

Example accent_offsets :
  project_offsets accent_buffer [accent_symbol]
    = [mkSymbol 4 0 13 0 [(2, 3)] []] /\
  spec_byte_offset accent_buffer (mkPosition 0 2) = Some 3 /\
  spec_byte_offset accent_buffer (mkPosition 0 3) = Some 4.
Proof. repeat split; vm_compute; reflexivity. Qed.

(** ** Counting in prefixes *)

Lemma count_foldl_shift (g : byte -> bool) a l :
  foldl (fun n b => if g b then n + 1 else n) a l =
  a + foldl (fun n b => if g b then n + 1 else n) 0 l.
Proof.
  revert a. induction l as [|b l IH]; intros a; simpl; [lia|].
  rewrite (IH (if g b then a + 1 else a)), (IH (if g b then 0 + 1 else 0)).
  destruct (g b); lia.
Qed.

Lemma nl_count_app pre mid : nl_count (pre ++ mid) = nl_count pre + nl_count mid.
Proof. unfold nl_count. rewrite foldl_app. apply count_foldl_shift. Qed.

Lemma cp_count_app pre mid : cp_count (pre ++ mid) = cp_count pre + cp_count mid.
Proof. unfold cp_count. rewrite foldl_app. apply count_foldl_shift. Qed.

Lemma nl_count_nonneg l : 0 <= nl_count l.
Proof.
  induction l as [|b l IH] using rev_ind; [done|].
  rewrite nl_count_app. unfold nl_count at 2. simpl.
  destruct (is_newline b); lia.
Qed.

Lemma cp_count_nonneg l : 0 <= cp_count l.
Proof.
  induction l as [|b l IH] using rev_ind; [done|].
  rewrite cp_count_app. unfold cp_count at 2. simpl.
  destruct (starts_code_point b); lia.
Qed.

Lemma cp_count_le_length l : cp_count l <= Z.of_nat (length l).
Proof.
  induction l as [|b l IH] using rev_ind; [done|].
  rewrite cp_count_app, length_app. unfold cp_count at 2. simpl.
  destruct (starts_code_point b); lia.
Qed.

Lemma col_count_snoc pre b :
  col_count (pre ++ [b]) =
  if is_newline b then 0
  else if starts_code_point b then col_count pre + 1 else col_count pre.
Proof. unfold col_count. by rewrite foldl_app. Qed.

Lemma col_count_nonneg l : 0 <= col_count l.
Proof.
  induction l as [|b l IH] using rev_ind; [done|].
  rewrite col_count_snoc. destruct (is_newline b); [done|].
  destruct (starts_code_point b); lia.
Qed.

Lemma continuation_not_start b :
  is_continuation b = negb (starts_code_point b).
Proof.
  unfold is_continuation, starts_code_point.
  destruct (Z.leb_spec 128 (byte_val b)), (Z.ltb_spec (byte_val b) 128),
    (Z.ltb_spec (byte_val b) 192), (Z.leb_spec 192 (byte_val b));
    simpl; try done; lia.
Qed.

Lemma newline_low b : is_newline b = true -> (128 <=? byte_val b) = false.
Proof.
  unfold is_newline. intros H%Z.eqb_eq. apply Z.leb_gt. lia.
Qed.

Lemma newline_starts b : is_newline b = true -> starts_code_point b = true.
Proof.
  unfold is_newline, starts_code_point. intros H%Z.eqb_eq.
  apply orb_true_iff. left. apply Z.ltb_lt. lia.
Qed.

Lemma continuation_high b :
  is_continuation b = true -> (128 <=? byte_val b) = true.
Proof. unfold is_continuation. by intros [? _]%andb_true_iff. Qed.

Lemma no_stray_boundary h rest : no_stray h rest -> boundary rest -> no_stray false rest.
Proof.
  destruct rest as [|b rest]; [done|]. simpl. intros [_ H] Hb.
  split; [|done]. intros Hc. congruence.
Qed.

Lemma no_stray_false_boundary rest : no_stray false rest -> boundary rest.
Proof.
  destruct rest as [|b rest]; [done|]. simpl. intros [H _].
  destruct (is_continuation b); [|done]. by discriminate H.
Qed.

Lemma tracks_step pre s b :
  tracks pre s ->
  tracks (pre ++ [b])
         (mkCursor (if is_newline b then cur_l s + 1 else cur_l s) (cur_c s)
                   (cur_i s + 1)
                   (if starts_code_point b then cur_p s + 1 else cur_p s)).
Proof.
  intros (Hi & Hl & Hp). unfold tracks; simpl.
  rewrite length_app, nl_count_app, cp_count_app. simpl.
  unfold nl_count at 2, cp_count at 2. simpl.
  destruct (is_newline b), (starts_code_point b); repeat split; lia.
Qed.

(** ** The loop over lines *)

Lemma skip_lines_spec line rest :
  forall pre s h, tracks pre s -> no_stray h rest ->
  exists mid rest' s',
    skip_lines line rest s = (s', rest') /\ rest = mid ++ rest' /\
    tracks (pre ++ mid) s' /\ cur_c s' = cur_c s /\
    ((mid = [] /\ s' = s /\ (line <= cur_l s \/ rest = [])) \/
     (cur_l s < line /\ cur_l s' < line /\ rest' = []) \/
     (cur_l s < line /\ cur_l s' = line /\ no_stray false rest' /\
      exists m nl, mid = m ++ [nl] /\ is_newline nl = true)).
Proof.
  induction rest as [|b rest IH]; intros pre s h Ht Hns.
  - exists [], [], s. simpl. rewrite app_nil_r.
    do 4 (split; [done|]). left. auto.
  - simpl. destruct (Z.ltb_spec (cur_l s) line) as [Hlt|Hge].
    2:{ exists [], (b :: rest), s. rewrite app_nil_r.
        do 4 (split; [done|]). left. auto. }
    destruct Hns as [_ Hns].
    set (s1 := mkCursor _ _ _ _).
    pose proof (tracks_step pre s b Ht) as Ht1. fold s1 in Ht1.
    destruct (IH (pre ++ [b]) s1 _ Ht1 Hns)
      as (mid1 & rest' & s' & Hrun & Hrest & Ht' & Hc & Hcases).
    exists (b :: mid1), rest', s'. rewrite Hrun.
    rewrite <- app_assoc in Ht'. simpl in Ht'.
    split; [done|]. split; [by rewrite Hrest|]. split; [done|].
    split; [by rewrite Hc|]. right.
    destruct Hcases as [(Hm & Hs & Hstop)|[(H1 & H2 & H3)|(H1 & H2 & H3 & m & nl & Hm & Hnl)]].
    + subst mid1 s'. destruct (Z.ltb_spec (cur_l s1) line) as [Hlt1|Hge1].
      * left. destruct Hstop as [?| ->]; [lia|].
        rewrite app_nil_l in Hrest. by subst rest'.
      * right. split; [done|].
        assert (is_newline b = true /\ cur_l s1 = line) as [Hb ?].
        { subst s1. simpl in *. destruct (is_newline b); [split; [done|lia]|lia]. }
        split; [done|]. rewrite app_nil_l in Hrest. subst rest'.
        split; [by rewrite (newline_low b Hb) in Hns|].
        exists [], b. done.
    + left. done.
    + subst mid1. right. repeat split; auto. exists (b :: m), nl. done.
Qed.

(** ** The loops over columns *)

Lemma skip_continuation_spec rest :
  forall i, no_stray true rest ->
  exists mid rest',
    skip_continuation rest i = (i + Z.of_nat (length mid), rest') /\
    rest = mid ++ rest' /\
    Forall (fun b => is_continuation b = true) mid /\ no_stray false rest'.
Proof.
  induction rest as [|b rest IH]; intros i Hns.
  - exists [], []. simpl. rewrite Z.add_0_r. repeat split; auto.
  - simpl. destruct (is_continuation b) eqn:Hb.
    + destruct Hns as [_ Hns]. rewrite (continuation_high b Hb) in Hns.
      destruct (IH (i + 1) Hns) as (mid & rest' & Hrun & -> & Hmid & Hns').
      exists (b :: mid), rest'. rewrite Hrun. simpl length.
      repeat split; auto. f_equal. lia.
    + exists [], (b :: rest). simpl. rewrite Z.add_0_r.
      repeat split; auto.
      * intros Hc. congruence.
      * by destruct Hns.
Qed.

Lemma continuation_counts mid :
  Forall (fun b => is_continuation b = true) mid ->
  nl_count mid = 0 /\ cp_count mid = 0 /\
  forall pre, col_count (pre ++ mid) = col_count pre.
Proof.
  induction mid as [|b mid IH] using rev_ind; intros H.
  - repeat split; auto. intros pre. by rewrite app_nil_r.
  - apply Forall_app in H as [Hmid Hb]. rewrite Forall_singleton in Hb.
    destruct (IH Hmid) as (H1 & H2 & H3).
    assert (starts_code_point b = false) as Hs.
    { rewrite continuation_not_start in Hb. by destruct (starts_code_point b). }
    assert (is_newline b = false) as Hn.
    { destruct (is_newline b) eqn:E; [|done].
      apply newline_starts in E. congruence. }
    rewrite nl_count_app, cp_count_app, H1, H2.
    unfold nl_count, cp_count. simpl. rewrite Hs, Hn.
    repeat split; auto. intros pre.
    rewrite app_assoc, col_count_snoc, Hs, Hn. apply H3.
Qed.

(** The loop leaves the cursor where it is. *)
Ltac stay Ht Hns :=
  rewrite app_nil_r;
  split; [reflexivity|]; split; [reflexivity|]; split; [exact Ht|];
  split; [exact Hns|]; split; [reflexivity|]; split; [reflexivity|];
  split; [lia|]; split; [lia|]; split; [auto|]; try done; try lia.

Lemma skip_columns_spec col fuel :
  forall rest pre s,
    (length rest <= fuel)%nat -> tracks pre s -> no_stray false rest ->
    exists mid rest' s',
      skip_columns fuel col rest s = (s', rest') /\ rest = mid ++ rest' /\
      tracks (pre ++ mid) s' /\ no_stray false rest' /\
      cur_l s' = cur_l s /\ nl_count mid = 0 /\
      cur_c s' - cur_c s = col_count (pre ++ mid) - col_count pre /\
      (cur_c s <= col -> cur_c s' <= col) /\
      (col <= cur_c s -> s' = s /\ mid = []) /\
      (cur_c s' < col ->
       match rest' with [] => True | b :: _ => is_newline b = true end).
Proof.
  induction fuel as [|fuel IH]; intros rest pre s Hlen Ht Hns.
  - destruct rest; [|simpl in Hlen; lia].
    exists [], [], s. simpl. stay Ht Hns.
  - destruct rest as [|b rest].
    { exists [], [], s. simpl. stay Ht Hns. }
    simpl.
    destruct (Z.ltb_spec (cur_c s) col) as [Hlt|Hge]; simpl.
    2:{ exists [], (b :: rest), s. stay Ht Hns. }
    destruct (is_newline b) eqn:Hnl; simpl.
    { exists [], (b :: rest), s. stay Ht Hns. }
    destruct Hns as [Hb Hns].
    assert (starts_code_point b = true) as Hstart.
    { rewrite continuation_not_start in Hb.
      destruct (starts_code_point b); [done|]. by discriminate Hb. }
    assert (exists mid1 rest1,
      (if 128 <=? byte_val b then skip_continuation rest (cur_i s + 1)
       else (cur_i s + 1, rest))
      = (cur_i s + 1 + Z.of_nat (length mid1), rest1) /\
      rest = mid1 ++ rest1 /\
      Forall (fun b => is_continuation b = true) mid1 /\
      no_stray false rest1) as (mid1 & rest1 & -> & -> & Hmid1 & Hns1).
    { destruct (128 <=? byte_val b).
      - by apply skip_continuation_spec.
      - exists [], rest. simpl. rewrite Z.add_0_r. repeat split; auto. }
    destruct (continuation_counts mid1 Hmid1) as (Hn1 & Hc1 & Hcol1).
    set (s1 := mkCursor _ _ _ _).
    assert (tracks (pre ++ b :: mid1) s1) as Ht1.
    { destruct Ht as (Hi & Hl & Hp). unfold tracks, s1.
      cbn [cur_i cur_l cur_c cur_p].
      change (b :: mid1) with ([b] ++ mid1).
      rewrite !length_app, !nl_count_app, !cp_count_app, Hn1, Hc1.
      change (length [b]) with 1%nat.
      change (nl_count [b]) with (if is_newline b then 0 + 1 else 0).
      change (cp_count [b]) with (if starts_code_point b then 0 + 1 else 0).
      rewrite Hnl, Hstart. repeat split; lia. }
    destruct (IH rest1 (pre ++ b :: mid1) s1) as
      (mid2 & rest' & s' & Hrun & -> & Ht' & Hns' & Hl' & Hn2 & Hc' & Hle & _ & Hstop);
      [|done|done|].
    { simpl in Hlen. rewrite length_app in Hlen. lia. }
    assert (col_count (pre ++ b :: mid1) = col_count pre + 1) as Hcolb.
    { change (b :: mid1) with ([b] ++ mid1).
      rewrite app_assoc, Hcol1, col_count_snoc, Hnl, Hstart. done. }
    assert (nl_count (b :: mid1) = 0) as Hnb.
    { change (b :: mid1) with ([b] ++ mid1). rewrite nl_count_app, Hn1.
      change (nl_count [b]) with (if is_newline b then 0 + 1 else 0).
      by rewrite Hnl. }
    subst s1. cbn [cur_i cur_l cur_c cur_p] in *.
    exists ((b :: mid1) ++ mid2), rest', s'. rewrite Hrun.
    split; [done|]. split; [by rewrite <- !app_assoc|].
    split; [by rewrite app_assoc|]. split; [done|]. split; [done|].
    split; [by rewrite nl_count_app, Hnb, Hn2|].
    split; [rewrite app_assoc; lia|].
    split; [intros _; apply Hle; lia|].
    split; [lia|]. done.
Qed.

(** ** Positions that the buffer does not have *)

Lemma nl_zero_col pre mid :
  nl_count mid = 0 -> col_count (pre ++ mid) = col_count pre + cp_count mid.
Proof.
  induction mid as [|b mid IH] using rev_ind; intros H.
  - rewrite app_nil_r. unfold cp_count. simpl. lia.
  - rewrite nl_count_app in H.
    change (nl_count [b]) with (if is_newline b then 0 + 1 else 0) in H.
    pose proof (nl_count_nonneg mid).
    destruct (is_newline b) eqn:Hnl; [lia|].
    rewrite app_assoc, col_count_snoc, Hnl, cp_count_app, IH by lia.
    change (cp_count [b]) with (if starts_code_point b then 0 + 1 else 0).
    destruct (starts_code_point b); lia.
Qed.

Lemma unreachable_line buf pos :
  nl_count buf < line pos -> forall i, ~ offset_at buf i pos.
Proof.
  intros Hlt i (_ & _ & Hnl & _).
  rewrite <- (take_drop (Z.to_nat i) buf), nl_count_app in Hlt.
  pose proof (nl_count_nonneg (drop (Z.to_nat i) buf)). lia.
Qed.

Lemma unreachable_column buf pre rest pos :
  buf = pre ++ rest -> nl_count pre = line pos ->
  col_count pre < character pos ->
  match rest with [] => True | b :: _ => is_newline b = true end ->
  forall i, ~ offset_at buf i pos.
Proof.
  intros -> Hl Hc Hrest i ([Hi0 Hi1] & _ & Hnl & Hcol).
  rewrite length_app in Hi1.
  destruct (decide (Z.to_nat i <= length pre)%nat) as [Hle|Hgt].
  - rewrite take_app_le in Hnl, Hcol by done.
    rewrite <- (take_drop (Z.to_nat i) pre), nl_count_app in Hl.
    pose proof (nl_count_nonneg (drop (Z.to_nat i) pre)).
    pose proof (cp_count_nonneg (drop (Z.to_nat i) pre)).
    rewrite <- (take_drop (Z.to_nat i) pre), nl_zero_col in Hc by lia. lia.
  - destruct rest as [|b rest]; [simpl in Hi1; lia|].
    rewrite take_app_ge in Hnl by lia.
    destruct (Z.to_nat i - length pre)%nat as [|k] eqn:Hk; [lia|].
    simpl in Hnl. change (b :: take k rest) with ([b] ++ take k rest) in Hnl.
    rewrite !nl_count_app in Hnl.
    change (nl_count [b]) with (if is_newline b then 0 + 1 else 0) in Hnl.
    rewrite Hrest in Hnl. pose proof (nl_count_nonneg (take k rest)). lia.
Qed.

(** ** The scan to a position *)

Lemma offset_at_prefix pre rest s pos :
  tracks pre s -> no_stray false rest ->
  cur_l s = line pos -> col_count pre = character pos ->
  offset_at (pre ++ rest) (cur_i s) pos /\
  cur_p s = cp_count (take (Z.to_nat (cur_i s)) (pre ++ rest)).
Proof.
  intros (Hi & Hl & Hp) Hns Hline Hcol. unfold offset_at.
  rewrite Hi, Nat2Z.id, take_app_length, drop_app_length, length_app.
  repeat split; auto using no_stray_false_boundary; try lia; congruence.
Qed.

(** The column loop from the start of its line or from where an earlier
    call left the cursor on that line. *)
Lemma columns_phase buf pre rest s pos :
  buf = pre ++ rest -> tracks pre s -> no_stray false rest ->
  cur_l s = line pos -> cur_c s = col_count pre -> cur_c s <= character pos ->
  let '(s', _) := skip_columns (length rest) (character pos) rest s in
  let failed := cur_c s' <? character pos in
  exists mid rest',
    rest = mid ++ rest' /\ scan_inv_at buf pos s' (pre ++ mid) rest' /\
    (failed = false ->
     offset_at buf (cur_i s') pos /\
     cur_p s' = cp_count (take (Z.to_nat (cur_i s')) buf)) /\
    (failed = true -> forall i, ~ offset_at buf i pos).
Proof.
  intros Hbuf Ht Hns Hline Hc Hle.
  destruct (skip_columns_spec (character pos) (length rest) rest pre s)
    as (mid & rest' & s' & -> & Hrest & Ht' & Hns' & Hl' & Hn & Hc' & Hle' & _ & Hstop);
    [done..|].
  cbv zeta. exists mid, rest'. split; [done|].
  assert (cur_c s' = col_count (pre ++ mid)) as Hcol' by lia.
  assert (buf = (pre ++ mid) ++ rest') as Hbuf'.
  { by rewrite Hbuf, Hrest, app_assoc. }
  specialize (Hle' Hle). split; [|split].
  - unfold scan_inv_at. split; [done|]. split; [done|]. split; [done|].
    split; [|by left]. unfold Position_le. apply Position_ltb_ge. simpl. lia.
  - intros Hok%Z.ltb_ge. rewrite Hbuf'.
    apply offset_at_prefix; [done|done|lia|lia].
  - intros Hfail%Z.ltb_lt.
    apply (unreachable_column buf (pre ++ mid) rest'); auto.
    + destruct Ht' as (_ & <- & _). lia.
    + lia.
    + apply Hstop. lia.
Qed.

Lemma mov_spec buf target pos s pre rest :
  scan_inv_at buf target s pre rest ->
  Position_le target pos -> 0 <= character pos ->
  exists s' failed mid rest',
    mov buf (line pos) (character pos) s = (s', failed) /\
    rest = mid ++ rest' /\ scan_inv_at buf pos s' (pre ++ mid) rest' /\
    (failed = false ->
     offset_at buf (cur_i s') pos /\
     cur_p s' = cp_count (take (Z.to_nat (cur_i s')) buf)) /\
    (failed = true -> forall i, ~ offset_at buf i pos).
Proof.
  intros (Hbuf & Ht & Hns & Hpos & Hcol) Htarget Hcol0. unfold mov.
  set (s0 := if cur_l s <? line pos
             then mkCursor (cur_l s) 0 (cur_i s) (cur_p s) else s).
  assert (tracks pre s0) as Ht0.
  { unfold s0. destruct (cur_l s <? line pos); [|done].
    destruct Ht as (? & ? & ?). done. }
  assert (cur_i s0 = Z.of_nat (length pre)) as Hi0 by apply Ht0.
  assert (cur_l s0 = cur_l s) as Hl0
    by (unfold s0; by destruct (cur_l s <? line pos)).
  replace (drop (Z.to_nat (cur_i s0)) buf) with rest
    by (by rewrite Hi0, Nat2Z.id, Hbuf, drop_app_length).
  assert (Hlex : cur_l s < line pos \/
                 (cur_l s = line pos /\ cur_c s <= character pos)).
  { pose proof (Position_le_trans _ _ _ Hpos Htarget) as H.
    unfold Position_le in H. apply Position_ltb_ge in H. simpl in H. lia. }
  destruct (skip_lines_spec (line pos) rest pre s0 false Ht0 Hns)
    as (mid1 & rest1 & s1 & -> & Hrest & Ht1 & Hc1 & Hcases).
  destruct Hcases as [(Hm & Hs & Hstop)|[(H1 & H2 & H3)|(H1 & H2 & H3 & m & nl & Hm & Hnl)]].
  - subst mid1 s1. rewrite app_nil_r in Ht1. simpl in Hrest. subst rest1.
    destruct (Z.ltb_spec (cur_l s0) (line pos)) as [Hlt|Hge].
    + (* the buffer ends before the line *)
      destruct Hstop as [?| ->]; [lia|].
      exists s0, true, [], []. rewrite app_nil_r.
      split; [done|]. split; [done|]. split; [|split; [done|]].
      * unfold scan_inv_at. rewrite ?app_nil_r in *.
        split; [done|]. split; [done|]. split; [done|].
        split; [|right; split; [done|simpl; lia]].
        unfold Position_le. apply Position_ltb_ge. simpl. lia.
      * intros _. apply unreachable_line. rewrite ?app_nil_r in *.
        subst buf. destruct Ht0 as (_ & <- & _). lia.
    + (* the cursor is on the line already *)
      assert (s0 = s) as Hs0.
      { unfold s0. destruct (Z.ltb_spec (cur_l s) (line pos)); [lia|done]. }
      rewrite Hs0 in *.
      assert (cur_c s = col_count pre) as Hcs.
      { destruct Hcol as [?|[_ Hstuck]]; [done|].
        unfold Position_le in Htarget. apply Position_ltb_ge in Htarget.
        lia. }
      pose proof (columns_phase buf pre rest s pos Hbuf Ht Hns) as Hph.
      destruct (skip_columns (length rest) (character pos) rest s) as [s2 r2].
      destruct Hph as (mid & rest' & Hr & Hinv & Hok & Hfail); [lia..|].
      exists s2, (cur_c s2 <? character pos), mid, rest'. done.
  - (* the buffer ends before the line *)
    subst rest1. rewrite app_nil_r in Hrest. subst mid1.
    destruct (Z.ltb_spec (cur_l s1) (line pos)) as [_|?]; [|lia].
    exists s1, true, rest, []. rewrite app_nil_r.
    split; [done|]. split; [done|]. split; [|split; [done|]].
    + unfold scan_inv_at. rewrite ?app_nil_r in *.
      split; [done|]. split; [done|]. split; [done|].
      split; [|right; split; [done|simpl; lia]].
      unfold Position_le. apply Position_ltb_ge. simpl. lia.
    + intros _. apply unreachable_line. rewrite ?app_nil_r in *.
      subst buf. destruct Ht1 as (_ & <- & _). lia.
  - (* the cursor reaches the start of the line *)
    destruct (Z.ltb_spec (cur_l s1) (line pos)) as [?|_]; [lia|].
    assert (cur_c s1 = 0) as Hc0.
    { rewrite Hc1. unfold s0.
      destruct (Z.ltb_spec (cur_l s) (line pos)); [done|lia]. }
    assert (col_count (pre ++ mid1) = 0) as Hcm.
    { rewrite Hm, app_assoc, col_count_snoc, Hnl. done. }
    assert (buf = (pre ++ mid1) ++ rest1) as Hbuf1.
    { by rewrite Hbuf, Hrest, app_assoc. }
    pose proof (columns_phase buf (pre ++ mid1) rest1 s1 pos Hbuf1 Ht1 H3) as Hph.
    destruct (skip_columns (length rest1) (character pos) rest1 s1) as [s2 r2].
    destruct Hph as (mid & rest' & Hr & Hinv & Hok & Hfail); [lia..|].
    exists s2, (cur_c s2 <? character pos), (mid1 ++ mid), rest'.
    split; [done|]. split; [by rewrite Hrest, Hr, app_assoc|].
    split; [by rewrite app_assoc|]. done.
Qed.

(** ** The conversion of the sorted ranges *)

Lemma chained_weaken last last' scratch :
  Position_le last last' -> chained last' scratch -> chained last scratch.
Proof.
  destruct scratch as [|e scratch]; [done|]. simpl.
  intros Hle (H1 & H2). split; [|done]. by eapply Position_le_trans.
Qed.

Lemma scan_inv_at_cursor buf target s pre rest :
  scan_inv_at buf target s pre rest -> cur_i s = Z.of_nat (length pre).
Proof. by intros (_ & (? & _) & _). Qed.

Lemma project_fold_spec buf scratch :
  forall s tbl target pre rest,
    scan_inv_at buf target s pre rest -> chained target scratch ->
    exists results,
      Forall2 (fun e o => converts buf e.1 o) scratch results /\
      (foldl (project_entry buf) (s, tbl) scratch).2 =
        attach tbl (zip scratch results).
Proof.
  induction scratch as [|e scratch IH]; intros s tbl target pre rest Hinv Hch.
  - exists []. split; [constructor|done].
  - destruct Hch as (Hle & Hse & Hc1 & Hc2 & Hch). simpl.
    destruct (mov_spec buf target (start e.1) s pre rest Hinv Hle Hc1)
      as (s1 & failed1 & mid1 & rest1 & Hmov1 & Hrest1 & Hinv1 & Hok1 & Hfail1).
    rewrite Hmov1. destruct failed1.
    { destruct (IH s1 tbl (start e.1) _ _ Hinv1) as (results & Hres & Hfold).
      { by eapply chained_weaken. }
      exists (None :: results). split.
      - constructor; [|done]. left. by apply Hfail1.
      - by rewrite Hfold. }
    destruct (mov_spec buf (start e.1) (end_ e.1) s1 _ _ Hinv1 Hse Hc2)
      as (s2 & failed2 & mid2 & rest2 & Hmov2 & Hrest2 & Hinv2 & Hok2 & Hfail2).
    rewrite Hmov2. destruct failed2.
    { destruct (IH s2 tbl (end_ e.1) _ _ Hinv2 Hch) as (results & Hres & Hfold).
      exists (None :: results). split.
      - constructor; [|done]. right. by apply Hfail2.
      - by rewrite Hfold. }
    destruct (IH s2 (alter (add_range (cur_p s1, cur_p s2)) e.2 tbl)
                (end_ e.1) _ _ Hinv2 Hch) as (results & Hres & Hfold).
    exists (Some (cur_p s1, cur_p s2) :: results). split.
    + constructor; [|done]. simpl.
      destruct (Hok1 eq_refl) as [Hat1 Hp1].
      destruct (Hok2 eq_refl) as [Hat2 Hp2].
      exists (cur_i s1), (cur_i s2).
      split; [done|]. split; [done|]. split; [|done].
      apply scan_inv_at_cursor in Hinv1, Hinv2.
      rewrite Hinv1, Hinv2, !length_app. lia.
    + by rewrite Hfold.
Qed.

Lemma project_fold_cleared buf scratch :
  forall acc,
    (forall s, s ∈ acc.2 -> lsRanges s = []) ->
    forall s, s ∈ (foldl (project_entry buf) acc scratch).2 -> lsRanges s = [].
Proof.
  induction scratch as [|e scratch IH]; intros acc Hacc; [done|].
  simpl. apply IH. destruct acc as [c tbl]. unfold project_entry.
  destruct (mov buf _ _ c) as [s1 [|]]; [done|].
  destruct (mov buf _ _ s1) as [s2 [|]]; [done|].
  simpl. intros s (k & Hk)%list_elem_of_lookup_1.
  destruct (decide (k = e.2)) as [->|Hne].
  - rewrite list_lookup_alter_eq in Hk.
    destruct (tbl !! e.2) as [s0|] eqn:H0; [|done].
    injection Hk as <-. simpl. apply Hacc. by eapply list_elem_of_lookup_2.
  - rewrite list_lookup_alter_ne in Hk by done.
    apply Hacc. by eapply list_elem_of_lookup_2.
Qed.

#[global] Instance not_after_scratch_total : Total (not_after scratch_lt).
Proof.
  intros a b. unfold not_after, scratch_lt.
  destruct (Position_ltb (start b.1) (start a.1)) eqn:E; [|by left].
  right. pos_arith.
Qed.

#[global] Instance not_after_scratch_trans : Transitive (not_after scratch_lt).
Proof. intros a b c. unfold not_after, scratch_lt. intros. pos_arith. Qed.

(** One iteration of the column loop over a code point: a first byte that
    is no newline, and the bytes that continue it. *)
Lemma skip_columns_code_point fuel col b conts rest s :
  cur_c s < col -> is_newline b = false ->
  Forall (fun c => is_continuation c = true) conts -> boundary rest ->
  (conts = [] \/ 128 <= byte_val b) ->
  skip_columns (S fuel) col (b :: conts ++ rest) s =
  skip_columns fuel col rest
    (mkCursor (cur_l s) (cur_c s + 1)
              (cur_i s + 1 + Z.of_nat (length conts)) (cur_p s + 1)).
Proof.
  intros Hc Hnl Hconts Hrest Hhigh. simpl.
  destruct (Z.ltb_spec (cur_c s) col); [|lia]. rewrite Hnl. simpl.
  assert (forall i, skip_continuation (conts ++ rest) i
                    = (i + Z.of_nat (length conts), rest)) as Hskip.
  { clear Hhigh. induction conts as [|c conts IH]; intros i.
    - simpl. rewrite Z.add_0_r. destruct rest as [|r rest]; [done|].
      simpl in *. by rewrite Hrest.
    - apply Forall_cons in Hconts as [Hcc Hconts]. simpl.
      rewrite Hcc, (IH Hconts). f_equal. lia. }
  destruct (Z.leb_spec 128 (byte_val b)) as [Hb|Hb].
  - by rewrite Hskip.
  - destruct Hhigh as [->|?]; [|lia]. simpl. by rewrite Z.add_0_r.
Qed.

Lemma ascii_cp_count l :
  Forall (fun b => byte_val b < 128) l -> cp_count l = Z.of_nat (length l).
Proof.
  induction l as [|b l IH] using rev_ind; intros H; [done|].
  apply Forall_app in H as [Hl Hb]. rewrite Forall_singleton in Hb.
  rewrite cp_count_app, length_app, (IH Hl).
  change (cp_count [b]) with (if starts_code_point b then 0 + 1 else 0).
  unfold starts_code_point.
  destruct (Z.ltb_spec (byte_val b) 128); [simpl; lia|lia].
Qed.

(** ** From the scan line to the scan of the buffer *)

Lemma ForallOrdPairs_app {A} (R : relation A) l1 l2 :
  ForallOrdPairs R l1 -> ForallOrdPairs R l2 ->
  (forall x y, x ∈ l1 -> y ∈ l2 -> R x y) ->
  ForallOrdPairs R (l1 ++ l2).
Proof.
  induction 1 as [|a l1 Ha Hl IH]; intros H2 Hx; [done|].
  simpl. constructor.
  - apply Forall_app. split; [done|].
    apply Forall_forall. intros y Hy. apply Hx; [left|done].
  - apply IH; [done|]. intros x y Hin. apply Hx. by right.
Qed.

Lemma ForallOrdPairs_perm {A} (R : relation A) l l' :
  (forall a b, R a b -> R b a) -> l ≡ₚ l' ->
  ForallOrdPairs R l -> ForallOrdPairs R l'.
Proof.
  intros Hsym. induction 1 as [|x l l' Hp IH|x y l|l l' l'' _ IH1 _ IH2]; auto.
  - intros H. inversion H as [|? ? Hx Hl]; subst. constructor; [|auto].
    by rewrite <- Hp.
  - intros H. inversion H as [|? ? Hy Hl]; subst.
    inversion Hl as [|? ? Hx Hl']; subst.
    inversion Hy as [|? ? Hyx Hy']; subst.
    constructor; [constructor; auto|]. by constructor.
Qed.

Lemma ForallOrdPairs_fmap {A B} (f : A -> B) (R : relation B) l :
  ForallOrdPairs R (f <$> l) -> ForallOrdPairs (fun a b => R (f a) (f b)) l.
Proof.
  induction l as [|a l IH]; [constructor|].
  rewrite fmap_cons. intros H. inversion H as [|? ? Ha Hl]; subst.
  constructor; [|auto]. rewrite Forall_fmap in Ha. exact Ha.
Qed.

Lemma ForallOrdPairs_bind {A B} (f : A -> list B) (R : relation B) l :
  (forall s, s ∈ l -> ForallOrdPairs R (f s)) ->
  (forall i j s t x y, (i < j)%nat -> l !! i = Some s -> l !! j = Some t ->
     x ∈ f s -> y ∈ f t -> R x y) ->
  ForallOrdPairs R (l ≫= f).
Proof.
  induction l as [|s l IH]; intros Hin Hcross; [constructor|].
  rewrite bind_cons. apply ForallOrdPairs_app.
  - apply Hin. by left.
  - apply IH.
    + intros t Ht. apply Hin. by right.
    + intros i j s' t x y Hij Hi Hj. apply (Hcross (S i) (S j)); [lia|done..].
  - intros x y Hx (t & Hy & (j & Hj)%list_elem_of_lookup_1)%list_elem_of_bind.
    apply (Hcross O (S j) s t); [lia|done..].
Qed.

Lemma scratch_of_ranges tbl : (scratch_of tbl).*1 = tbl ≫= lsRanges.
Proof.
  unfold scratch_of.
  enough (forall g : nat -> nat,
            (concat (imap (fun k s => (fun r => (r, g k)) <$> lsRanges s) tbl)).*1
            = tbl ≫= lsRanges) as H by apply (H (fun k => k)).
  induction tbl as [|s tbl IH]; intros g; [done|].
  rewrite imap_cons, bind_cons. simpl. rewrite fmap_app. f_equal.
  - rewrite <- list_fmap_compose. apply list_fmap_id.
  - apply (IH (g ∘ S)).
Qed.

Lemma elem_of_ranges tbl r :
  r ∈ tbl ≫= lsRanges <-> exists k, (k, r) ∈ tagged_ranges tbl.
Proof.
  rewrite list_elem_of_bind. setoid_rewrite tagged_ranges_lookup. split.
  - intros (s & Hr & (k & Hk)%list_elem_of_lookup_1). eauto.
  - intros (k & s & Hk & Hr). exists s. split; [done|].
    by eapply list_elem_of_lookup_2.
Qed.

Lemma apart_sym a b : apart a b -> apart b a.
Proof. unfold apart. tauto. Qed.

(** Sorted by their start, ranges that are apart and not empty follow one
    another. *)
Lemma sorted_apart_chained scratch :
  forall last,
    Forall (fun e => Position_lt (start e.1) (end_ e.1) /\ nonneg_range e.1)
           scratch ->
    ForallOrdPairs (fun a b => apart a.1 b.1) scratch ->
    sorted_by scratch_lt scratch ->
    Forall (fun e => Position_le last (start e.1)) scratch ->
    chained last scratch.
Proof.
  induction scratch as [|e scratch IH]; intros last Hgood Hap Hs Hlast; [done|].
  inversion Hgood as [|? ? [Hne (Hl1 & Hc1 & Hl2 & Hc2)] Hgood']; subst.
  inversion Hap as [|? ? Hap1 Hap']; subst.
  inversion Hs as [|? ? Hs' Hs1]; subst.
  inversion Hlast as [|? ? Hle _]; subst.
  simpl. split; [done|]. split; [pos_arith|].
  split; [done|]. split; [done|].
  apply IH; try done.
  rewrite Forall_forall in *. intros e' He'.
  destruct (Hap1 e' He') as [H|H]; [done|].
  specialize (Hs1 e' He'). specialize (Hgood' e' He') as [Hne' _].
  unfold not_after, scratch_lt in Hs1. unfold left_of in *.
  exfalso. pos_arith.
Qed.

Lemma resolved_scratch tbl scratch :
  resolved tbl -> scratch ≡ₚ scratch_of tbl ->
  Forall (fun e => Position_lt (start e.1) (end_ e.1) /\ nonneg_range e.1)
         scratch /\
  ForallOrdPairs (fun a b => apart a.1 b.1) scratch.
Proof.
  intros [Hgood Hap] Hp.
  rewrite <- scratch_of_ranges in Hgood, Hap.
  rewrite Forall_fmap in Hgood. apply ForallOrdPairs_fmap in Hap. split.
  - rewrite Hp. exact Hgood.
  - eapply ForallOrdPairs_perm; [|symmetry; exact Hp|exact Hap].
    intros a b. apply apart_sym.
Qed.

Lemma sorted_scratch_chained tbl scratch :
  resolved tbl -> scratch ≡ₚ scratch_of tbl -> sorted_by scratch_lt scratch ->
  chained (mkPosition 0 0) scratch.
Proof.
  intros Hres Hp Hs.
  destruct (resolved_scratch _ _ Hres Hp) as [Hgood Hap].
  apply sorted_apart_chained; [done..|].
  eapply Forall_impl; [exact Hgood|]. intros e [_ (H1 & H2 & _)].
  unfold Position_le. simpl. pos_arith.
Qed.

(** The resolved ranges start at different places: there is one way to sort
    them. *)
Lemma sorted_scratch_unique tbl scratch :
  resolved tbl -> scratch ≡ₚ scratch_of tbl -> sorted_by scratch_lt scratch ->
  scratch = std_sort scratch_lt (scratch_of tbl).
Proof.
  intros Hres Hp Hs.
  destruct (resolved_scratch _ _ Hres Hp) as [Hgood Hap].
  apply (StronglySorted_unique_strong (not_after scratch_lt)).
  - intros x1 x2 H1 H2 H12 H21.
    rewrite std_sort_perm, <- Hp in H2.
    rewrite Forall_forall in Hgood.
    destruct (Hgood _ H1) as [Hne1 _]. destruct (Hgood _ H2) as [Hne2 _].
    apply list_elem_of_In in H1, H2.
    destruct (ForallOrdPairs_In Hap _ _ H1 H2) as [?|[H|H]]; [done|..];
      unfold not_after, scratch_lt, apart in *; exfalso;
      destruct H; pos_arith.
  - exact Hs.
  - apply StronglySorted_merge_sort; apply _.
  - by rewrite std_sort_perm.
Qed.

(** The scan line leaves resolved ranges when no collected range has a
    negative line or column: the ends of what it emits are ends of
    collected ranges. *)
Lemma scan_line_resolved tbl evs out :
  Forall nonneg_range (tbl ≫= lsRanges) ->
  evs ≡ₚ (build_events tbl).2 ->
  sorted_by (ScanLineEvent_lt (clear_lsRanges <$> tbl)) evs ->
  scan_line (clear_lsRanges <$> tbl) evs (build_events tbl).1 = Some out ->
  resolved out.
Proof.
  intros Hnn Hperm Hsorted Hout.
  set (tbl0 := clear_lsRanges <$> tbl) in *.
  set (ivs := tagged_ranges tbl).
  set (n := Z.of_nat (length ivs)).
  assert (Hwf : events_wf (length tbl0) n ivs evs).
  { unfold tbl0. rewrite length_fmap.
    eapply events_wf_perm; [|apply events_from_wf].
    rewrite Hperm, build_events_eq. done. }
  pose proof (scan_line_spec _ _ _ _ Hwf) as Hspec.
  rewrite build_events_eq in Hout. cbn [fst] in Hout.
  unfold n, ivs in Hspec. rewrite Hspec in Hout. injection Hout as <-.
  set (log := spec_log evs (length evs)).
  assert (Hlog : forall a, a ∈ tagged_ranges (apply_log tbl0 log) <-> a ∈ log).
  { intros [k r]. unfold tbl0. rewrite tagged_apply_log. split; [tauto|].
    intros Hin. split; [|done].
    pose proof (spec_log_symbol _ _ _ _ Hwf _ _ Hin) as Hk.
    unfold tbl0 in Hk. by rewrite length_fmap in Hk. }
  assert (Hslog : StronglySorted (fun a b => left_of a.2 b.2) log)
    by (eapply spec_log_sorted; eauto).
  assert (Hpos : forall e, e ∈ evs ->
            0 <= line (pos e) /\ 0 <= character (pos e)).
  { intros e He. rewrite Hperm, build_events_eq in He. simpl in He.
    apply events_from_elem in He as (j & [k r] & Hj & He).
    assert (Hr : nonneg_range r).
    { rewrite Forall_forall in Hnn. apply Hnn, elem_of_ranges.
      exists k. by eapply list_elem_of_lookup_2. }
    destruct Hr as (? & ? & ? & ?). by destruct He as [-> | ->]. }
  split.
  - apply Forall_forall. intros r (k & Hk%Hlog)%elem_of_ranges. split.
    + change r with (k, r).2. eapply spec_log_nonempty; eauto.
    + apply spec_log_elem in Hk
        as (j & prev & cur & e & _ & Hp & Hc & _ & _ & [= _ ->]).
      apply list_elem_of_lookup_2, Hpos in Hp.
      apply list_elem_of_lookup_2, Hpos in Hc. unfold nonneg_range. simpl.
      tauto.
  - apply ForallOrdPairs_bind.
    + intros s Hs. eapply ForallOrdPairs_impl;
        [|apply StronglySorted_ForallOrdPairs,
            (lsRanges_apply_log_sorted _ _ _ Hslog Hs)].
      intros a b H. by left.
    + intros i j s t x y Hij Hi Hj Hx Hy.
      assert (H1 : (i, x) ∈ log) by (apply Hlog, tagged_ranges_lookup; eauto).
      assert (H2 : (j, y) ∈ log) by (apply Hlog, tagged_ranges_lookup; eauto).
      destruct (StronglySorted_elem _ _ _ _ Hslog H1 H2) as [[= ? ?]|[H|H]];
        [lia|by left|by right].
Qed.

Lemma resolve_overlaps_resolved tbl out :
  Forall nonneg_range (tbl ≫= lsRanges) ->
  resolve_overlaps tbl = Some out -> resolved out.
Proof.
  intros Hnn Hout. eapply scan_line_resolved; [exact Hnn| | |exact Hout].
  - apply std_sort_perm.
  - apply std_sort_sorted.
Qed.

(** C9, as it is worded, fails on the unit of the offsets.  In the buffer
    "é x" the x stands at column 2 of line 0, at byte offset 3; for the
    range of the x the code yields the pair (2, 3), where the byte offsets
    of its two ends are 3 and 4. *)
Lemma offsets_are_not_byte_offsets :
  project_offsets accent_buffer [accent_symbol]
    = [mkSymbol 4 0 13 0 [(2, 3)] []] /\
  offset_at accent_buffer 3 (mkPosition 0 2) /\
  offset_at accent_buffer 4 (mkPosition 0 3) /\
  spec_byte_offset accent_buffer (mkPosition 0 2) = Some 3 /\
  spec_byte_offset accent_buffer (mkPosition 0 3) = Some 4 /\
  ~ (forall buf s r b e,
       lsRanges s = [r] ->
       ranges <$> project_offsets buf [s] = [[(b, e)]] ->
       spec_byte_offset buf (start r) = Some b /\
       spec_byte_offset buf (end_ r) = Some e).
Proof.
  split; [by vm_compute|]. split; [|split; [|split; [|split]]].
  - unfold offset_at. simpl. repeat split; try done; lia.
  - unfold offset_at. simpl. repeat split; try done; lia.
  - by vm_compute.
  - by vm_compute.
  - intros H.
    destruct (H accent_buffer accent_symbol (col_range 2 3) 2 3) as [H1 _];
      [done|by vm_compute|].
    vm_compute in H1. discriminate.
Qed.

(** C9, amended.  When the configuration asks for offsets, the resolved
    ranges, sorted by their start, are converted in one forward scan of the
    buffer; with the ranges that the scan line leaves there is one way to
    sort them.  For a buffer in which continuation bytes only follow bytes
    of multi-byte code points: a range of which both ends are positions of
    the buffer yields the pair of the numbers of code points that precede
    the byte offsets of its start and of its end (columns counted in code
    points); a range of which one end is no position of the buffer yields
    nothing, and nothing is raised; the pairs are attached to the symbols
    in the order of the scan, and the range lists of all symbols are left
    empty.  One iteration of the column loop passes a whole code point: the
    column and the count advance by one, the byte cursor by the code
    point's width.  Where the buffer holds bytes below 128 only, the
    numbers of code points are the byte offsets. *)
Theorem project_offsets_code_points (buf : list byte) (tbl : SymbolTable)
    (scratch : list (lsRange * nat)) :
  no_stray false buf -> resolved tbl ->
  scratch ≡ₚ scratch_of tbl -> sorted_by scratch_lt scratch ->
  project_offsets buf tbl = project_sorted buf tbl scratch /\
  (exists results,
     Forall2 (fun e o => converts buf e.1 o) scratch results /\
     project_offsets buf tbl =
       attach (clear_lsRanges <$> tbl) (zip scratch results)) /\
  (forall s, s ∈ project_offsets buf tbl -> lsRanges s = []) /\
  symbol_attrs <$> project_offsets buf tbl = symbol_attrs <$> tbl /\
  (forall fuel col b conts rest s,
     cur_c s < col -> is_newline b = false ->
     Forall (fun c => is_continuation c = true) conts -> boundary rest ->
     (conts = [] \/ 128 <= byte_val b) ->
     skip_columns (S fuel) col (b :: conts ++ rest) s =
     skip_columns fuel col rest
       (mkCursor (cur_l s) (cur_c s + 1)
                 (cur_i s + 1 + Z.of_nat (length conts)) (cur_p s + 1))) /\
  (Forall (fun b => byte_val b < 128) buf ->
   forall i, (i <= length buf)%nat -> cp_count (take i buf) = Z.of_nat i).
Proof.
  intros Hns Hres Hp Hs.
  pose proof (sorted_scratch_chained _ _ Hres Hp Hs) as Hch.
  assert (Heq : project_offsets buf tbl = project_sorted buf tbl scratch).
  { unfold project_offsets. by rewrite <- (sorted_scratch_unique _ _ Hres Hp Hs). }
  rewrite Heq. split; [done|]. split; [|split; [|split; [|split]]].
  - unfold project_sorted.
    apply (project_fold_spec buf scratch _ _ (mkPosition 0 0) [] buf);
      [|done].
    unfold scan_inv_at, tracks. simpl. repeat split; auto.
  - unfold project_sorted. apply project_fold_cleared. simpl.
    intros s (s0 & -> & _)%list_elem_of_fmap. done.
  - apply project_sorted_attrs.
  - intros. by apply skip_columns_code_point.
  - intros Hascii i Hi. rewrite ascii_cp_count.
    + rewrite length_take. lia.
    + by apply Forall_take.
Qed.

(** * The theorems at concrete inputs *)

Lemma scan_line_partition_witness :
  let tbl := [symbolA; symbolB; symbolC] in
  let evs := std_sort (ScanLineEvent_lt (clear_lsRanges <$> tbl))
                      (build_events tbl).2 in
  evs ≡ₚ (build_events tbl).2 /\
  sorted_by (ScanLineEvent_lt (clear_lsRanges <$> tbl)) evs /\
  exists out,
    scan_line (clear_lsRanges <$> tbl) evs (build_events tbl).1 = Some out /\
    same_symbols tbl out.
Proof.
  cbv zeta.
  assert (Hp : std_sort
                 (ScanLineEvent_lt (clear_lsRanges <$> [symbolA; symbolB; symbolC]))
                 (build_events [symbolA; symbolB; symbolC]).2
               ≡ₚ (build_events [symbolA; symbolB; symbolC]).2)
    by apply std_sort_perm.
  assert (Hs : sorted_by
                 (ScanLineEvent_lt (clear_lsRanges <$> [symbolA; symbolB; symbolC]))
                 (std_sort
                    (ScanLineEvent_lt (clear_lsRanges <$> [symbolA; symbolB; symbolC]))
                    (build_events [symbolA; symbolB; symbolC]).2))
    by apply std_sort_sorted.
  split; [exact Hp|]. split; [exact Hs|].
  destruct (scan_line_partition _ _ Hp Hs) as [(out & H1 & H2 & _) _].
  exists out. split; [exact H1|exact H2].
Defined.


Lemma run_notification_failure_witness :
  RequestId_valid (msg_id sample_notification) = false /\
  run (∅ : gmap string (RequestHandler unit unit unit)) ∅
      sample_notification empty_world = (empty_world, None).
Proof.
  split; [reflexivity|].
  destruct (run_notification_failure
              (∅ : gmap string (RequestHandler unit unit unit)) ∅
              sample_notification empty_world eq_refl) as [H _].
  exact (H (lookup_empty _)).
Defined.

Lemma replyLocationLink_spec_witness :
  let sorted := std_sort SampleLink_lt five_candidates in
  sorted ≡ₚ five_candidates /\ sorted_by SampleLink_lt sorted /\
  NoDup (std_unique SampleLink_eqb sorted) /\
  length (take 3 (std_unique SampleLink_eqb sorted)) = 3%nat.
Proof.
  cbv zeta.
  assert (Hp : std_sort SampleLink_lt five_candidates ≡ₚ five_candidates)
    by apply std_sort_perm.
  assert (Hs : sorted_by SampleLink_lt (std_sort SampleLink_lt five_candidates)).
  { unfold sorted_by. vm_compute.
    repeat (constructor; [|repeat (constructor; [reflexivity|])]).
    all: constructor. }
  split; [exact Hp|]. split; [exact Hs|].
  destruct (replyLocationLink_spec (State := unit)
              SampleLink_lt SampleLink_eqb SampleLink_to_Location
              SampleLink_lt_irrefl SampleLink_lt_trans SampleLink_lt_negtrans
              SampleLink_eqb_equiv (mkXrefConfig 3 true)
              five_candidates (std_sort SampleLink_lt five_candidates)
              (mkReplyOnce (mkRequestId true "1")) (mkWorld [] tt) Hp Hs)
    as (_ & Hnd & _ & _ & _ & Hlen & _).
  split; [exact Hnd|]. etransitivity; [exact Hlen|]. vm_compute. reflexivity.
Defined.

Lemma function_name_check_witness :
  funcs_anyDef foo_index (func_usr foo_index (sym_usr short_occurrence))
    = Some foo_def /\
  Pos_wf (Range_start (sym_range short_occurrence)) /\
  Pos_valid (Range_start (sym_range short_occurrence)) = true /\
  fits_size_t (concise_name (func_name foo_def)) /\
  text_at (index_lines short_file) 0 4 "foo" /\
  exists sym' idx pk k st,
    classify_func foo_index short_file short_occurrence
      = Returned _ (Keep sym' idx pk k st).
Proof.
  assert (Hwf : Pos_wf (Range_start (sym_range short_occurrence)))
    by (unfold Pos_wf; simpl; lia).
  assert (Hfit : fits_size_t (concise_name (func_name foo_def)))
    by (unfold fits_size_t; simpl; lia).
  assert (Hat : text_at (index_lines short_file) 0 4 "foo").
  { exists "int foo();", "int ", "();". repeat split; reflexivity. }
  split; [reflexivity|]. split; [exact Hwf|]. split; [reflexivity|].
  split; [exact Hfit|]. split; [exact Hat|].
  destruct (function_name_check foo_index short_file short_occurrence foo_def
              eq_refl Hwf eq_refl Hfit) as (_ & H & _).
  exact (H Hat eq_refl).
Defined.

Lemma project_offsets_code_points_witness :
  no_stray false accent_buffer /\ resolved [accent_symbol] /\
  [(col_range 2 3, O)] ≡ₚ scratch_of [accent_symbol] /\
  sorted_by scratch_lt [(col_range 2 3, O)] /\
  exists results,
    Forall2 (fun e o => converts accent_buffer e.1 o)
            [(col_range 2 3, O)] results /\
    project_offsets accent_buffer [accent_symbol] =
      attach [clear_lsRanges accent_symbol] (zip [(col_range 2 3, O)] results).
Proof.
  assert (Hns : no_stray false accent_buffer).
  { simpl. repeat split; vm_compute; congruence. }
  assert (Hres : resolved [accent_symbol]).
  { split; [|repeat constructor].
    repeat constructor; simpl; try lia. }
  assert (Hp : [(col_range 2 3, O)] ≡ₚ scratch_of [accent_symbol])
    by reflexivity.
  assert (Hs : sorted_by scratch_lt [(col_range 2 3, O)])
    by repeat constructor.
  split; [exact Hns|]. split; [exact Hres|]. split; [exact Hp|].
  split; [exact Hs|].
  destruct (project_offsets_code_points accent_buffer [accent_symbol]
              [(col_range 2 3, O)] Hns Hres Hp Hs) as (_ & H & _).
  exact H.
Defined.

Lemma out_of_sync_is_silent_witness :
  (forall sym refcnt, (sym, refcnt) ∈ [(short_occurrence, 2)] ->
     sym_kind sym = Kind_Func ->
     Pos_wf (Range_start (sym_range sym)) /\
     Pos_valid (Range_start (sym_range sym)) = true) /\
  (forall idx def, funcs_anyDef foo_index idx = Some def ->
                   fits_size_t (func_name def)) /\
  exists published,
    emitSemanticHighlight (fun _ _ => None) (fun _ => true) (fun p => p)
        default_highlight foo_index (mkWorkingFile "f.cc" [] [])
        "f.cc" [(short_occurrence, 2)]
      = Returned _ published.
Proof.
  assert (Hpos : forall sym refcnt, (sym, refcnt) ∈ [(short_occurrence, 2)] ->
            sym_kind sym = Kind_Func ->
            Pos_wf (Range_start (sym_range sym)) /\
            Pos_valid (Range_start (sym_range sym)) = true).
  { intros sym refcnt Hin%list_elem_of_singleton _.
    injection Hin as -> _. unfold Pos_wf. simpl. repeat split; lia. }
  assert (Hfit : forall idx def, funcs_anyDef foo_index idx = Some def ->
            fits_size_t (func_name def)).
  { intros idx def [= <-]. unfold fits_size_t. simpl. lia. }
  split; [exact Hpos|]. split; [exact Hfit|].
  destruct (out_of_sync_is_silent (fun _ _ => None) (fun _ => true)
              (fun p => p) default_highlight foo_index
              (mkWorkingFile "f.cc" [] []) "f.cc" [(short_occurrence, 2)]
              Hpos Hfit) as (_ & _ & _ & H).
  exact H.
Defined.


(** * Further properties of the code *)

(** ** position.hh: the orders of positions and of ranges *)

Lemma Pos_eqb_eq (a b : Pos) : Pos_eqb a b = true <-> a = b.
Proof.
  destruct a as [l1 c1], b as [l2 c2]. unfold Pos_eqb. simpl.
  rewrite andb_true_iff, !Z.eqb_eq. split; [intros [-> ->]; done|].
  intros [= -> ->]. done.
Qed.

Lemma Pos_ltb_lt (a b : Pos) :
  Pos_ltb a b = true <->
  Pos_line a < Pos_line b \/
  (Pos_line a = Pos_line b /\ Pos_column a < Pos_column b).
Proof.
  unfold Pos_ltb. destruct (Z.eqb_spec (Pos_line a) (Pos_line b)); simpl;
    rewrite Z.ltb_lt; lia.
Qed.

Lemma Pos_ltb_ge (a b : Pos) :
  Pos_ltb a b = false <->
  Pos_line b < Pos_line a \/
  (Pos_line a = Pos_line b /\ Pos_column b <= Pos_column a).
Proof.
  unfold Pos_ltb. destruct (Z.eqb_spec (Pos_line a) (Pos_line b)); simpl;
    rewrite Z.ltb_ge; lia.
Qed.

Lemma Pos_ext (a b : Pos) :
  Pos_line a = Pos_line b -> Pos_column a = Pos_column b -> a = b.
Proof. destruct a, b. simpl. by intros -> ->. Qed.

(** X1.  [Pos::operator<] is a strict total order of which [operator==] is the
    equality, and [operator<=] is its reflexive closure: [<] is
    irreflexive and transitive, of two positions exactly one is before the
    other unless they are equal, and [a <= b] holds exactly when [a < b]
    or [a == b]. *)
Theorem Pos_order (a b c : Pos) :
  Pos_ltb a a = false /\
  (Pos_ltb a b = true -> Pos_ltb b c = true -> Pos_ltb a c = true) /\
  (Pos_eqb a b = true <-> a = b) /\
  (Pos_ltb a b = true -> Pos_ltb b a = false /\ Pos_eqb a b = false) /\
  (Pos_ltb a b = false -> Pos_ltb b a = false -> Pos_eqb a b = true) /\
  Pos_leb a b = Pos_ltb a b || Pos_eqb a b /\
  (Pos_leb a b = true -> Pos_leb b c = true -> Pos_leb a c = true) /\
  (Pos_leb a b = true \/ Pos_leb b a = true) /\
  (Pos_leb a b = true -> Pos_leb b a = true -> a = b).
Proof.
  split; [apply Pos_ltb_ge; lia|].
  split; [rewrite !Pos_ltb_lt; lia|].
  split; [apply Pos_eqb_eq|].
  split.
  { intros H. split; [apply Pos_ltb_ge; apply Pos_ltb_lt in H; lia|].
    destruct (Pos_eqb a b) eqn:E; [|done].
    apply Pos_eqb_eq in E as ->. apply Pos_ltb_lt in H. lia. }
  split.
  { rewrite !Pos_ltb_ge. intros H1 H2. apply Pos_eqb_eq, Pos_ext; lia. }
  assert (Hle : forall x y, Pos_leb x y = true <->
            Pos_line x < Pos_line y \/
            (Pos_line x = Pos_line y /\ Pos_column x <= Pos_column y)).
  { intros x y. unfold Pos_leb. rewrite negb_true_iff, Pos_ltb_ge. lia. }
  split.
  { apply eq_true_iff_eq. rewrite Hle, orb_true_iff, Pos_ltb_lt, Pos_eqb_eq.
    split.
    - intros [H|[H1 H2]]; [by left; left|].
      destruct (Z.eq_dec (Pos_column a) (Pos_column b));
        [right; by apply Pos_ext|left; right; lia].
    - intros [[H|H]| ->]; lia. }
  split; [rewrite !Hle; lia|].
  split; [rewrite !Hle; lia|].
  rewrite !Hle. intros H1 H2. apply Pos_ext; lia.
Qed.

Lemma Range_eqb_eq (a b : Range) : Range_eqb a b = true <-> a = b.
Proof.
  destruct a as [s1 e1], b as [s2 e2]. unfold Range_eqb. simpl.
  rewrite andb_true_iff, !Pos_eqb_eq. split; [intros [-> ->]; done|].
  intros [= -> ->]. done.
Qed.

Lemma Range_ltb_lt (a b : Range) :
  Range_ltb a b = true <->
  Pos_ltb (Range_start a) (Range_start b) = true \/
  (Range_start a = Range_start b /\
   Pos_ltb (Range_end a) (Range_end b) = true).
Proof.
  unfold Range_ltb.
  destruct (Pos_eqb (Range_start a) (Range_start b)) eqn:E; simpl.
  - apply Pos_eqb_eq in E. rewrite E. split; [auto|].
    intros [H|[_ H]]; [|done]. apply Pos_ltb_lt in H. lia.
  - split; [auto|]. intros [H|[H _]]; [done|].
    apply Pos_eqb_eq in H. congruence.
Qed.

(** X2.  [Range::operator<] orders ranges by their start and then by their end:
    it is a strict total order of which [operator==] is the equality.  A
    range that starts earlier is before; of two ranges with one start the
    one that ends earlier is before. *)
Theorem Range_order (a b c : Range) :
  (Range_ltb a b = true <->
   Pos_ltb (Range_start a) (Range_start b) = true \/
   (Range_start a = Range_start b /\
    Pos_ltb (Range_end a) (Range_end b) = true)) /\
  Range_ltb a a = false /\
  (Range_ltb a b = true -> Range_ltb b c = true -> Range_ltb a c = true) /\
  (Range_eqb a b = true <-> a = b) /\
  (Range_ltb a b = true -> Range_ltb b a = false /\ Range_eqb a b = false) /\
  (Range_ltb a b = false -> Range_ltb b a = false -> a = b).
Proof.
  assert (Hlt : forall x y : Range, Range_ltb x y = true <->
            Pos_line (Range_start x) < Pos_line (Range_start y) \/
            (Pos_line (Range_start x) = Pos_line (Range_start y) /\
             (Pos_column (Range_start x) < Pos_column (Range_start y) \/
              (Pos_column (Range_start x) = Pos_column (Range_start y) /\
               (Pos_line (Range_end x) < Pos_line (Range_end y) \/
                (Pos_line (Range_end x) = Pos_line (Range_end y) /\
                 Pos_column (Range_end x) < Pos_column (Range_end y))))))).
  { intros x y. rewrite Range_ltb_lt, !Pos_ltb_lt. split.
    - intros [H|[Heq H]]; [lia|]. rewrite Heq. lia.
    - intros H.
      destruct (Z.eq_dec (Pos_line (Range_start x)) (Pos_line (Range_start y)));
        [|left; lia].
      destruct (Z.eq_dec (Pos_column (Range_start x))
                         (Pos_column (Range_start y))); [|left; lia].
      right. split; [by apply Pos_ext|lia]. }
  split; [apply Range_ltb_lt|].
  split.
  { destruct (Range_ltb a a) eqn:E; [|done]. apply Hlt in E. lia. }
  split.
  { rewrite !Hlt. lia. }
  split; [apply Range_eqb_eq|].
  split.
  { intros H. split.
    - destruct (Range_ltb b a) eqn:E; [|done].
      apply Hlt in H, E. lia.
    - destruct (Range_eqb a b) eqn:E; [|done].
      apply Range_eqb_eq in E as ->. apply Hlt in H. lia. }
  intros H1 H2.
  assert (N1 : ~ Range_ltb a b = true) by congruence.
  assert (N2 : ~ Range_ltb b a = true) by congruence.
  rewrite Hlt in N1, N2.
  destruct a as [[] []], b as [[] []]. simpl in *.
  f_equal; f_equal; lia.
Qed.

(** ** The comparison of sweep events *)

(** X3.  [ScanLineEvent::operator<] is a strict weak ordering, as [std::sort]
    requires of its comparison: it is irreflexive, asymmetric and
    transitive, and being unordered is transitive.  Two events are
    unordered exactly when they agree on the position, the end, the kind
    and the id of their symbol. *)
Theorem ScanLineEvent_lt_strict_weak (tbl : SymbolTable)
    (a b c : ScanLineEvent) :
  ScanLineEvent_lt tbl a a = false /\
  (ScanLineEvent_lt tbl a b = true -> ScanLineEvent_lt tbl b a = false) /\
  (ScanLineEvent_lt tbl a b = true -> ScanLineEvent_lt tbl b c = true ->
   ScanLineEvent_lt tbl a c = true) /\
  (ScanLineEvent_lt tbl a b = false -> ScanLineEvent_lt tbl b a = false ->
   ScanLineEvent_lt tbl b c = false -> ScanLineEvent_lt tbl c b = false ->
   ScanLineEvent_lt tbl a c = false /\ ScanLineEvent_lt tbl c a = false) /\
  (ScanLineEvent_lt tbl a b = false /\ ScanLineEvent_lt tbl b a = false <->
   pos a = pos b /\ end_pos a = end_pos b /\
   symbol_kind tbl a = symbol_kind tbl b /\
   symbol_id tbl a = symbol_id tbl b).
Proof.
  assert (Hf : forall x y, ScanLineEvent_lt tbl x y = false <->
                           ~ lex_lt (sort_key tbl x) (sort_key tbl y)).
  { intros x y. rewrite <- ScanLineEvent_lt_key.
    destruct (ScanLineEvent_lt tbl x y); split; congruence. }
  rewrite !Hf, !ScanLineEvent_lt_key. unfold sort_key. simpl.
  split; [lia|]. split; [lia|]. split; [lia|]. split; [lia|].
  split.
  - intros [H1 H2]. split; [apply Position_ext; lia|].
    split; [apply Position_ext; lia|]. lia.
  - intros (-> & -> & -> & ->). lia.
Qed.

(** ** Binding and dispatch *)

Section bind_properties.
Context {Json Res State : Type}.
Implicit Types (h : @MessageHandler Json Res State).
Implicit Types (m : @Member Json Res State).

Lemma bind_requests method m h name :
  handler_requests (bind method m h) !! name =
  match request_of m with
  | Some f => if decide (name = method) then Some f
              else handler_requests h !! name
  | None => handler_requests h !! name
  end.
Proof.
  destruct m; simpl; try done;
    (destruct (decide (name = method)) as [->|Hne];
     [by rewrite lookup_insert_eq | by rewrite lookup_insert_ne]).
Qed.

Lemma bind_notifications method m h name :
  handler_notifications (bind method m h) !! name =
  match notification_of m with
  | Some f => if decide (name = method) then Some f
              else handler_notifications h !! name
  | None => handler_notifications h !! name
  end.
Proof.
  destruct m; simpl; try done;
    (destruct (decide (name = method)) as [->|Hne];
     [by rewrite lookup_insert_eq | by rewrite lookup_insert_ne]).
Qed.

Lemma member_one_table m :
  (is_Some (request_of m) /\ notification_of m = None) \/
  (is_Some (notification_of m) /\ request_of m = None).
Proof. destruct m; simpl; eauto. Qed.

(** X4.  A request bound with a decoded parameter.  When the parameters of a
    request for the bound method decode, the request is handled by the
    member and the dispatcher adds nothing to a normal return; when they
    do not decode, the member does not run: the state is untouched and the
    one message sent is the [InvalidParams] reply, which carries the
    expected type and the path that the reader had reached.  Binding a
    request changes nothing for the other methods nor for notifications,
    and a later binding of the method replaces an earlier one. *)
Theorem bind_request_dispatch {Param : Type} (decode : Reflect Param)
    (handler : Param -> ReplyOnce -> @World Res State ->
               @World Res State * option Exn)
    (name : string) h (msg : @InMessage Json) (w : @World Res State) :
  RequestId_valid (msg_id msg) = true -> method msg = name ->
  let h' := bind name (RequestOfParam decode handler) h in
  let reader := mkReader (params msg) "" in
  let reply := mkReplyOnce (msg_id msg) in
  (forall reader1 param w1,
     reflect decode reader (init decode) = (reader1, Returned _ param) ->
     handler param reply w = (w1, None) ->
     MessageHandler_run h' msg w = (w1, None)) /\
  (forall reader1 what,
     reflect decode reader (init decode)
       = (reader1, Thrown _ (invalid_argument what)) ->
     MessageHandler_run h' msg w =
       (mkWorld (sent w ++ [ReplyError (msg_id msg) InvalidParams
                   ("invalid params of " +:+ name +:+ ": expected " +:+
                    what +:+ " for " +:+ getPath reader1)])
                (state w), None)) /\
  (forall msg' w', method msg' <> name ->
     MessageHandler_run h' msg' w' = MessageHandler_run h msg' w') /\
  (forall msg' w', RequestId_valid (msg_id msg') = false ->
     MessageHandler_run h' msg' w' = MessageHandler_run h msg' w') /\
  (forall m0, request_of m0 <> None ->
     MessageHandler_run (bind name (RequestOfParam decode handler)
                              (bind name m0 h)) msg w
     = MessageHandler_run h' msg w).
Proof.
  intros Hvalid Hname h' reader reply.
  assert (Hrun : forall h0,
            handler_requests h0 !! name
              = Some (request_closure decode handler) ->
            MessageHandler_run h0 msg w =
            match request_closure decode handler reader reply w with
            | (w1, _, None) => (w1, None)
            | (w1, reader1, Some (invalid_argument what)) =>
                (ReplyOnce_error reply InvalidParams
                   ("invalid params of " +:+ method msg +:+ ": expected " +:+
                    what +:+ " for " +:+ getPath reader1) w1, None)
            | (w1, _, Some (NotIndexed path)) => (w1, Some (NotIndexed path))
            | (w1, _, Some (other_exception _)) =>
                (ReplyOnce_error reply InternalError
                   ("failed to process " +:+ method msg) w1, None)
            end).
  { intros h0 Hh0. unfold MessageHandler_run, run.
    rewrite Hvalid, Hname, Hh0. done. }
  assert (Hh' : handler_requests h' !! name
                = Some (request_closure decode handler)).
  { unfold h'. rewrite bind_requests. simpl. by rewrite decide_True. }
  split; [|split; [|split; [|split]]].
  - intros reader1 param w1 Hdec Hcall. rewrite (Hrun h' Hh').
    unfold request_closure. by rewrite Hdec, Hcall.
  - intros reader1 what Hdec. rewrite (Hrun h' Hh').
    unfold request_closure. rewrite Hdec, Hname. done.
  - intros msg' w' Hne. unfold MessageHandler_run, run, h'. simpl.
    by rewrite lookup_insert_ne.
  - intros msg' w' Hinv. unfold MessageHandler_run, run. by rewrite Hinv.
  - intros m0 Hm0. rewrite (Hrun h' Hh'). apply Hrun.
    rewrite bind_requests. simpl. by rewrite decide_True.
Qed.

(** X5.  A notification bound with a decoded parameter.  When the parameters of
    a notification for the bound method decode, the notification is
    handled by the member and the dispatcher adds nothing to a normal
    return; when decoding raises, whatever it raises, the member does not
    run, nothing is raised to the caller and the one message sent is the
    show-message notification of severity [Error] naming the method.
    Binding a notification changes nothing for the other methods nor for
    requests. *)
Theorem bind_notification_dispatch {Param : Type} (decode : Reflect Param)
    (handler : Param -> @World Res State -> @World Res State * option Exn)
    (name : string) h (msg : @InMessage Json) (w : @World Res State) :
  RequestId_valid (msg_id msg) = false -> method msg = name ->
  let h' := bind name (NotificationOfParam decode handler) h in
  let reader := mkReader (params msg) "" in
  (forall reader1 param w1,
     reflect decode reader (init decode) = (reader1, Returned _ param) ->
     handler param w = (w1, None) ->
     MessageHandler_run h' msg w = (w1, None)) /\
  (forall reader1 e,
     reflect decode reader (init decode) = (reader1, Thrown _ e) ->
     MessageHandler_run h' msg w =
       (mkWorld (sent w ++ [Notify window_showMessage
                   (mkShowMessage MessageType_Error
                      ("failed to process " +:+ name))])
                (state w), None)) /\
  (forall msg' w', method msg' <> name ->
     MessageHandler_run h' msg' w' = MessageHandler_run h msg' w') /\
  (forall msg' w', RequestId_valid (msg_id msg') = true ->
     MessageHandler_run h' msg' w' = MessageHandler_run h msg' w').
Proof.
  intros Hvalid Hname h' reader.
  assert (Hh' : handler_notifications h' !! name
                = Some (notification_closure decode handler)).
  { unfold h'. rewrite bind_notifications. simpl. by rewrite decide_True. }
  split; [|split; [|split]].
  - intros reader1 param w1 Hdec Hcall. unfold MessageHandler_run, run.
    rewrite Hvalid, Hname, Hh'. unfold notification_closure.
    fold reader. by rewrite Hdec, Hcall.
  - intros reader1 e Hdec. unfold MessageHandler_run, run.
    rewrite Hvalid, Hname, Hh'. unfold notification_closure.
    fold reader. by rewrite Hdec.
  - intros msg' w' Hne. unfold MessageHandler_run, run, h'. simpl.
    by rewrite lookup_insert_ne.
  - intros msg' w' Hinv. unfold MessageHandler_run, run. by rewrite Hinv.
Qed.

Lemma MessageHandler_new_lookup (member : string -> Member)
    (methods : list string) h name :
  let h' := foldl (fun h method => bind method (member method) h) h methods in
  handler_requests h' !! name =
    (if decide (name ∈ methods)
     then match request_of (member name) with
          | Some f => Some f
          | None => handler_requests h !! name
          end
     else handler_requests h !! name) /\
  handler_notifications h' !! name =
    (if decide (name ∈ methods)
     then match notification_of (member name) with
          | Some f => Some f
          | None => handler_notifications h !! name
          end
     else handler_notifications h !! name).
Proof.
  revert h. induction methods as [|method methods IH] using rev_ind;
    intros h; [done|]. cbv zeta.
  - rewrite foldl_app. simpl. rewrite bind_requests, bind_notifications.
    destruct (IH h) as [IH1 IH2]. rewrite IH1, IH2. clear IH IH1 IH2.
    assert (Hin : name ∈ methods ++ [method] <-> name ∈ methods \/ name = method)
      by (rewrite elem_of_app, list_elem_of_singleton; done).
    split; repeat case_decide; subst; repeat case_match;
      simplify_eq; try done; tauto.
Qed.

(** X6.  The tables that the constructor builds.  A method is bound exactly
    when it is one of the 39 methods listed; each of those is bound in one
    table only, the one of its member's signature, to that member.  A
    request for any other method is answered [MethodNotFound], and a
    notification for any other method is dropped without a message. *)
Theorem MessageHandler_new_methods (member : string -> @Member Json Res State)
    (name : string) :
  let h := MessageHandler_new member in
  length bound_methods = 39%nat /\ NoDup bound_methods /\
  handler_requests h !! name =
    (if decide (name ∈ bound_methods) then request_of (member name)
     else None) /\
  handler_notifications h !! name =
    (if decide (name ∈ bound_methods) then notification_of (member name)
     else None) /\
  (name ∈ bound_methods ->
   (is_Some (handler_requests h !! name) /\
    handler_notifications h !! name = None) \/
   (is_Some (handler_notifications h !! name) /\
    handler_requests h !! name = None)) /\
  (name ∉ bound_methods ->
   forall (msg : @InMessage Json) (w : @World Res State),
     method msg = name ->
     MessageHandler_run h msg w =
       if RequestId_valid (msg_id msg)
       then (mkWorld (sent w ++ [ReplyError (msg_id msg) MethodNotFound
                                   ("unknown request " +:+ name)])
                     (state w), None)
       else (w, None)).
Proof.
  intros h.
  destruct (MessageHandler_new_lookup member bound_methods
              (mkMessageHandler ∅ ∅) name) as [H1 H2].
  fold (MessageHandler_new member) in H1, H2. fold h in H1, H2.
  simpl in H1, H2. rewrite lookup_empty in H1. rewrite lookup_empty in H2.
  assert (Hr : handler_requests h !! name =
               (if decide (name ∈ bound_methods) then request_of (member name)
                else None)).
  { rewrite H1. case_decide; [|done]. by destruct (request_of (member name)). }
  assert (Hn : handler_notifications h !! name =
               (if decide (name ∈ bound_methods)
                then notification_of (member name) else None)).
  { rewrite H2. case_decide; [|done].
    by destruct (notification_of (member name)). }
  split; [reflexivity|]. split; [apply (bool_decide_unpack _); by vm_compute|].
  split; [exact Hr|]. split; [exact Hn|]. split.
  - intros Hin. rewrite Hr, Hn, !decide_True by done. apply member_one_table.
  - intros Hnin msg w Hm. unfold MessageHandler_run, run.
    rewrite Hm, Hr, Hn, !decide_False by done.
    by destruct (RequestId_valid (msg_id msg)).
Qed.
End bind_properties.

(** ** What leaves the dispatcher *)

Section run_properties.
Context {Json Res State : Type}.
Context (method2request : gmap string (RequestHandler Json Res State)).
Context (method2notification :
           gmap string (NotificationHandler Json Res State)).

(** X7.  The only exception that leaves [run] is a [NotIndexed] raised by the
    handler of a request, with the world as that handler left it; and when
    a handler returns normally, [run] returns with the world as the
    handler left it: the dispatcher sends nothing of its own. *)
Theorem run_escapes (msg : @InMessage Json) (w : @World Res State) :
  let reader := mkReader (params msg) "" in
  let reply := mkReplyOnce (msg_id msg) in
  (forall w' e,
     run method2request method2notification msg w = (w', Some e) ->
     RequestId_valid (msg_id msg) = true /\
     exists handler reader1 path,
       method2request !! method msg = Some handler /\
       handler reader reply w = (w', reader1, Some (NotIndexed path)) /\
       e = NotIndexed path) /\
  (forall handler w1 reader1,
     RequestId_valid (msg_id msg) = true ->
     method2request !! method msg = Some handler ->
     handler reader reply w = (w1, reader1, None) ->
     run method2request method2notification msg w = (w1, None)) /\
  (forall handler w1 reader1,
     RequestId_valid (msg_id msg) = false ->
     method2notification !! method msg = Some handler ->
     handler reader w = (w1, reader1, None) ->
     run method2request method2notification msg w = (w1, None)).
Proof.
  intros reader reply. split; [|split].
  - intros w' e. unfold run. fold reader reply.
    destruct (RequestId_valid (msg_id msg)).
    + destruct (method2request !! method msg) as [handler|]; [|done].
      destruct (handler reader reply w) as [[w1 reader1] [[what|path|what]|]]
        eqn:Hcall; try done.
      intros [= <- <-]. split; [done|]. by exists handler, reader1, path.
    + destruct (method2notification !! method msg) as [handler|]; [|done].
      destruct (handler reader w) as [[w1 reader1] [x|]]; done.
  - intros handler w1 reader1 Hvalid Hh Hcall. unfold run.
    fold reader reply. by rewrite Hvalid, Hh, Hcall.
  - intros handler w1 reader1 Hvalid Hh Hcall. unfold run.
    fold reader. by rewrite Hvalid, Hh, Hcall.
Qed.
End run_properties.

Section findOrFail_outcomes.
Context {Res State QueryFile WorkingFile : Type}.
Context (has_def : QueryFile -> bool).
Context (lowerPathIfInsensitive : string -> string).

(** [findFile] returns a file only from the entry of the lowered path in
    [name2file_id], only when that file has a definition, and then reports
    the id of the entry; when it returns none, the id reported is -1. *)
Lemma findFile_cases (db : @DB QueryFile) (path : string) :
  (forall file file_id,
     findFile has_def lowerPathIfInsensitive db path = (Some file, file_id) <->
     name2file_id db !! lowerPathIfInsensitive path = Some file_id /\
     file = files db file_id /\ has_def file = true) /\
  ((findFile has_def lowerPathIfInsensitive db path).1 = None ->
   (findFile has_def lowerPathIfInsensitive db path).2 = -1).
Proof.
  unfold findFile.
  destruct (name2file_id db !! lowerPathIfInsensitive path) as [file_id|].
  - destruct (has_def (files db file_id)) eqn:Hdef; split; try done.
    + intros file id'. split.
      * by intros [= <- <-].
      * by intros ([= <-] & -> & _).
    + intros file id'. split; [done|]. intros ([= <-] & -> & ?). congruence.
  - split; [|done]. intros file file_id. split; [done|]. by intros [? _].
Qed.

(** X8.  [findOrFail] looks at the opened files first: for a path that is not
    opened it answers [InvalidRequest] with the path followed by
    " is not opened" and returns the null pair, whatever the index holds
    and whether or not indexing is over.  It returns a pair only for an
    opened path whose lowered form has an entry in the index with a
    definition; the pair is that entry and the opened file, and nothing is
    sent.  A null pair is never returned silently: exactly one error reply
    to the request has been sent, and the state is untouched. *)
Theorem findOrFail_cases (db : @DB QueryFile)
    (wfiles : gmap string WorkingFile) (overdue : bool) (path : string)
    (reply : ReplyOnce) (w : @World Res State) :
  let r := findOrFail has_def lowerPathIfInsensitive db wfiles overdue
                      path reply w in
  (wfiles !! path = None ->
   r = (mkWorld (sent w ++ [ReplyError (reply_id reply) InvalidRequest
                              (path +:+ " is not opened")]) (state w),
        Returned _ None)) /\
  (forall w' file wf,
     r = (w', Returned _ (Some (file, wf))) <->
     w' = w /\ wfiles !! path = Some wf /\
     exists file_id,
       name2file_id db !! lowerPathIfInsensitive path = Some file_id /\
       file = files db file_id /\ has_def file = true) /\
  (forall w', r = (w', Returned _ None) ->
     state w' = state w /\
     exists code message,
       sent w' = sent w ++ [ReplyError (reply_id reply) code message]).
Proof.
  intros r. subst r. unfold findOrFail, notOpened, ReplyOnce_error, pipeline_send.
  destruct (findFile_cases db path) as [Hfile _].
  destruct (wfiles !! path) as [wf0|].
  - destruct (findFile has_def lowerPathIfInsensitive db path) as [[file0|] id0]
      eqn:Hfind; simpl.
    + split; [done|]. split; [|done]. intros w' file wf. split.
      * intros [= <- <- <-]. split; [done|]. split; [done|].
        exists id0. by apply Hfile.
      * intros (-> & [= ->] & file_id & Hid).
        apply Hfile in Hid. by injection Hid as <- _.
    + split; [done|]. split.
      * intros w' file wf. split; [by destruct overdue|].
        intros (_ & _ & file_id & Hid). apply Hfile in Hid. done.
      * intros w'. destruct overdue; simpl; [|done].
        intros [= <-]. simpl. eauto.
  - split; [done|]. split.
    + intros w' file wf. split; [done|]. by intros (_ & ? & _).
    + intros w' [= <-]. simpl. eauto.
Qed.
End findOrFail_outcomes.

(** ** emitSkippedRanges *)

Section skipped_properties.
Context (getLsRange : WorkingFile -> Range -> option lsRange).
Context (fromPath : string -> string).

Lemma push_skipped_fold wfile acc l :
  foldl (push_skipped getLsRange wfile) acc l
  = acc ++ omap (getLsRange wfile) l.
Proof.
  revert acc. induction l as [|r l IH]; intros acc; csimpl.
  - by rewrite app_nil_r.
  - rewrite IH. unfold push_skipped.
    destruct (getLsRange wfile r); [|done]. by rewrite <- app_assoc.
Qed.

(** X9.  The notification of skipped ranges carries the uri of the file and the
    recorded ranges that map into the buffer, mapped, in the order in which
    they are recorded; those that do not map are left out, so that it
    holds at most as many ranges as are recorded, and all of them when all
    map. *)
Theorem emitSkippedRanges_spec (wfile : WorkingFile)
    (skipped_ranges : list Range) :
  let params := emitSkippedRanges getLsRange fromPath wfile skipped_ranges in
  skipped_uri params = fromPath (filename wfile) /\
  skippedRanges params = omap (getLsRange wfile) skipped_ranges /\
  (length (skippedRanges params) <= length skipped_ranges)%nat /\
  (forall ls, ls ∈ skippedRanges params <->
     exists r, r ∈ skipped_ranges /\ getLsRange wfile r = Some ls) /\
  (forall mapped,
     Forall2 (fun r ls => getLsRange wfile r = Some ls) skipped_ranges mapped ->
     skippedRanges params = mapped) /\
  (Forall (fun r => getLsRange wfile r = None) skipped_ranges ->
   skippedRanges params = []).
Proof.
  intros params.
  assert (Heq : skippedRanges params = omap (getLsRange wfile) skipped_ranges).
  { unfold params, emitSkippedRanges. simpl. by rewrite push_skipped_fold. }
  split; [done|]. split; [done|]. rewrite Heq. clear params Heq.
  split; [|split; [|split]].
  - induction skipped_ranges as [|r l IH]; csimpl; [lia|].
    destruct (getLsRange wfile r); csimpl; lia.
  - intros ls. apply list_elem_of_omap.
  - intros mapped H. induction H as [|r ls l mapped Hr _ IH]; [done|].
    csimpl. by rewrite Hr, IH.
  - induction 1 as [|r l Hr _ IH]; [done|]. csimpl. by rewrite Hr.
Qed.
End skipped_properties.

(** ** The concise name of a function *)

Lemma index_angle_cons (c : ascii) (s : string) :
  index 0 "<" (String c s) =
  if Ascii.eqb c "<" then Some O
  else match index 0 "<" s with Some n => Some (S n) | None => None end.
Proof.
  cbn [index String.prefix]. destruct (ascii_dec "<" c) as [<-|Hne].
  - cbn [Ascii.eqb Bool.eqb]. by destruct s.
  - destruct (Ascii.eqb_spec c "<"%char); [congruence|done].
Qed.

Lemma concise_name_cons (c : ascii) (s : string) :
  concise_name (String c s) =
  if Ascii.eqb c "<" then "" else String c (concise_name s).
Proof.
  unfold concise_name. rewrite index_angle_cons.
  destruct (Ascii.eqb c "<"); [done|].
  destruct (index 0 "<" s); done.
Qed.

(** X10.  The concise name of a function is the part of its name before the
    first '<': the name is the concise name followed by nothing or by
    text that begins with '<', and the concise name has no '<'.  A name
    without '<' is its own concise name, and taking the concise name twice
    is taking it once. *)
Theorem concise_name_spec (name : string) :
  (exists rest, name = concise_name name +:+ rest /\
     (rest = "" \/ exists rest', rest = String "<" rest')) /\
  no_angle (concise_name name) /\
  (no_angle name -> concise_name name = name) /\
  concise_name (concise_name name) = concise_name name /\
  (forall pre rest, no_angle pre ->
     concise_name (pre +:+ String "<" rest) = pre).
Proof.
  assert (H3 : forall s, no_angle s -> concise_name s = s).
  { intros s Hs. unfold concise_name. by rewrite Hs. }
  assert (H2 : forall s, no_angle (concise_name s)).
  { induction s as [|c s IH]; [done|]. rewrite concise_name_cons.
    destruct (Ascii.eqb c "<") eqn:E; [done|].
    unfold no_angle in *. by rewrite index_angle_cons, E, IH. }
  split; [|split; [apply H2|split; [apply H3|split; [apply H3, H2|]]]].
  - induction name as [|c s (rest & Hrest & Hr)].
    + exists "". by split; [|left].
    + rewrite concise_name_cons. destruct (Ascii.eqb_spec c "<"%char) as [->|].
      * exists (String "<" s). split; [done|]. right. eauto.
      * exists rest. split; [|done]. rewrite string_app_cons. by f_equal.
  - induction pre as [|c pre IH]; intros rest Hpre.
    + rewrite string_app_nil_l. by rewrite concise_name_cons.
    + rewrite string_app_cons, concise_name_cons.
      unfold no_angle in Hpre. rewrite index_angle_cons in Hpre.
      destruct (Ascii.eqb c "<"); [done|]. f_equal. apply IH.
      unfold no_angle. by destruct (index 0 "<" pre).
Qed.

(** ** The classification of occurrences *)

Lemma scan_type_defs_spec defs acc :
  (forall pre d post,
     defs = pre ++ d :: post ->
     Forall (fun d0 => type_spell d0 = false) pre -> type_spell d = true ->
     scan_type_defs defs acc = (type_parent_kind d, type_kind d)) /\
  (Forall (fun d0 => type_spell d0 = false) defs ->
   scan_type_defs defs acc =
     (acc.1, from_option type_kind acc.2 (last defs))).
Proof.
  revert acc. induction defs as [|d0 defs IH]; intros acc.
  - split; [by intros [] ? ? ?|]. by destruct acc.
  - destruct (IH (acc.1, type_kind d0)) as [IH1 IH2]. split.
    + intros [|p pre] d post.
      * intros [= <- <-] _ Hd. simpl. by rewrite Hd.
      * intros [= <- ->] Hpre Hd. apply Forall_cons in Hpre as [Hp Hpre].
        simpl. rewrite Hp. by eapply IH1.
    + intros [Hd Hdefs]%Forall_cons. simpl. rewrite Hd, IH2 by done.
      cbn [fst snd]. destruct defs as [|d1 defs]; [done|].
      rewrite last_cons_cons. destruct (last (d1 :: defs)) eqn:E; [done|].
      by apply last_None in E.
Qed.

Lemma scan_var_defs_spec defs acc :
  (forall pre d post,
     defs = pre ++ d :: post ->
     Forall (fun d0 => var_spell d0 = false) pre -> var_spell d = true ->
     scan_var_defs defs acc = (var_parent_kind d, var_kind d, var_storage d)) /\
  (Forall (fun d0 => var_spell d0 = false) defs ->
   scan_var_defs defs acc =
     (acc.1.1, from_option var_kind acc.1.2 (last defs),
      from_option var_storage acc.2 (last defs))).
Proof.
  revert acc. induction defs as [|d0 defs IH]; intros acc.
  - split; [by intros [] ? ? ?|]. by destruct acc as [[] ?].
  - destruct (IH (acc.1.1, var_kind d0, var_storage d0)) as [IH1 IH2]. split.
    + intros [|p pre] d post.
      * intros [= <- <-] _ Hd. simpl. by rewrite Hd.
      * intros [= <- ->] Hpre Hd. apply Forall_cons in Hpre as [Hp Hpre].
        simpl. rewrite Hp. by eapply IH1.
    + intros [Hd Hdefs]%Forall_cons. simpl. rewrite Hd, IH2 by done.
      cbn [fst snd]. destruct defs as [|d1 defs]; [done|].
      rewrite last_cons_cons. destruct (last (d1 :: defs)) eqn:E; [done|].
      by apply last_None in E.
Qed.

(** X11.  The occurrence of a type or of a variable is always kept, with its
    range as the index recorded it, whatever the working file holds.  Its
    attributes come from the definitions of the symbol: from the first
    definition that has a spelling when there is one; otherwise the kind
    (and the storage) are those of the last definition and the parent kind
    is [Unknown]; a symbol without definition has kind [Unknown].  An
    occurrence of any other kind than function, type and variable is
    skipped, and so is that of a function without definition. *)
Theorem classify_by_kind (db : SymbolIndex) (wfile : WorkingFile)
    (sym : SymbolRef) :
  (sym_kind sym = Kind_Type ->
   let defs := types_def db (type_usr db (sym_usr sym)) in
   exists pk k,
     classify db wfile sym
       = Returned _ (Keep sym (type_usr db (sym_usr sym)) pk k SC_None) /\
     (forall pre d post, defs = pre ++ d :: post ->
        Forall (fun d0 => type_spell d0 = false) pre -> type_spell d = true ->
        pk = type_parent_kind d /\ k = type_kind d) /\
     (Forall (fun d0 => type_spell d0 = false) defs ->
        pk = Unknown /\ k = from_option type_kind Unknown (last defs))) /\
  (sym_kind sym = Kind_Var ->
   let defs := vars_def db (var_usr db (sym_usr sym)) in
   exists pk k st,
     classify db wfile sym
       = Returned _ (Keep sym (var_usr db (sym_usr sym)) pk k st) /\
     (forall pre d post, defs = pre ++ d :: post ->
        Forall (fun d0 => var_spell d0 = false) pre -> var_spell d = true ->
        pk = var_parent_kind d /\ k = var_kind d /\ st = var_storage d) /\
     (Forall (fun d0 => var_spell d0 = false) defs ->
        pk = Unknown /\ k = from_option var_kind Unknown (last defs) /\
        st = from_option var_storage SC_None (last defs))) /\
  (sym_kind sym <> Kind_Func ->
   forall wfile', classify db wfile' sym = classify db wfile sym) /\
  (sym_kind sym = Kind_Invalid \/ sym_kind sym = Kind_File ->
   classify db wfile sym = Returned _ Skip) /\
  (sym_kind sym = Kind_Func ->
   funcs_anyDef db (func_usr db (sym_usr sym)) = None ->
   classify db wfile sym = Returned _ Skip).
Proof.
  split; [|split; [|split; [|split]]].
  - intros Hk defs. unfold classify. rewrite Hk. fold defs.
    destruct (scan_type_defs_spec defs (Unknown, Unknown)) as [H1 H2].
    eexists _, _. split; [done|]. split.
    + intros pre d post Hd Hpre Hs. by rewrite (H1 pre d post).
    + intros Hall. by rewrite H2.
  - intros Hk defs. unfold classify. rewrite Hk. fold defs.
    destruct (scan_var_defs_spec defs (Unknown, Unknown, SC_None)) as [H1 H2].
    eexists _, _, _. split; [done|]. split.
    + intros pre d post Hd Hpre Hs. by rewrite (H1 pre d post).
    + intros Hall. by rewrite H2.
  - intros Hk wfile'. unfold classify. by destruct (sym_kind sym).
  - unfold classify. by intros [-> | ->].
  - intros Hk Hdef. unfold classify, classify_func. by rewrite Hk, Hdef.
Qed.

(** ** The table of grouped symbols *)

Lemma find_grouped_add grouped key loc fresh key' :
  find_grouped (add_grouped grouped key loc fresh) key' =
  if decide (key' = key)
  then Some (match find_grouped grouped key with
             | Some s => add_lsRange loc s
             | None => fresh
             end)
  else find_grouped grouped key'.
Proof.
  induction grouped as [|[k s] grouped IH]; simpl.
  - repeat case_decide; congruence.
  - destruct (decide (k = key)) as [->|Hne]; simpl.
    + repeat case_decide; congruence.
    + rewrite IH. repeat case_decide; congruence.
Qed.

Lemma add_grouped_keys grouped key loc fresh :
  (add_grouped grouped key loc fresh).*1 =
  if find_grouped grouped key is Some _ then grouped.*1
  else grouped.*1 ++ [key].
Proof.
  induction grouped as [|[k s] grouped IH]; [done|].
  cbn [add_grouped find_grouped].
  destruct (decide (k = key)) as [->|Hne]; [done|].
  rewrite !fmap_cons, IH. by destruct (find_grouped grouped key).
Qed.

Lemma find_grouped_None grouped key :
  find_grouped grouped key = None <-> key ∉ grouped.*1.
Proof.
  induction grouped as [|[k s] grouped IH].
  - split; [intros _; apply not_elem_of_nil|done].
  - cbn [find_grouped]. rewrite fmap_cons, not_elem_of_cons. simpl.
    destruct (decide (k = key)) as [->|Hne]; [split; [done|tauto]|].
    rewrite IH. split; [|tauto]. intros H. split; [congruence|done].
Qed.

Lemma add_grouped_NoDup grouped key loc fresh :
  NoDup grouped.*1 -> NoDup (add_grouped grouped key loc fresh).*1.
Proof.
  intros Hnd. rewrite add_grouped_keys.
  destruct (find_grouped grouped key) eqn:E; [done|].
  apply NoDup_app. split; [done|]. split; [|apply NoDup_singleton].
  intros k Hk ->%list_elem_of_singleton. by apply find_grouped_None in E.
Qed.

Lemma find_grouped_elem grouped key s :
  NoDup grouped.*1 ->
  (key, s) ∈ grouped <-> find_grouped grouped key = Some s.
Proof.
  induction grouped as [|[k s0] grouped IH]; intros Hnd.
  - split; [by intros ?%elem_of_nil|done].
  - rewrite fmap_cons in Hnd. apply NoDup_cons in Hnd as [Hk Hnd].
    cbn [find_grouped]. rewrite elem_of_cons, IH by done. simpl in Hk.
    destruct (decide (k = key)) as [->|Hne].
    + apply find_grouped_None in Hk. split; [|intros [= ->]; by left].
      intros [[= ->]|Hf]; [done|congruence].
    + split; [|by right]. intros [[= ? ?]|?]; [congruence|done].
Qed.

Section grouping_contents.
Context (getLsRange : WorkingFile -> Range -> option lsRange).
Context (db : SymbolIndex) (wfile : WorkingFile).

Lemma group_occurrence_contribution grouped occ grouped' :
  group_occurrence getLsRange db wfile grouped occ = Returned _ grouped' ->
  grouped' =
  match contribution getLsRange db wfile occ with
  | Some (key, (idx, pk, k, st), loc) =>
      add_grouped grouped key loc (mkSymbol idx pk k st [] [loc])
  | None => grouped
  end.
Proof.
  unfold group_occurrence, contribution. destruct (occ.2 <=? 0).
  { by intros [= <-]. }
  destruct (classify db wfile occ.1) as [[|sym idx pk k st]|]; [| |done].
  { by intros [= <-]. }
  destruct (getLsRange wfile (sym_range sym)); by intros [= <-].
Qed.

Lemma with_lsRanges_app a b s :
  with_lsRanges (a ++ b) s = with_lsRanges b (with_lsRanges a s).
Proof. unfold with_lsRanges. simpl. by rewrite app_assoc. Qed.

Lemma with_lsRanges_nil s : with_lsRanges [] s = s.
Proof. destruct s. unfold with_lsRanges. simpl. by rewrite app_nil_r. Qed.

Lemma group_symbols_find occs :
  forall grouped grouped',
    group_symbols getLsRange db wfile grouped occs = Returned _ grouped' ->
    (NoDup grouped.*1 -> NoDup grouped'.*1) /\
    forall key,
      find_grouped grouped' key =
      match find_grouped grouped key,
            contributions getLsRange db wfile occs key with
      | Some s, cs => Some (with_lsRanges cs.*2 s)
      | None, [] => None
      | None, (_, (idx, pk, k, st), loc) :: cs =>
          Some (mkSymbol idx pk k st [] (loc :: cs.*2))
      end.
Proof.
  induction occs as [|occ occs IH]; intros grouped grouped'.
  - intros [= <-]. split; [done|]. intros key. unfold contributions. simpl.
    destruct (find_grouped grouped key); [|done]. by rewrite with_lsRanges_nil.
  - simpl.
    destruct (group_occurrence getLsRange db wfile grouped occ)
      as [g1|] eqn:Hocc; [|done].
    intros Hrest. destruct (IH _ _ Hrest) as [Hnd Hfind].
    apply group_occurrence_contribution in Hocc. split.
    + intros H0. apply Hnd. rewrite Hocc.
      destruct (contribution getLsRange db wfile occ)
        as [[[key [[[idx pk] k] st]] loc]|]; [|done].
      by apply add_grouped_NoDup.
    + intros key. rewrite Hfind. unfold contributions. csimpl.
      fold (contributions getLsRange db wfile occs key).
      destruct (contribution getLsRange db wfile occ)
        as [[[key0 [[[idx pk] k] st]] loc]|] eqn:Hc; csimpl.
      * rewrite Hocc, find_grouped_add, filter_cons. simpl.
        destruct (decide (key0 = key)) as [->|Hne].
        { rewrite decide_True by done.
          fold (contributions getLsRange db wfile occs key).
          destruct (find_grouped grouped key) as [s|]; simpl.
          - f_equal. change (loc :: ?l) with ([loc] ++ l).
            by rewrite with_lsRanges_app.
          - done. }
        rewrite decide_False by done.
        fold (contributions getLsRange db wfile occs key). done.
      * by rewrite Hocc.
Qed.

(** X12.  The grouped symbols hold one entry per key.  A symbol has an entry
    exactly when one of the occurrences contributes to it, that is, has a
    positive count, is kept by the classification and has a range that
    maps into the buffer; the entry carries the attributes computed for
    the first such occurrence, no offsets, and the mapped ranges of all
    such occurrences of the symbol in their order. *)
Theorem group_symbols_contents (occs : list (SymbolRef * Z))
    (grouped : Grouped) :
  group_symbols getLsRange db wfile [] occs = Returned _ grouped ->
  NoDup grouped.*1 /\
  (forall key s, (key, s) ∈ grouped <-> find_grouped grouped key = Some s) /\
  (forall key,
     find_grouped grouped key =
     match contributions getLsRange db wfile occs key with
     | [] => None
     | (_, (idx, pk, k, st), loc) :: cs =>
         Some (mkSymbol idx pk k st [] (loc :: cs.*2))
     end) /\
  (forall key, key ∈ grouped.*1 <->
     exists occ c, occ ∈ occs /\
       contribution getLsRange db wfile occ = Some c /\ c.1.1 = key).
Proof.
  intros Hg. destruct (group_symbols_find _ _ _ Hg) as [Hnd Hfind].
  specialize (Hnd (NoDup_nil_2)). simpl in Hfind.
  split; [done|]. split; [intros; by apply find_grouped_elem|].
  split; [done|]. intros key.
  assert (Hin : key ∈ grouped.*1 <-> find_grouped grouped key <> None)
    by (rewrite find_grouped_None; split; [tauto|apply dec_stable]).
  rewrite Hin, Hfind. unfold contributions. split.
  - intros Hne.
    destruct (filter _ _) as [|c cs] eqn:Hf; [done|].
    assert (Hc : c ∈ filter (fun c => c.1.1 = key)
                   (omap (contribution getLsRange db wfile) occs))
      by (rewrite Hf; by left).
    apply list_elem_of_filter in Hc as [Hk Hc].
    apply list_elem_of_omap in Hc as (occ & Hocc & Hc). eauto.
  - intros (occ & c & Hocc & Hc & Hk).
    assert (Hin' : c ∈ filter (fun c => c.1.1 = key)
                     (omap (contribution getLsRange db wfile) occs)).
    { apply list_elem_of_filter. split; [done|].
      apply list_elem_of_omap. eauto. }
    destruct (filter _ _) as [|[[? [[[? ?] ?] ?]] ?] cs];
      [by apply elem_of_nil in Hin'|done].
Qed.
End grouping_contents.

(** ** What is published *)

Section publication.
Context (getLsRange : WorkingFile -> Range -> option lsRange).
Context (matches : string -> bool) (fromPath : string -> string).
Context (cfg : HighlightConfig).
Context (db : SymbolIndex) (wfile : WorkingFile).

Lemma grouped_no_offsets occs grouped s :
  group_symbols getLsRange db wfile [] occs = Returned _ grouped ->
  s ∈ grouped.*2 -> ranges s = [].
Proof.
  intros Hg ([key s'] & -> & Hs)%list_elem_of_fmap. simpl.
  destruct (group_symbols_contents _ _ _ _ _ Hg) as (_ & Hfind & Hc & _).
  apply Hfind in Hs. rewrite Hc in Hs.
  destruct (contributions _ _ _ _ _) as [|[[? [[[? ?] ?] ?]] ?] cs]; [done|].
  by injection Hs as <-.
Qed.

Lemma resolve_overlaps_no_offsets tbl out s :
  (forall s0, s0 ∈ tbl -> ranges s0 = []) ->
  resolve_overlaps tbl = Some out -> s ∈ out -> ranges s = [].
Proof.
  intros Htbl Hout (k & Hk)%list_elem_of_lookup_1.
  destruct (resolve_overlaps_returns tbl) as (out' & Hout' & Hsame).
  assert (out' = out) as -> by congruence.
  apply (f_equal (fun l => l !! k)) in Hsame.
  rewrite !list_lookup_fmap, Hk in Hsame. simpl in Hsame.
  destruct (tbl !! k) as [s0|] eqn:Hs0; [|done].
  apply (inj Some) in Hsame. apply list_elem_of_lookup_2 in Hs0.
  apply Htbl in Hs0. apply (f_equal ranges) in Hsame. simpl in Hsame.
  congruence.
Qed.

(** X13.  With a cutoff that is not negative, [emitSemanticHighlight]
    publishes nothing, and reads no occurrence, when the buffer is larger
    than [largeFileSize] or the path is not matched; otherwise, unless an
    exception is raised, it publishes one notification, even when no
    symbol is left, and nothing else makes it return without one.  The
    notification carries the uri of the file, and each of its symbols
    carries exactly one of the two lists: ranges by line and column and no
    offsets when [highlight.lsRanges] is set, offsets and no ranges by
    line and column when it is not; a symbol that is left without any is
    not published. *)
Theorem highlight_publication (path : string) (occs : list (SymbolRef * Z)) :
  0 <= largeFileSize cfg ->
  let large := largeFileSize cfg < Z.of_nat (length (buffer_content wfile)) in
  let emitted :=
    emitSemanticHighlight getLsRange matches fromPath cfg db wfile path occs in
  (large \/ matches path = false -> emitted = Returned _ None) /\
  (emitted = Returned _ None -> large \/ matches path = false) /\
  (~ large -> matches path = true ->
   emitSemanticHighlight getLsRange matches fromPath cfg db wfile path []
     = Returned _ (Some (mkHighlight (fromPath (filename wfile)) []))) /\
  (forall hl, emitted = Returned _ (Some hl) ->
     hl_uri hl = fromPath (filename wfile) /\
     (highlight_lsRanges cfg = true ->
      forall s, s ∈ hl_symbols hl -> ranges s = [] /\ lsRanges s <> []) /\
     (highlight_lsRanges cfg = false ->
      forall s, s ∈ hl_symbols hl -> lsRanges s = [] /\ ranges s <> [])).
Proof.
  intros _ large emitted. subst emitted. unfold emitSemanticHighlight.
  destruct (Z.ltb_spec (largeFileSize cfg)
              (Z.of_nat (length (buffer_content wfile)))) as [Hl|Hl]; simpl.
  { split; [done|]. split; [by left|]. split; [intros H; by destruct H|done]. }
  destruct (matches path) eqn:Hm; simpl.
  2:{ split; [done|]. split; [by right|]. split; [done|done]. }
  split; [intros [?|?]; [unfold large in *; lia|done]|].
  split.
  { destruct (group_symbols getLsRange db wfile [] occs) as [grouped|]; [|done].
    destruct (resolve_overlaps grouped.*2); done. }
  split.
  { intros _ _. by destruct (highlight_lsRanges cfg). }
  intros hl.
  destruct (group_symbols getLsRange db wfile [] occs) as [grouped|] eqn:Hg;
    [|done].
  destruct (resolve_overlaps grouped.*2) as [out|] eqn:Hout; [|done].
  intros [= <-]. simpl. split; [done|].
  assert (Hno : forall s, s ∈ out -> ranges s = []).
  { intros s. eapply resolve_overlaps_no_offsets; [|done].
    intros s0. by eapply grouped_no_offsets. }
  split.
  - intros -> s Hin. apply list_elem_of_In, filter_In in Hin as [Hs Hhas].
    apply list_elem_of_In in Hs. pose proof (Hno s Hs) as Hr.
    split; [done|]. intros Hl'. unfold has_ranges in Hhas.
    rewrite Hr, Hl' in Hhas. done.
  - intros -> s Hin. apply list_elem_of_In, filter_In in Hin as [Hs Hhas].
    apply list_elem_of_In in Hs.
    assert (Hc : lsRanges s = []).
    { revert Hs. unfold project_offsets, project_sorted.
      apply project_fold_cleared. simpl.
      intros s0 (s1 & -> & _)%list_elem_of_fmap. done. }
    split; [done|]. intros Hr. unfold has_ranges in Hhas.
    rewrite Hc, Hr in Hhas. done.
Qed.
End publication.

(** ** The scan of the buffer, for any bytes *)

Lemma skip_lines_any line rest :
  forall s, exists mid rest' s',
    skip_lines line rest s = (s', rest') /\ rest = mid ++ rest' /\
    cur_i s' = cur_i s + Z.of_nat (length mid) /\
    cur_l s <= cur_l s' /\
    cur_p s <= cur_p s' <= cur_p s + Z.of_nat (length mid) /\
    cur_c s' = cur_c s /\
    (cur_l s <= line -> cur_l s' <= line) /\
    (line <= cur_l s -> s' = s /\ rest' = rest) /\
    (cur_l s' < line -> rest' = []).
Proof.
  induction rest as [|b rest IH]; intros s.
  - exists [], [], s. simpl. repeat split; auto; lia.
  - simpl. destruct (Z.ltb_spec (cur_l s) line) as [Hlt|Hge].
    2:{ exists [], (b :: rest), s. simpl. repeat split; auto; lia. }
    set (s1 := mkCursor _ _ _ _).
    destruct (IH s1) as (mid & rest' & s' & Hrun & -> & Hi & Hl & Hp & Hc & Hle & _ & Hex).
    exists (b :: mid), rest', s'. rewrite Hrun. rewrite length_cons.
    assert (cur_l s <= cur_l s1 <= line)
      by (unfold s1; simpl; destruct (is_newline b); lia).
    assert (cur_p s <= cur_p s1 <= cur_p s + 1)
      by (unfold s1; simpl; destruct (starts_code_point b); lia).
    assert (cur_i s1 = cur_i s + 1) by done.
    assert (cur_c s1 = cur_c s) by done.
    split; [done|]. split; [done|]. split; [lia|]. split; [lia|].
    split; [lia|]. split; [congruence|]. split; [lia|]. split; [lia|done].
Qed.

Lemma skip_continuation_any rest :
  forall i, exists mid rest',
    skip_continuation rest i = (i + Z.of_nat (length mid), rest') /\
    rest = mid ++ rest'.
Proof.
  induction rest as [|b rest IH]; intros i.
  - exists [], []. simpl. by rewrite Z.add_0_r.
  - simpl. destruct (is_continuation b).
    + destruct (IH (i + 1)) as (mid & rest' & Hrun & ->).
      exists (b :: mid), rest'. rewrite Hrun, length_cons.
      split; [f_equal; lia|done].
    + exists [], (b :: rest). simpl. by rewrite Z.add_0_r.
Qed.

(** The column loop has nothing left to do: the column is reached, the
    buffer is exhausted or the line ends here. *)
Lemma skip_columns_stopped fuel col rest s :
  col <= cur_c s \/ rest = [] \/
  (exists b r, rest = b :: r /\ is_newline b = true) ->
  skip_columns fuel col rest s = (s, rest).
Proof.
  intros Hstop. destruct fuel as [|fuel]; [done|]. simpl.
  destruct rest as [|b r]; [done|].
  destruct Hstop as [Hc|[?|(b' & r' & [= <- <-] & Hnl)]]; [|done|].
  - by destruct (Z.ltb_spec (cur_c s) col); [lia|].
  - rewrite Hnl. by rewrite andb_false_r.
Qed.

Lemma skip_columns_any col fuel :
  forall rest s, (length rest <= fuel)%nat ->
  exists mid rest' s',
    skip_columns fuel col rest s = (s', rest') /\ rest = mid ++ rest' /\
    cur_i s' = cur_i s + Z.of_nat (length mid) /\
    cur_l s' = cur_l s /\ cur_c s <= cur_c s' /\
    cur_p s' - cur_p s = cur_c s' - cur_c s /\
    cur_c s' - cur_c s <= Z.of_nat (length mid) /\
    (cur_c s <= col -> cur_c s' <= col) /\
    (col <= cur_c s' \/ rest' = [] \/
     (exists b r, rest' = b :: r /\ is_newline b = true)).
Proof.
  induction fuel as [|fuel IH]; intros rest s Hlen.
  - destruct rest; [|simpl in Hlen; lia].
    exists [], [], s. simpl. repeat split; auto; lia.
  - destruct rest as [|b rest].
    { exists [], [], s. simpl. repeat split; auto; lia. }
    simpl. destruct (Z.ltb_spec (cur_c s) col) as [Hlt|Hge]; simpl.
    2:{ exists [], (b :: rest), s. simpl. repeat split; auto; lia. }
    destruct (is_newline b) eqn:Hnl; simpl.
    { exists [], (b :: rest), s. simpl. repeat split; eauto 6; lia. }
    assert (Hcont : exists conts rest1,
              (if 128 <=? byte_val b
               then skip_continuation rest (cur_i s + 1)
               else (cur_i s + 1, rest))
              = (cur_i s + 1 + Z.of_nat (length conts), rest1) /\
              rest = conts ++ rest1).
    { destruct (128 <=? byte_val b).
      - apply skip_continuation_any.
      - exists [], rest. simpl. by rewrite Z.add_0_r. }
    destruct Hcont as (conts & rest1 & -> & ->).
    set (s1 := mkCursor _ _ _ _).
    destruct (IH rest1 s1) as (mid & rest' & s' & Hrun & -> & Hi & Hl & Hc & Hp & Hm & Hle & Hstop).
    { simpl in Hlen. rewrite length_app in Hlen. lia. }
    exists (b :: conts ++ mid), rest', s'. rewrite Hrun.
    unfold s1 in *. simpl in *.
    rewrite !length_app. split; [done|].
    split; [by rewrite <- app_assoc|].
    split; [lia|]. split; [done|]. split; [lia|]. split; [lia|].
    split; [lia|]. split; [lia|done].
Qed.

(** What one call of [mov] leaves of the buffer: the bytes from the new
    cursor on. *)
Lemma mov_any buf line col s :
  0 <= cur_i s ->
  exists mid rest' s' failed,
    mov buf line col s = (s', failed) /\
    drop (Z.to_nat (cur_i s)) buf = mid ++ rest' /\
    cur_i s' = cur_i s + Z.of_nat (length mid) /\
    cur_l s <= cur_l s' /\ (cur_l s <= line -> cur_l s' <= line) /\
    cur_p s <= cur_p s' <= cur_p s + Z.of_nat (length mid) /\
    failed = (cur_l s' <? line) || (cur_c s' <? col) /\
    (cur_l s' < line -> cur_c s' = 0 /\ rest' = []) /\
    (line <= cur_l s' ->
     col <= cur_c s' \/ rest' = [] \/
     (exists b r, rest' = b :: r /\ is_newline b = true)).
Proof.
  intros Hi0. unfold mov.
  set (s0 := if cur_l s <? line
             then mkCursor (cur_l s) 0 (cur_i s) (cur_p s) else s).
  assert (Hs0 : cur_i s0 = cur_i s /\ cur_l s0 = cur_l s /\
                cur_p s0 = cur_p s /\ (cur_l s < line -> cur_c s0 = 0) /\
                (line <= cur_l s -> s0 = s)).
  { unfold s0. destruct (Z.ltb_spec (cur_l s) line); simpl;
      repeat split; auto; lia. }
  destruct Hs0 as (Hi & Hl & Hp & Hc0 & Hsame). rewrite Hi.
  destruct (skip_lines_any line (drop (Z.to_nat (cur_i s)) buf) s0)
    as (mid1 & rest1 & s1 & -> & Hrest & Hi1 & Hl1 & Hp1 & Hc1 & Hle1 & _ & Hex1).
  destruct (Z.ltb_spec (cur_l s1) line) as [Hlt|Hge].
  - exists mid1, rest1, s1, true. rewrite Hrest.
    split; [done|]. split; [done|]. split; [lia|]. split; [lia|].
    split; [lia|]. split; [lia|].
    split; [by destruct (Z.ltb_spec (cur_l s1) line); [|lia]|].
    split; [|lia]. intros _. split; [|by apply Hex1]. rewrite Hc1.
    apply Hc0. lia.
  - destruct (skip_columns_any col (length rest1) rest1 s1)
      as (mid2 & rest2 & s2 & -> & -> & Hi2 & Hl2 & Hc2 & Hp2 & Hm2 & _ & Hstop);
      [done|].
    exists (mid1 ++ mid2), rest2, s2, (cur_c s2 <? col).
    rewrite Hrest, length_app, <- app_assoc.
    split; [done|]. split; [done|]. split; [lia|]. split; [lia|].
    split; [lia|]. split; [lia|].
    split; [by destruct (Z.ltb_spec (cur_l s2) line); [lia|]|].
    split; [lia|done].
Qed.

Lemma drop_after {A} (buf : list A) (n m : nat) mid rest :
  drop n buf = mid ++ rest -> m = length mid -> drop (n + m) buf = rest.
Proof.
  intros H ->. rewrite <- drop_drop, H. by rewrite drop_app_length.
Qed.

(** X14.  [mov] is idempotent: asked for the position that it was asked for
    last, it leaves the cursor where it is and gives the same answer.  So
    the end of one range and the start of the next may be the same
    position. *)
Theorem mov_idempotent (buf : list byte) (line col : Z) (s s' : Cursor)
    (failed : bool) :
  0 <= cur_i s -> mov buf line col s = (s', failed) ->
  mov buf line col s' = (s', failed).
Proof.
  intros Hi0 Hmov.
  destruct (mov_any buf line col s Hi0)
    as (mid & rest' & s1 & f1 & Hrun & Hdrop & Hi & Hl & _ & Hp & Hf & Hlow & Hhigh).
  rewrite Hmov in Hrun. injection Hrun as <- <-.
  assert (Hrest : drop (Z.to_nat (cur_i s')) buf = rest').
  { rewrite Hi, Z2Nat.inj_add, Nat2Z.id by lia. by eapply drop_after. }
  unfold mov. destruct (Z.ltb_spec (cur_l s') line) as [Hlt|Hge].
  - destruct (Hlow Hlt) as [Hc ->]. simpl. rewrite Hrest. simpl.
    destruct (Z.ltb_spec (cur_l s') line); [|lia].
    rewrite Hf. destruct (Z.ltb_spec (cur_l s') line); [|lia].
    simpl. f_equal. destruct s'. simpl in *. by subst.
  - rewrite Hrest.
    destruct (skip_lines_any line rest' s')
      as (m & r & s2 & -> & _ & _ & _ & _ & _ & _ & Hsame & _).
    destruct (Hsame Hge) as [-> ->].
    destruct (Z.ltb_spec (cur_l s') line); [lia|].
    rewrite (skip_columns_stopped _ _ _ _ (Hhigh Hge)).
    rewrite Hf. by destruct (Z.ltb_spec (cur_l s') line); [lia|].
Qed.

(** X15.  [mov] stays within the buffer and never goes back, whatever the bytes
    and the position asked for: the byte cursor moves forward and not
    beyond the end, the line does not decrease and does not pass the line
    asked for, and the running count grows by at most the number of bytes
    passed.  The answer is [true] exactly when the line or the column
    asked for is still ahead. *)
Theorem mov_in_buffer (buf : list byte) (line col : Z) (s s' : Cursor)
    (failed : bool) :
  0 <= cur_i s <= Z.of_nat (length buf) ->
  mov buf line col s = (s', failed) ->
  cur_i s <= cur_i s' <= Z.of_nat (length buf) /\
  cur_l s <= cur_l s' /\ (cur_l s <= line -> cur_l s' <= line) /\
  cur_p s <= cur_p s' /\ cur_p s' - cur_p s <= cur_i s' - cur_i s /\
  (failed = true <-> cur_l s' < line \/ cur_c s' < col) /\
  (cur_i s' < Z.of_nat (length buf) -> failed = true ->
   cur_c s' < col /\
   exists b, buf !! Z.to_nat (cur_i s') = Some b /\ is_newline b = true).
Proof.
  intros Hi0 Hmov.
  destruct (mov_any buf line col s (proj1 Hi0))
    as (mid & rest' & s1 & f1 & Hrun & Hdrop & Hi & Hl & Hle & Hp & Hf & Hlow & Hhigh).
  rewrite Hmov in Hrun. injection Hrun as <- <-.
  assert (Hlen : Z.of_nat (length buf) =
                 cur_i s + Z.of_nat (length mid) + Z.of_nat (length rest')).
  { apply (f_equal length) in Hdrop.
    rewrite length_drop, length_app in Hdrop. lia. }
  split; [lia|]. split; [done|]. split; [done|]. split; [lia|].
  split; [lia|]. split.
  - rewrite Hf, orb_true_iff, !Z.ltb_lt. done.
  - intros Hin Hfail.
    assert (Hne : rest' <> []) by (intros ->; simpl in Hlen; lia).
    assert (Hge : line <= cur_l s').
    { destruct (Z.lt_ge_cases (cur_l s') line) as [Hlt|]; [|done].
      by destruct (Hlow Hlt). }
    destruct (Z.ltb_spec (cur_l s') line) as [|_]; [lia|].
    simpl in Hf. rewrite Hf in Hfail. apply Z.ltb_lt in Hfail.
    destruct (Hhigh Hge) as [?|[?|(b & r & -> & Hnl)]]; [lia|done|].
    split; [done|]. exists b. split; [|done].
    rewrite Hi, Z2Nat.inj_add, Nat2Z.id by lia.
    rewrite <- lookup_drop, Hdrop.
    rewrite lookup_app_r by lia. by rewrite Nat.sub_diag.
Qed.

Lemma project_entry_ordered buf s tbl e s' tbl' :
  0 <= cur_p s <= cur_i s -> cur_i s <= Z.of_nat (length buf) ->
  (forall sym, sym ∈ tbl ->
     Forall (fun r => 0 <= r.1 <= r.2 /\ r.2 <= cur_p s) (ranges sym) /\
     StronglySorted (fun r1 r2 => r1.2 <= r2.1) (ranges sym)) ->
  project_entry buf (s, tbl) e = (s', tbl') ->
  0 <= cur_p s' <= cur_i s' /\ cur_i s' <= Z.of_nat (length buf) /\
  (forall sym, sym ∈ tbl' ->
     Forall (fun r => 0 <= r.1 <= r.2 /\ r.2 <= cur_p s') (ranges sym) /\
     StronglySorted (fun r1 r2 => r1.2 <= r2.1) (ranges sym)).
Proof.
  intros Hp Hi Htbl. unfold project_entry.
  destruct (mov buf (line (start e.1)) (character (start e.1)) s)
    as [s1 failed1] eqn:Hm1.
  assert (Hi0 : 0 <= cur_i s <= Z.of_nat (length buf)) by lia.
  destruct (mov_in_buffer _ _ _ _ _ _ Hi0 Hm1)
    as (Hi1 & _ & _ & Hp1 & Hd1 & _).
  assert (Hweak : forall c, cur_p s <= cur_p c ->
            forall sym, sym ∈ tbl ->
              Forall (fun r => 0 <= r.1 <= r.2 /\ r.2 <= cur_p c) (ranges sym) /\
              StronglySorted (fun r1 r2 => r1.2 <= r2.1) (ranges sym)).
  { intros c Hc sym Hsym. destruct (Htbl sym Hsym) as [H1 H2].
    split; [|done]. eapply Forall_impl; [exact H1|]. simpl. lia. }
  destruct failed1.
  { intros [= <- <-]. split; [lia|]. split; [lia|]. by apply Hweak. }
  destruct (mov buf (line (end_ e.1)) (character (end_ e.1)) s1)
    as [s2 failed2] eqn:Hm2.
  assert (Hi1' : 0 <= cur_i s1 <= Z.of_nat (length buf)) by lia.
  destruct (mov_in_buffer _ _ _ _ _ _ Hi1' Hm2)
    as (Hi2 & _ & _ & Hp2 & Hd2 & _).
  destruct failed2.
  { intros [= <- <-]. split; [lia|]. split; [lia|]. apply Hweak. lia. }
  intros [= <- <-]. split; [lia|]. split; [lia|].
  intros sym (k & Hk)%list_elem_of_lookup_1.
  destruct (decide (k = e.2)) as [->|Hne].
  - rewrite list_lookup_alter_eq in Hk.
    destruct (tbl !! e.2) as [sym0|] eqn:Hsym0; [|done].
    simpl in Hk. injection Hk as <-. simpl.
    apply list_elem_of_lookup_2 in Hsym0.
    destruct (Htbl sym0 Hsym0) as [H1 H2]. split.
    + apply Forall_app. split.
      * eapply Forall_impl; [exact H1|]. simpl. lia.
      * apply Forall_singleton. simpl. lia.
    + apply StronglySorted_app_2; [|done|repeat constructor].
      intros r1 r2 Hr1 ->%list_elem_of_singleton. simpl.
      rewrite Forall_forall in H1. specialize (H1 r1 Hr1). lia.
  - rewrite list_lookup_alter_ne in Hk by done.
    apply list_elem_of_lookup_2 in Hk. apply Hweak; [lia|done].
Qed.

Lemma project_fold_ordered buf scratch :
  forall s tbl,
    0 <= cur_p s <= cur_i s -> cur_i s <= Z.of_nat (length buf) ->
    (forall sym, sym ∈ tbl ->
       Forall (fun r => 0 <= r.1 <= r.2 /\ r.2 <= cur_p s) (ranges sym) /\
       StronglySorted (fun r1 r2 => r1.2 <= r2.1) (ranges sym)) ->
    forall sym, sym ∈ (foldl (project_entry buf) (s, tbl) scratch).2 ->
      Forall (fun r => 0 <= r.1 <= r.2 /\ r.2 <= Z.of_nat (length buf))
             (ranges sym) /\
      StronglySorted (fun r1 r2 => r1.2 <= r2.1) (ranges sym).
Proof.
  induction scratch as [|e scratch IH]; intros s tbl Hp Hi Htbl.
  - simpl. intros sym Hsym. destruct (Htbl sym Hsym) as [H1 H2].
    split; [|done]. eapply Forall_impl; [exact H1|]. simpl. lia.
  - cbn [foldl].
    destruct (project_entry buf (s, tbl) e) as [s' tbl'] eqn:He.
    destruct (project_entry_ordered _ _ _ _ _ _ Hp Hi Htbl He)
      as (Hp' & Hi' & Htbl').
    by apply IH.
Qed.

(** X16.  The offsets of a symbol, whatever the buffer and the ranges are: every
    pair lies within the buffer, its first number is at most its second,
    and the pairs of one symbol are listed in increasing order, each
    starting where the one before ends or later. *)
Theorem project_offsets_ordered (buf : list byte) (tbl : SymbolTable)
    (sym : CclsSemanticHighlightSymbol) :
  (forall s0, s0 ∈ tbl -> ranges s0 = []) ->
  sym ∈ project_offsets buf tbl ->
  Forall (fun r => 0 <= r.1 <= r.2 /\ r.2 <= Z.of_nat (length buf))
         (ranges sym) /\
  StronglySorted (fun r1 r2 => r1.2 <= r2.1) (ranges sym).
Proof.
  intros Hempty. unfold project_offsets, project_sorted.
  apply project_fold_ordered; simpl; [lia|lia|].
  intros s (s0 & -> & Hs0)%list_elem_of_fmap. simpl.
  rewrite (Hempty s0 Hs0). split; constructor.
Qed.

(** ** The scan line on its own output *)

Lemma tagged_ranges_ranges tbl : (tagged_ranges tbl).*2 = tbl ≫= lsRanges.
Proof.
  unfold tagged_ranges.
  enough (forall g : nat -> nat,
            (concat (imap (fun k s => pair (g k) <$> lsRanges s) tbl)).*2
            = tbl ≫= lsRanges) as H by apply (H (fun k => k)).
  induction tbl as [|s tbl IH]; intros g; [done|].
  rewrite imap_cons, bind_cons. simpl. rewrite fmap_app. f_equal.
  - rewrite <- list_fmap_compose. apply list_fmap_id.
  - apply (IH (g ∘ S)).
Qed.

Lemma sorted_nonempty_NoDup (l : list lsRange) :
  Forall (fun r => Position_lt (start r) (end_ r)) l ->
  StronglySorted left_of l -> NoDup l.
Proof.
  intros Hne Hs. induction Hs as [|r l Hs IH Hr]; [constructor|].
  apply Forall_cons in Hne as [Hr0 Hne]. constructor; [|auto].
  intros Hin. rewrite Forall_forall in Hr. specialize (Hr r Hin).
  pos_arith.
Qed.

Section settled_sweep.
Context (tbl : SymbolTable) (evs : list ScanLineEvent).
Context (Hsettled : settled tbl).
Context (Hperm : evs ≡ₚ (build_events tbl).2).
Context (Hsorted : sorted_by (ScanLineEvent_lt (clear_lsRanges <$> tbl)) evs).

Lemma settled_wf :
  events_wf (length (clear_lsRanges <$> tbl))
            (Z.of_nat (length (tagged_ranges tbl))) (tagged_ranges tbl) evs.
Proof.
  rewrite length_fmap. eapply events_wf_perm; [|apply events_from_wf].
  rewrite Hperm, build_events_eq. done.
Qed.

Lemma settled_nonempty a :
  a ∈ tagged_ranges tbl -> Position_lt (start a.2) (end_ a.2).
Proof.
  intros Ha. destruct Hsettled as (Hne & _ & _).
  rewrite Forall_forall in Hne. apply Hne.
  rewrite <- tagged_ranges_ranges. apply list_elem_of_fmap. eauto.
Qed.

Lemma settled_apart a b :
  a ∈ tagged_ranges tbl -> b ∈ tagged_ranges tbl -> a = b \/ apart a.2 b.2.
Proof.
  intros Ha Hb. destruct Hsettled as (_ & Hap & _).
  rewrite <- tagged_ranges_ranges in Hap. apply ForallOrdPairs_fmap in Hap.
  apply list_elem_of_In in Ha, Hb.
  destruct (ForallOrdPairs_In Hap _ _ Ha Hb) as [?|[?|?]]; auto.
  right. by apply apart_sym.
Qed.

(** No end of a range lies strictly inside a range. *)
Lemma settled_no_inner a b y :
  a ∈ tagged_ranges tbl -> b ∈ tagged_ranges tbl ->
  y = start b.2 \/ y = end_ b.2 ->
  Position_lt (start a.2) y -> Position_lt y (end_ a.2) -> False.
Proof.
  intros Ha Hb Hy H1 H2.
  pose proof (settled_nonempty b Hb) as Hnb.
  destruct (settled_apart a b Ha Hb) as [->|[H|H]];
    destruct Hy as [-> | ->]; unfold left_of in *; pos_arith.
Qed.

Lemma settled_endpoint e :
  e ∈ evs ->
  exists b, b ∈ tagged_ranges tbl /\ (pos e = start b.2 \/ pos e = end_ b.2).
Proof.
  intros He. rewrite Hperm, build_events_eq in He. simpl in He.
  apply events_from_elem in He as (j & b & Hj & He).
  exists b. split; [by eapply list_elem_of_lookup_2|].
  destruct He as [-> | ->]; simpl; auto.
Qed.

Lemma settled_log_elem a :
  a ∈ spec_log evs (length evs) -> a ∈ tagged_ranges tbl.
Proof.
  intros Ha. pose proof settled_wf as Hwf.
  pose proof (spec_log_nonempty _ _ Hsorted _ _ Ha) as Hne.
  assert (Hx : in_lsRange (start a.2) a.2)
    by (split; [apply Position_le_refl|done]).
  destruct (spec_log_lifo _ _ _ _ Hwf Hsorted _ _ _ Ha Hx)
    as (e & He & Ho & Hsym & H1 & H2 & _).
  pose proof (wf_open_iv _ _ _ _ Hwf e He Ho) as Hr.
  apply spec_log_elem in Ha
    as (j & prev & cur & e0 & Hj & Hprev & Hcur & Hpc & _ & ->).
  simpl in *. rewrite Hsym in Hr.
  destruct (settled_endpoint prev (list_elem_of_lookup_2 _ _ _ Hprev))
    as (b1 & Hb1 & Hy1).
  destruct (settled_endpoint cur (list_elem_of_lookup_2 _ _ _ Hcur))
    as (b2 & Hb2 & Hy2).
  assert (Hp : pos prev = pos e).
  { destruct (Position_le_or_lt (pos prev) (pos e)) as [Hle|Hlt].
    - pos_arith.
    - exfalso. by apply (settled_no_inner _ b1 (pos prev) Hr Hb1). }
  destruct (wf_close_ex _ _ _ _ Hwf e He Ho) as (c & Hc & Hid).
  pose proof (wf_close_pos _ _ _ _ Hwf e c He Hc Ho Hid) as Hpc'.
  apply list_elem_of_lookup_1 in Hc as (i & Hi).
  assert (Hq : Position_le (pos cur) (end_pos e)).
  { rewrite <- Hpc'. destruct (decide (i <= j)%nat) as [Hij|Hij].
    - pose proof (sorted_pos _ _ Hsorted i j c prev Hij Hi Hprev) as Hle.
      rewrite Hpc' in Hle. pos_arith.
    - apply (sorted_pos _ _ Hsorted (S j) i cur c); [lia|done..]. }
  assert (Hq' : pos cur = end_pos e).
  { destruct (Position_le_or_lt (end_pos e) (pos cur)) as [Hle|Hlt].
    - pos_arith.
    - exfalso. apply (settled_no_inner _ b2 (pos cur) Hr Hb2); simpl;
        [done| |done]. rewrite <- Hp. pos_arith. }
  by rewrite Hp, Hq'.
Qed.

Lemma settled_log_iff a :
  a ∈ spec_log evs (length evs) <-> a ∈ tagged_ranges tbl.
Proof.
  split; [apply settled_log_elem|]. intros Ha.
  pose proof settled_wf as Hwf. pose proof (settled_nonempty a Ha) as Hne.
  destruct (wf_iv_open _ _ _ _ Hwf a Ha) as (e & He & Ho & Hsym & Hp & Hq).
  destruct (spec_log_cover _ _ _ _ Hwf Hsorted (start a.2) e He Ho)
    as (a' & Ha' & [Hx1 Hx2]).
  { rewrite Hp. apply Position_le_refl. }
  { by rewrite Hq. }
  pose proof (settled_log_elem a' Ha') as Hin'.
  pose proof (settled_nonempty a' Hin') as Hne'.
  destruct (settled_apart a a' Ha Hin') as [->|[H|H]]; [done|..];
    exfalso; unfold left_of in *; pos_arith.
Qed.

Lemma settled_fixed :
  scan_line (clear_lsRanges <$> tbl) evs (build_events tbl).1 = Some tbl.
Proof.
  pose proof settled_wf as Hwf.
  rewrite build_events_eq. cbn [fst].
  rewrite (scan_line_spec _ _ _ _ Hwf). f_equal.
  set (log := spec_log evs (length evs)).
  assert (Hslog : StronglySorted (fun a b => left_of a.2 b.2) log)
    by (eapply spec_log_sorted; eauto).
  apply list_eq. intros k.
  rewrite apply_log_lookup, list_lookup_fmap.
  destruct (tbl !! k) as [s|] eqn:Hk; [|done]. simpl. f_equal.
  assert (Hin : with_lsRanges (log_ranges k log) (clear_lsRanges s)
                ∈ apply_log (clear_lsRanges <$> tbl) log).
  { apply (list_elem_of_lookup_2 _ k).
    by rewrite apply_log_lookup, list_lookup_fmap, Hk. }
  pose proof (lsRanges_apply_log_sorted _ _ _ Hslog Hin) as Hs1.
  simpl in Hs1.
  destruct Hsettled as (Hne & _ & Hs2).
  rewrite Forall_forall in Hs2.
  pose proof (Hs2 s (list_elem_of_lookup_2 _ _ _ Hk)) as Hs2'.
  assert (Hmem : forall r, r ∈ log_ranges k log <-> r ∈ lsRanges s).
  { intros r. rewrite log_ranges_elem. unfold log.
    rewrite settled_log_iff, tagged_ranges_lookup. split.
    - intros (s' & Hs' & Hr). congruence.
    - eauto. }
  assert (Hne2 : Forall (fun r => Position_lt (start r) (end_ r)) (lsRanges s)).
  { apply Forall_forall. intros r Hr. rewrite Forall_forall in Hne.
    apply Hne, list_elem_of_bind. exists s. split; [done|].
    by eapply list_elem_of_lookup_2. }
  assert (Hne1 : Forall (fun r => Position_lt (start r) (end_ r))
                        (log_ranges k log)).
  { apply Forall_forall. intros r Hr%Hmem.
    rewrite Forall_forall in Hne2. auto. }
  assert (Heq : log_ranges k log = lsRanges s).
  { apply (StronglySorted_unique_strong left_of); [|done|done|].
    - intros x1 x2 H1 H2 H12 H21. rewrite Forall_forall in Hne1, Hne2.
      specialize (Hne1 x1 H1). specialize (Hne2 x2 H2).
      exfalso. pos_arith.
    - apply NoDup_Permutation; [by apply sorted_nonempty_NoDup..|done]. }
  destruct s. unfold with_lsRanges, clear_lsRanges. simpl in *.
  by rewrite Heq.
Qed.
End settled_sweep.

(** What the scan line leaves is settled. *)
Lemma scan_line_settled tbl evs out :
  evs ≡ₚ (build_events tbl).2 ->
  sorted_by (ScanLineEvent_lt (clear_lsRanges <$> tbl)) evs ->
  scan_line (clear_lsRanges <$> tbl) evs (build_events tbl).1 = Some out ->
  settled out.
Proof.
  intros Hperm Hsorted Hout.
  set (tbl0 := clear_lsRanges <$> tbl) in *.
  assert (Hwf : events_wf (length tbl0)
                  (Z.of_nat (length (tagged_ranges tbl)))
                  (tagged_ranges tbl) evs).
  { unfold tbl0. rewrite length_fmap.
    eapply events_wf_perm; [|apply events_from_wf].
    rewrite Hperm, build_events_eq. done. }
  rewrite build_events_eq in Hout. cbn [fst] in Hout.
  rewrite (scan_line_spec _ _ _ _ Hwf) in Hout. injection Hout as <-.
  set (log := spec_log evs (length evs)).
  assert (Hlog : forall a, a ∈ tagged_ranges (apply_log tbl0 log) <-> a ∈ log).
  { intros [k r]. unfold tbl0. rewrite tagged_apply_log. split; [tauto|].
    intros Hin. split; [|done].
    pose proof (spec_log_symbol _ _ _ _ Hwf _ _ Hin) as Hk.
    unfold tbl0 in Hk. by rewrite length_fmap in Hk. }
  assert (Hslog : StronglySorted (fun a b => left_of a.2 b.2) log)
    by (eapply spec_log_sorted; eauto).
  split; [|split].
  - apply Forall_forall. intros r (k & Hk%Hlog)%elem_of_ranges.
    change r with (k, r).2. eapply spec_log_nonempty; eauto.
  - apply ForallOrdPairs_bind.
    + intros s Hs. eapply ForallOrdPairs_impl;
        [|apply StronglySorted_ForallOrdPairs,
            (lsRanges_apply_log_sorted _ _ _ Hslog Hs)].
      intros a b H. by left.
    + intros i j s t x y Hij Hi Hj Hx Hy.
      assert (H1 : (i, x) ∈ log) by (apply Hlog, tagged_ranges_lookup; eauto).
      assert (H2 : (j, y) ∈ log) by (apply Hlog, tagged_ranges_lookup; eauto).
      destruct (StronglySorted_elem _ _ _ _ Hslog H1 H2) as [[= ? ?]|[H|H]];
        [lia|by left|by right].
  - apply Forall_forall. intros s Hs.
    apply (lsRanges_apply_log_sorted _ _ _ Hslog Hs).
Qed.

(** X17.  The scan line is idempotent.  On a table whose ranges are not empty,
    are apart from one another and are listed from left to right for each
    symbol, it changes nothing, whatever sorted arrangement of the events
    it works on; what it leaves is such a table, so that resolving the
    overlaps of its own result gives that result again. *)
Theorem resolve_overlaps_idempotent (tbl out : SymbolTable) :
  resolve_overlaps tbl = Some out ->
  settled out /\ resolve_overlaps out = Some out /\
  (forall evs,
     evs ≡ₚ (build_events out).2 ->
     sorted_by (ScanLineEvent_lt (clear_lsRanges <$> out)) evs ->
     scan_line (clear_lsRanges <$> out) evs (build_events out).1 = Some out) /\
  (settled tbl -> out = tbl).
Proof.
  intros Hout.
  assert (Hs : settled out).
  { eapply scan_line_settled; [| |exact Hout].
    - apply std_sort_perm.
    - apply std_sort_sorted. }
  split; [done|]. split; [|split].
  - apply settled_fixed; [done|apply std_sort_perm|apply std_sort_sorted].
  - intros evs Hp Hsorted. by apply settled_fixed.
  - intros Htbl.
    pose proof (settled_fixed tbl _ Htbl (std_sort_perm _ _)
                  (std_sort_sorted _ _)) as Hfix.
    unfold resolve_overlaps in Hout. congruence.
Qed.

(** ** The size of what the scan line leaves *)

Lemma spec_log_length evs i : (length (spec_log evs i) <= pred i)%nat.
Proof.
  induction i as [|j IH]; [done|]. simpl. rewrite length_app.
  destruct j as [|j']; [simpl in *; lia|].
  assert (forall l p c, (length (emission l p c) <= 1)%nat) as Hem.
  { intros l p c. unfold emission. destruct (Position_eqb _ _); [simpl; lia|].
    destruct (active l); simpl; lia. }
  destruct (evs !! j') as [prev|]; [|simpl in *; lia].
  destruct (evs !! S j') as [cur|]; [|simpl in *; lia].
  specialize (Hem (take (S j') evs) prev cur). simpl in *. lia.
Qed.

Lemma alter_ranges_length r k (tbl : SymbolTable) :
  (length (alter (add_lsRange r) k tbl ≫= lsRanges)
   <= S (length (tbl ≫= lsRanges)))%nat.
Proof.
  revert k. induction tbl as [|s tbl IH]; intros k; [simpl; lia|].
  destruct k as [|k].
  - change (alter (add_lsRange r) 0%nat (s :: tbl))
      with (add_lsRange r s :: tbl).
    rewrite !bind_cons, !length_app. simpl. rewrite length_app. simpl. lia.
  - change (alter (add_lsRange r) (S k) (s :: tbl))
      with (s :: alter (add_lsRange r) k tbl).
    rewrite !bind_cons, !length_app. specialize (IH k). lia.
Qed.

Lemma apply_log_ranges_length log :
  forall tbl : SymbolTable,
    (length (apply_log tbl log ≫= lsRanges)
     <= length (tbl ≫= lsRanges) + length log)%nat.
Proof.
  induction log as [|a log IH]; intros tbl; simpl; [lia|].
  unfold apply_log in *. simpl.
  specialize (IH (alter (add_lsRange a.2) a.1 tbl)).
  pose proof (alter_ranges_length a.2 a.1 tbl). lia.
Qed.

Lemma events_from_length n ivs :
  length (events_from n ivs) = (2 * length ivs)%nat.
Proof.
  revert n. induction ivs as [|a ivs IH]; intros n; [done|].
  simpl. rewrite IH. lia.
Qed.

Lemma clear_ranges (tbl : SymbolTable) : (clear_lsRanges <$> tbl) ≫= lsRanges = [].
Proof. induction tbl as [|s tbl IH]; [done|]. by rewrite fmap_cons, bind_cons, IH. Qed.

(** X18.  From [n] collected ranges the scan line makes at most [2 n - 1]
    ranges, whatever arrangement of the events it works on; from none it
    makes none and leaves the symbols without ranges. *)
Theorem scan_line_size (tbl : SymbolTable) (evs : list ScanLineEvent)
    (out : SymbolTable) :
  evs ≡ₚ (build_events tbl).2 ->
  scan_line (clear_lsRanges <$> tbl) evs (build_events tbl).1 = Some out ->
  (length (out ≫= lsRanges) <= 2 * length (tbl ≫= lsRanges) - 1)%nat /\
  length out = length tbl /\
  (tbl ≫= lsRanges = [] -> out = clear_lsRanges <$> tbl).
Proof.
  intros Hperm Hout.
  assert (Hwf : events_wf (length (clear_lsRanges <$> tbl))
                  (Z.of_nat (length (tagged_ranges tbl)))
                  (tagged_ranges tbl) evs).
  { rewrite length_fmap. eapply events_wf_perm; [|apply events_from_wf].
    rewrite Hperm, build_events_eq. done. }
  rewrite build_events_eq in Hout. cbn [fst] in Hout.
  rewrite (scan_line_spec _ _ _ _ Hwf) in Hout. injection Hout as <-.
  assert (Hlen : length evs = (2 * length (tbl ≫= lsRanges))%nat).
  { rewrite Hperm, build_events_eq. simpl.
    by rewrite events_from_length, <- tagged_ranges_ranges, length_fmap. }
  pose proof (spec_log_length evs (length evs)) as Hlog.
  pose proof (apply_log_ranges_length (spec_log evs (length evs))
                (clear_lsRanges <$> tbl)) as Happ.
  rewrite clear_ranges in Happ. simpl in Happ.
  split; [lia|]. split.
  - rewrite apply_log_length. apply length_fmap.
  - intros Hnil. rewrite Hnil in Hlen. simpl in Hlen.
    destruct evs; [done|]. simpl in Hlen. lia.
Qed.

(** * The further properties at concrete inputs *)

Lemma bind_request_dispatch_witness :
  RequestId_valid (msg_id sample_request) = true /\
  method sample_request = "textDocument/unknown" /\
  MessageHandler_run
    (bind "textDocument/unknown" (RequestOfParam expects_integer idle_request)
          (mkMessageHandler ∅ ∅))
    sample_request empty_world
  = (mkWorld [ReplyError (msg_id sample_request) InvalidParams
                "invalid params of textDocument/unknown: expected integer for /position/line"]
             tt, None).
Proof.
  split; [reflexivity|]. split; [reflexivity|].
  destruct (bind_request_dispatch expects_integer idle_request
              "textDocument/unknown" (mkMessageHandler ∅ ∅)
              sample_request empty_world eq_refl eq_refl) as (_ & H & _).
  exact (H _ _ eq_refl).
Defined.

Lemma bind_notification_dispatch_witness :
  RequestId_valid (msg_id sample_notification) = false /\
  method sample_notification = "$ccls/unknown" /\
  MessageHandler_run
    (bind "$ccls/unknown" (NotificationOfParam expects_integer idle_notification)
          (mkMessageHandler ∅ ∅))
    sample_notification empty_world
  = (mkWorld [Notify window_showMessage
                (mkShowMessage MessageType_Error
                   "failed to process $ccls/unknown")] tt, None).
Proof.
  split; [reflexivity|]. split; [reflexivity|].
  destruct (bind_notification_dispatch expects_integer idle_notification
              "$ccls/unknown" (mkMessageHandler ∅ ∅)
              sample_notification empty_world eq_refl eq_refl) as (_ & H & _).
  exact (H _ _ eq_refl).
Defined.

Lemma group_symbols_contents_witness :
  let grouped :=
    [(mkSymbolIdx 1 Kind_Func,
      mkSymbol 0 3 12 0 []
        [mklsRange (mkPosition 0 4) (mkPosition 0 7);
         mklsRange (mkPosition 0 4) (mkPosition 0 7)])] in
  group_symbols same_range foo_index short_file [] two_occurrences
    = Returned _ grouped /\
  NoDup grouped.*1.
Proof.
  cbv zeta.
  assert (H : group_symbols same_range foo_index short_file [] two_occurrences
              = Returned _
                  [(mkSymbolIdx 1 Kind_Func,
                    mkSymbol 0 3 12 0 []
                      [mklsRange (mkPosition 0 4) (mkPosition 0 7);
                       mklsRange (mkPosition 0 4) (mkPosition 0 7)])])
    by (vm_compute; reflexivity).
  split; [exact H|].
  destruct (group_symbols_contents same_range foo_index short_file
              two_occurrences _ H) as (Hnd & _).
  exact Hnd.
Defined.

Lemma mov_idempotent_witness :
  0 <= cur_i (mkCursor 0 0 0 0) /\
  mov accent_buffer 0 2 (mkCursor 0 0 0 0) = (mkCursor 0 2 3 2, false) /\
  mov accent_buffer 0 2 (mkCursor 0 2 3 2) = (mkCursor 0 2 3 2, false).
Proof.
  assert (H0 : 0 <= cur_i (mkCursor 0 0 0 0)) by (simpl; lia).
  assert (H : mov accent_buffer 0 2 (mkCursor 0 0 0 0)
              = (mkCursor 0 2 3 2, false)) by (vm_compute; reflexivity).
  split; [exact H0|]. split; [exact H|].
  exact (mov_idempotent accent_buffer 0 2 _ _ _ H0 H).
Defined.

Lemma mov_in_buffer_witness :
  0 <= cur_i (mkCursor 0 0 0 0) <= Z.of_nat (length accent_buffer) /\
  mov accent_buffer 0 9 (mkCursor 0 0 0 0) = (mkCursor 0 3 4 3, true) /\
  cur_i (mkCursor 0 3 4 3) <= Z.of_nat (length accent_buffer).
Proof.
  assert (H0 : 0 <= cur_i (mkCursor 0 0 0 0)
               <= Z.of_nat (length accent_buffer)) by (simpl; lia).
  assert (H : mov accent_buffer 0 9 (mkCursor 0 0 0 0)
              = (mkCursor 0 3 4 3, true)) by (vm_compute; reflexivity).
  split; [exact H0|]. split; [exact H|].
  destruct (mov_in_buffer accent_buffer 0 9 _ _ _ H0 H) as ([_ Hi] & _).
  exact Hi.
Defined.

Lemma project_offsets_ordered_witness :
  (forall s0, s0 ∈ [accent_symbol] -> ranges s0 = []) /\
  mkSymbol 4 0 13 0 [(2, 3)] [] ∈ project_offsets accent_buffer [accent_symbol] /\
  Forall (fun r => 0 <= r.1 <= r.2 /\ r.2 <= 4) [(2, 3)].
Proof.
  assert (H0 : forall s0, s0 ∈ [accent_symbol] -> ranges s0 = []).
  { intros s0 ->%list_elem_of_singleton. reflexivity. }
  assert (H : mkSymbol 4 0 13 0 [(2, 3)] []
              ∈ project_offsets accent_buffer [accent_symbol]).
  { replace (project_offsets accent_buffer [accent_symbol])
      with [mkSymbol 4 0 13 0 [(2, 3)] []] by (vm_compute; reflexivity).
    by left. }
  split; [exact H0|]. split; [exact H|].
  destruct (project_offsets_ordered accent_buffer [accent_symbol] _ H0 H)
    as [Hb _].
  exact Hb.
Defined.

Lemma scan_line_size_witness :
  let tbl := [symbolA; symbolB; symbolC] in
  let evs := std_sort (ScanLineEvent_lt (clear_lsRanges <$> tbl))
                      (build_events tbl).2 in
  let out := [mkSymbol 0 0 5 0 [] [col_range 4 6; col_range 8 10];
              mkSymbol 1 0 13 0 [] [col_range 0 4];
              mkSymbol 2 0 12 0 [] [col_range 6 8]] in
  evs ≡ₚ (build_events tbl).2 /\
  scan_line (clear_lsRanges <$> tbl) evs (build_events tbl).1 = Some out /\
  (length (out ≫= lsRanges) <= 2 * length (tbl ≫= lsRanges) - 1)%nat.
Proof.
  cbv zeta.
  assert (Hp : std_sort
                 (ScanLineEvent_lt (clear_lsRanges <$> [symbolA; symbolB; symbolC]))
                 (build_events [symbolA; symbolB; symbolC]).2
               ≡ₚ (build_events [symbolA; symbolB; symbolC]).2)
    by apply std_sort_perm.
  assert (H : scan_line (clear_lsRanges <$> [symbolA; symbolB; symbolC])
                (std_sort
                   (ScanLineEvent_lt (clear_lsRanges <$> [symbolA; symbolB; symbolC]))
                   (build_events [symbolA; symbolB; symbolC]).2)
                (build_events [symbolA; symbolB; symbolC]).1
              = Some [mkSymbol 0 0 5 0 [] [col_range 4 6; col_range 8 10];
                      mkSymbol 1 0 13 0 [] [col_range 0 4];
                      mkSymbol 2 0 12 0 [] [col_range 6 8]])
    by (vm_compute; reflexivity).
  split; [exact Hp|]. split; [exact H|].
  destruct (scan_line_size _ _ _ Hp H) as [Hlen _].
  exact Hlen.
Defined.

Lemma resolve_overlaps_idempotent_witness :
  let out := [mkSymbol 0 0 5 0 [] [col_range 4 6; col_range 8 10];
              mkSymbol 1 0 13 0 [] [col_range 0 4];
              mkSymbol 2 0 12 0 [] [col_range 6 8]] in
  resolve_overlaps [symbolA; symbolB; symbolC] = Some out /\
  resolve_overlaps out = Some out.
Proof.
  cbv zeta.
  assert (H : resolve_overlaps [symbolA; symbolB; symbolC]
              = Some [mkSymbol 0 0 5 0 [] [col_range 4 6; col_range 8 10];
                      mkSymbol 1 0 13 0 [] [col_range 0 4];
                      mkSymbol 2 0 12 0 [] [col_range 6 8]])
    by (vm_compute; reflexivity).
  split; [exact H|].
  destruct (resolve_overlaps_idempotent _ _ H) as (_ & Hfix & _).
  exact Hfix.
Defined.

Lemma highlight_publication_witness :
  0 <= largeFileSize default_highlight /\
  emitSemanticHighlight same_range (fun _ => false) (fun p => p)
      default_highlight foo_index short_file "f.cc" two_occurrences
    = Returned _ None.
Proof.
  assert (H0 : 0 <= largeFileSize default_highlight) by (simpl; lia).
  split; [exact H0|].
  destruct (highlight_publication same_range (fun _ => false) (fun p => p)
              default_highlight foo_index short_file "f.cc" two_occurrences H0)
    as (H & _).
  apply H. right. reflexivity.
Defined.
